(** * ISDF convergence sweeps of [isdf.ipynb]

    A shallow embedding of the code cells of the notebook
    [src/openfermion/resource_estimates/pbc/notebooks/isdf.ipynb]
    (cells 2, 4, 6, 8, 10, 12, 15, 17, 19, 20 and 22) and the properties
    of the records its parameter sweeps build.

    Conventions of the model.
    - Python floats are exact rationals ([Q]); rounding, infinities and
      NaN are not modelled.
    - [np.int64] values are integers with two's-complement wrap-around.
      The Python integers that enter these products are dimensions of
      arrays, which fit 64 bits; numpy's [OverflowError] for a Python
      integer beyond that range is not modelled.
    - An [ndarray] is the list of its elements in flattened order.
      Shapes are not modelled: where numpy decides on shapes
      (broadcasting), the model covers two operands of one shape, as
      the tensors that the notebook compares are, and an operand with a
      single element.
    - The routines of ase, pyscf and openfermion are fields of the
      class [Lib]: each is a function of its arguments and of the state
      of the libraries ([World]: numpy's global random generator and
      whatever else the libraries keep or read between calls), which it
      may change, and it may raise. Nothing is assumed of how a routine
      depends on that state, nor of what [np.random.seed] resets of it.
    - A cell runs in the monad [M]: the session state is kept when an
      exception is raised, as the interpreter keeps every side effect
      that happened before the exception.
    - The lists and dicts that the cells update in place are fields of
      the session state; the other variables are let-bound, and those a
      later cell reads are handed on in the records [Setup] and
      [Globals] by a cell that completes: a cell is a function of the
      variables it reads. What the interpreter keeps bound of the
      variables that a cell assigned before it raised is not modelled.
    - The session state also keeps the library calls made so far
      ([log]), which no cell reads: the properties about how often and
      in which order the routines are called are stated on it. *)

From Stdlib Require Import String ZArith QArith Qabs List Lia Bool.
Import ListNotations.

Local Open Scope Z_scope.

(* Rational arithmetic stays folded in goals. *)
Arguments Qplus : simpl never.
Arguments Qminus : simpl never.
Arguments Qmult : simpl never.
Arguments Qdiv : simpl never.
Arguments Qopp : simpl never.
Arguments Qabs : simpl never.
Arguments inject_Z : simpl never.
Arguments Qlt_le_dec : simpl never.

(** ** Results and exceptions *)

(** A Python exception, by the name of its class. *)
Inductive exn : Type :=
| ValueError
| KeyError
| IndexError
| AssertionError
| LibraryError (msg : string).

Inductive res (A : Type) : Type :=
| Ok (a : A)
| Raise (e : exn).
Arguments Ok {A} a.
Arguments Raise {A} e.

(** An external routine: reads and may change the state [R] of the
    libraries, returns or raises. *)
Definition Ext (R A : Type) : Type := R -> res A * R.

(** ** numpy and Python built-ins used by the cells *)

Module Np.

(** [np.int64] arithmetic wraps around. *)
Definition wrap64 (z : Z) : Z := (z + 2 ^ 63) mod 2 ^ 64 - 2 ^ 63.

(** [cthc * num_spatial_orbs] with [cthc : np.int64] and a Python
    integer within the range of [np.int64]. *)
Definition int64_mul (a b : Z) : Z := wrap64 (a * b).

(** [np.arange(start, stop, step)] for a positive [step]. *)
Definition arange (start stop step : Z) : list Z :=
  map (fun i => start + Z.of_nat i * step)
      (seq 0 (Z.to_nat ((stop - start + step - 1) / step))).

(** Element-wise binary operation on flattened arrays of one shape,
    which combine element by element, or with an operand of a single
    element, which is broadcast.  Shapes are not modelled: for other
    pairs of sizes numpy decides on the shapes, and the model raises. *)
Fixpoint zip_with {A B C} (f : A -> B -> C) (xs : list A) (ys : list B)
  : list C :=
  match xs, ys with
  | x :: xs', y :: ys' => f x y :: zip_with f xs' ys'
  | _, _ => []
  end.

Definition broadcast {A B} (f : A -> A -> B) (xs ys : list A)
  : res (list B) :=
  if Nat.eqb (length xs) (length ys) then Ok (zip_with f xs ys)
  else match xs, ys with
       | [x], _ => Ok (map (f x) ys)
       | _, [y] => Ok (map (fun x => f x y) xs)
       | _, _ => Raise ValueError
       end.

Definition qmax (a b : Q) : Q := if Qle_bool a b then b else a.

(** [np.max] of a real array: raises on an empty array. *)
Definition max (xs : list Q) : res Q :=
  match xs with
  | [] => Raise ValueError
  | x :: xs' => Ok (fold_left qmax xs' x)
  end.

(** [np.prod] of a list of integers, an [np.int64]. *)
Definition prod (xs : list Z) : Z := fold_left int64_mul xs 1.

(** [m[i, j]] on a two-dimensional array. *)
Definition index2 (m : list (list Z)) (i j : nat) : res Z :=
  match nth_error m i with
  | Some row => match nth_error row j with
                | Some v => Ok v
                | None => Raise IndexError
                end
  | None => Raise IndexError
  end.

(** [np.allclose(a, b)] with the default tolerances: element-wise
    [abs(a - b) <= atol + rtol * abs(b)]. *)
Definition atol : Q := 1 # 100000000.
Definition rtol : Q := 1 # 100000.

Definition allclose {A} (sub : A -> A -> A) (abs1 : A -> Q) (a b : list A)
  : res bool :=
  match broadcast (fun x y => Qle_bool (abs1 (sub x y)) (atol + rtol * abs1 y))
                  a b with
  | Ok bs => Ok (forallb (fun c => c) bs)
  | Raise e => Raise e
  end.

(** [np.abs], element-wise, given the absolute value of an element
    ([Qabs] for floats, the modulus for complex numbers). *)
Definition abs {A} (abs1 : A -> Q) (xs : list A) : list Q := map abs1 xs.

End Np.

(** ** The external libraries *)

(** What the notebook uses of numpy, ase, pyscf and
    [openfermion.resource_estimates.pbc].  The types are opaque to the
    notebook. *)
Class Lib : Type := {
  World : Type;      (* state of the libraries: numpy's global random
                        generator and what else they keep or read *)
  Cell : Type;       (* a built [gto.Cell] *)
  Kpt : Type;        (* one k-point *)
  MF : Type;         (* a converged [scf.KRHF] object *)
  Chi : Type;        (* [kpt_thc.chi] *)
  Zeta : Type;       (* [kpt_thc.zeta] *)
  KptTHC : Type;     (* result of [solve_kmeans_kpisdf] *)
  Helper : Type;     (* a [KPTHCHelperDoubleTranslation] *)
  CCInst : Type;     (* result of [build_cc_inst] *)
  Eris : Type;       (* result of [cc_inst.ao2mo()] *)
  Elem : Type;       (* an element of an integral tensor (complex) *)
  Hcore : Type;      (* one-body matrices in the MO basis *)
  Lambda : Type;     (* result of [compute_lambda] *)

  (* numpy *)
  np_random_seed : Z -> World -> World; (* what [np.random.seed(n)] does to it *)
  elem_sub : Elem -> Elem -> Elem;      (* [-] on tensor elements *)
  elem_abs : Elem -> Q;                 (* [np.abs] on a tensor element *)

  (* ase and pyscf: [bulk] ... [cell.build()] with the given basis,
     [exp_to_discard] and mesh *)
  build_cell : string -> option Q -> list Z -> Ext World Cell;
  cell_mesh : Cell -> list Z;                     (* [cell.mesh] *)
  make_kpts : Cell -> list Z -> Ext World (list Kpt);
  KRHF_kernel : Cell -> list Kpt -> Ext World MF;   (* [scf.KRHF]; [mf.kernel()] *)
  e_tot : MF -> Q;                                (* [mf.e_tot] *)
  mo_coeff_shape_last : MF -> Z;                  (* [mf.mo_coeff[0].shape[-1]] *)
  KMP2_kernel : MF -> Ext World Q;                  (* [KMP2(mf).kernel()[0]] *)
  mo_hcore : MF -> Ext World Hcore;                 (* hcore in the MO basis *)
  (* [mf.with_df.ao2mo(eri_mos, eri_kpts, compact=False).reshape(...)] for
     the orbitals and k-points at the given indices, reshaped to
     [(num_spatial_orbs,)*4] *)
  df_ao2mo : MF -> list Z -> Z -> Ext World (list Elem);
  hcore_shape_last : Hcore -> Z;                  (* [hcore.shape[-1]] *)

  (* openfermion.resource_estimates.pbc *)
  build_momentum_transfer_mapping : Cell -> list Kpt -> Ext World (list (list Z));
  solve_kmeans_kpisdf : MF -> Z -> Ext World KptTHC;
  chi : KptTHC -> Chi;
  zeta : KptTHC -> Zeta;
  KPTHCHelperDoubleTranslation : Chi -> Zeta -> MF -> Ext World Helper;
  get_eri : Helper -> list Z -> Ext World (list Elem);
  get_eri_exact : Helper -> list Z -> Ext World (list Elem);
  build_cc_inst : MF -> Ext World CCInst;
  ao2mo : CCInst -> Ext World Eris;
  init_amps : CCInst -> Eris -> Ext World Q;        (* first component *)
  compute_emp2_approx : MF -> Helper -> Ext World Q;
  compute_lambda : Hcore -> Helper -> Ext World Lambda;
  lambda_total : Lambda -> Q                      (* [thc_lambda.lambda_total] *)
}.

(** ** Session state *)

(** Calls into the libraries, in the order they are made. *)
Inductive Event : Type :=
| EvBuildCell (basis : string) (mesh : list Z)
| EvMakeKpts
| EvSCF
| EvKMP2
| EvHcore
| EvDfAo2mo
| EvMomentumMap
| EvBuildCC
| EvAo2mo
| EvInitAmps
| EvSeed (n : Z)
| EvSolve (num_thc : Z)
| EvHelper
| EvGetEri
| EvGetEriExact
| EvEmp2Approx
| EvLambda.

(** Lines printed by the cells, by their values. *)
Inductive Line : Type :=
| PrSCF (e : Q)
| PrKeys
| PrMeshMP2 (mesh : Z) (ecorr : Q)
| PrBasisMP2 (basis : string) (ecorr : Q)
| PrRunningMesh (mesh cthc : Z)
| PrRunningBasis (basis : string) (cthc : Z)
| PrFFTDF (emp2_exact : Q)
| PrError (cthc : Z) (emp2_error lam : Q)
| PrBelow (emp2_error lam : Q).

Section Session.

Context {L : Lib}.

Record State : Type := mkState {
  world : World;                          (* the state of the libraries *)
  log : list Event;                       (* library calls made so far *)
  delta_eri : list Q;
  delta_mp2 : list Q;
  results : list (Z * list Q);            (* dict, in insertion order *)
  basis_results : list (string * list Q); (* dict, in insertion order *)
  figure : list (list Z * list Q);        (* curves of the current axes *)
  stdout : list Line
}.

Definition set_world (g : World) (s : State) : State :=
  mkState g (log s) (delta_eri s) (delta_mp2 s) (results s)
          (basis_results s) (figure s) (stdout s).
Definition add_log (e : Event) (s : State) : State :=
  mkState (world s) (log s ++ [e]) (delta_eri s) (delta_mp2 s) (results s)
          (basis_results s) (figure s) (stdout s).
Definition set_delta_eri (v : list Q) (s : State) : State :=
  mkState (world s) (log s) v (delta_mp2 s) (results s)
          (basis_results s) (figure s) (stdout s).
Definition set_delta_mp2 (v : list Q) (s : State) : State :=
  mkState (world s) (log s) (delta_eri s) v (results s)
          (basis_results s) (figure s) (stdout s).
Definition set_results (v : list (Z * list Q)) (s : State) : State :=
  mkState (world s) (log s) (delta_eri s) (delta_mp2 s) v
          (basis_results s) (figure s) (stdout s).
Definition set_basis_results (v : list (string * list Q)) (s : State)
  : State :=
  mkState (world s) (log s) (delta_eri s) (delta_mp2 s) (results s)
          v (figure s) (stdout s).
Definition set_figure (v : list (list Z * list Q)) (s : State) : State :=
  mkState (world s) (log s) (delta_eri s) (delta_mp2 s) (results s)
          (basis_results s) v (stdout s).
Definition add_stdout (l : Line) (s : State) : State :=
  mkState (world s) (log s) (delta_eri s) (delta_mp2 s) (results s)
          (basis_results s) (figure s) (stdout s ++ [l]).

(** The monad of a cell. *)
Definition M (A : Type) : Type := State -> res A * State.

Definition ret {A} (a : A) : M A := fun s => (Ok a, s).

Definition bind {A B} (m : M A) (k : A -> M B) : M B :=
  fun s => match m s with
           | (Ok a, s') => k a s'
           | (Raise e, s') => (Raise e, s')
           end.

Definition raise {A} (e : exn) : M A := fun s => (Raise e, s).

Definition lift {A} (r : res A) : M A := fun s => (r, s).

Definition modify (f : State -> State) : M unit := fun s => (Ok tt, f s).

Definition gets {A} (f : State -> A) : M A := fun s => (Ok (f s), s).

(** A call into a library: logged, then run on the state of the
    libraries, which keeps what the routine did to it also when the
    routine raises. *)
Definition call {A} (ev : Event) (f : Ext World A) : M A :=
  fun s => let s1 := add_log ev s in
           let (r, g) := f (world s1) in (r, set_world g s1).

End Session.

Declare Scope cell_scope.
Delimit Scope cell_scope with cell.
Notation "x <- m ;; k" := (bind m (fun x => k))
  (at level 61, m at next level, right associativity) : cell_scope.
Notation "m ;; k" := (bind m (fun _ => k))
  (at level 61, right associativity) : cell_scope.

Local Open Scope cell_scope.

(** ** The cells *)

Section Cells.

Context {L : Lib}.

(** [for x in xs: body] *)
Fixpoint for_ {A} (xs : list A) (body : A -> M unit) : M unit :=
  match xs with
  | [] => ret tt
  | x :: xs' => body x ;; for_ xs' body
  end.

Definition print (l : Line) : M unit := modify (add_stdout l).

(** [plt.plot(xs, ys, ...)]: matplotlib refuses curves whose
    coordinates differ in number. *)
Definition plt_plot (xs : list Z) (ys : list Q) : M unit :=
  if Nat.eqb (length xs) (length ys)
  then modify (fun s => set_figure (figure s ++ [(xs, ys)]) s)
  else raise ValueError.

(** Python dicts, in insertion order. *)
Fixpoint dict_get {K V} (eqb : K -> K -> bool) (k : K) (d : list (K * V))
  : option V :=
  match d with
  | [] => None
  | (k', v) :: d' => if eqb k k' then Some v else dict_get eqb k d'
  end.

Fixpoint dict_set {K V} (eqb : K -> K -> bool) (k : K) (v : V)
         (d : list (K * V)) : list (K * V) :=
  match d with
  | [] => [(k, v)]
  | (k', v') :: d' =>
      if eqb k k' then (k, v) :: d' else (k', v') :: dict_set eqb k v d'
  end.

(** [results[mesh].append(x)] *)
Definition results_append (mesh : Z) (x : Q) : M unit :=
  fun s => match dict_get Z.eqb mesh (results s) with
           | Some l =>
               (Ok tt, set_results (dict_set Z.eqb mesh (l ++ [x]) (results s)) s)
           | None => (Raise KeyError, s)
           end.

(** [basis_results[basis].append(x)] *)
Definition basis_results_append (basis : string) (x : Q) : M unit :=
  fun s => match dict_get String.eqb basis (basis_results s) with
           | Some l =>
               (Ok tt, set_basis_results
                         (dict_set String.eqb basis (l ++ [x]) (basis_results s)) s)
           | None => (Raise KeyError, s)
           end.

(** [np.random.seed(n)] *)
Definition seed (n : Z) : M unit :=
  modify (fun s =>
            set_world (np_random_seed n (world s)) (add_log (EvSeed n) s)).

(** *** Cell 2: the cell and its mean field *)

Definition kmesh : list Z := [1; 1; 3].

(** Variables that cell 2 defines. *)
Record Setup : Type := mkSetup {
  su_cell : Cell;            (* [cell] *)
  su_kpts : list Kpt;        (* [kpts] *)
  su_num_kpts : Z;           (* [num_kpts = len(kpts)] *)
  su_mf : MF                 (* [mf] *)
}.

Definition cell2 : M Setup :=
  cell <- call (EvBuildCell "gth-szv" [11; 11; 11])
               (build_cell "gth-szv" None [11; 11; 11]) ;;
  kpts <- call EvMakeKpts (make_kpts cell kmesh) ;;
  let num_kpts := Z.of_nat (length kpts) in
  mf <- call EvSCF (KRHF_kernel cell kpts) ;;
  print (PrSCF (e_tot mf)) ;;
  ret (mkSetup cell kpts num_kpts mf).

(** *** Cell 4: the factorisation on the whole real-space grid *)

Definition cell4 (su : Setup) : M KptTHC :=
  let num_thc := Np.prod (cell_mesh (su_cell su)) in
  kpt_thc <- call (EvSolve num_thc) (solve_kmeans_kpisdf (su_mf su) num_thc) ;;
  print PrKeys ;;
  ret kpt_thc.

(** Variables that cells 2 and 6 define and later cells read. *)
Record Globals : Type := mkGlobals {
  g_mf : MF;                 (* [mf] *)
  g_num_kpts : Z;            (* [num_kpts = len(kpts)] *)
  g_num_spatial_orbs : Z;    (* [num_spatial_orbs] *)
  g_eri_kindices : list Z    (* [eri_kindices] *)
}.

(** *** Cell 6: the check of the factorisation *)

Definition cell6 (su : Setup) (kpt_thc : KptTHC) : M Globals :=
  let mf := su_mf su in
  momentum_map <-
    call EvMomentumMap
         (build_momentum_transfer_mapping (su_cell su) (su_kpts su)) ;;
  let num_spatial_orbs := mo_coeff_shape_last mf in
  let Q_indx := 1%nat in
  let k_indx := 1%nat in
  let k_prime_indx := 0%nat in
  k_minus_Q_indx <- lift (Np.index2 momentum_map Q_indx k_indx) ;;
  k_prime_minus_Q_indx <- lift (Np.index2 momentum_map Q_indx k_prime_indx) ;;
  let eri_kindices :=
    [Z.of_nat k_indx; k_minus_Q_indx; k_prime_minus_Q_indx;
     Z.of_nat k_prime_indx] in
  eri_exact <- call EvDfAo2mo (df_ao2mo mf eri_kindices num_spatial_orbs) ;;
  kthc_eri_helper <-
    call EvHelper
         (KPTHCHelperDoubleTranslation (chi kpt_thc) (zeta kpt_thc) mf) ;;
  eri_thc <- call EvGetEri (get_eri kthc_eri_helper eri_kindices) ;;
  close <- lift (Np.allclose elem_sub elem_abs eri_thc eri_exact) ;;
  if close : bool
  then ret (mkGlobals mf (su_num_kpts su) num_spatial_orbs eri_kindices)
  else raise AssertionError.

(** *** Cell 8: integral and MP2 error against the THC rank *)

(** [np.max(np.abs(eri_thc - eri_exact))] *)
Definition max_abs_diff (eri_thc eri_exact : list Elem) : res Q :=
  match Np.broadcast elem_sub eri_thc eri_exact with
  | Ok diff => Np.max (Np.abs elem_abs diff)
  | Raise e => Raise e
  end.

(** The body of [for cthc in thc_ranks]. *)
Definition cell8_body (g : Globals) (emp2_exact : Q) (cthc : Z) : M unit :=
  let num_thc := Np.int64_mul cthc (g_num_spatial_orbs g) in
  kpt_thc <- call (EvSolve num_thc) (solve_kmeans_kpisdf (g_mf g) num_thc) ;;
  kthc_eri_helper <-
    call EvHelper
         (KPTHCHelperDoubleTranslation (chi kpt_thc) (zeta kpt_thc) (g_mf g)) ;;
  eri_thc <- call EvGetEri (get_eri kthc_eri_helper (g_eri_kindices g)) ;;
  eri_exact <-
    call EvGetEriExact (get_eri_exact kthc_eri_helper (g_eri_kindices g)) ;;
  m <- lift (max_abs_diff eri_thc eri_exact) ;;
  modify (fun s =>
            set_delta_eri (delta_eri s ++ [(m / inject_Z (g_num_kpts g))%Q]) s) ;;
  emp2_approx <-
    call EvEmp2Approx (compute_emp2_approx (g_mf g) kthc_eri_helper) ;;
  modify (fun s =>
            set_delta_mp2 (delta_mp2 s ++ [(emp2_exact - emp2_approx)%Q]) s).

Definition cell8_sweep (g : Globals) (emp2_exact : Q) (thc_ranks : list Z)
  : M unit :=
  for_ thc_ranks (cell8_body g emp2_exact).

Definition thc_ranks : list Z := Np.arange 2 20 2.

Definition cell8 (g : Globals) : M unit :=
  cc_inst <- call EvBuildCC (build_cc_inst (g_mf g)) ;;
  eri_exact <- call EvAo2mo (ao2mo cc_inst) ;;
  emp2_exact <- call EvInitAmps (init_amps cc_inst eri_exact) ;;
  let emp2_exact := (emp2_exact + e_tot (g_mf g))%Q in
  modify (set_delta_eri []) ;;
  modify (set_delta_mp2 []) ;;
  cell8_sweep g emp2_exact thc_ranks.

(** *** Cells 10 and 12: the two curves *)

Definition cell10 : M unit :=
  ys <- gets delta_eri ;;
  plt_plot thc_ranks ys.

Definition cell12 : M unit :=
  modify (set_figure []) ;;
  ys <- gets delta_mp2 ;;
  plt_plot thc_ranks (Np.abs Qabs ys).

(** *** Cell 15: the share of the real-space grid

    [100*np.array(thc_ranks)*num_spatial_orbs/(11**3)]: two [np.int64]
    products, then a true division. *)
Definition cell15_percent (num_spatial_orbs cthc : Z) : Q :=
  (inject_Z (Np.int64_mul (Np.int64_mul 100 cthc) num_spatial_orbs)
   / inject_Z (11 ^ 3))%Q.

Definition cell15 (num_spatial_orbs : Z) : M unit :=
  plt_plot thc_ranks (map (cell15_percent num_spatial_orbs) thc_ranks).

(** *** Cell 17: effect of the mesh density *)

Definition cell17_body (num_spatial_orbs : Z) (mf : MF) (emp2_exact : Q)
           (mesh cthc : Z) : M unit :=
  print (PrRunningMesh mesh cthc) ;;
  let num_thc := Np.int64_mul cthc num_spatial_orbs in
  kpt_thc <- call (EvSolve num_thc) (solve_kmeans_kpisdf mf num_thc) ;;
  kthc_eri_helper <-
    call EvHelper (KPTHCHelperDoubleTranslation (chi kpt_thc) (zeta kpt_thc) mf) ;;
  emp2_approx <- call EvEmp2Approx (compute_emp2_approx mf kthc_eri_helper) ;;
  results_append mesh (emp2_exact - emp2_approx)%Q.

Definition cell17_sweep (num_spatial_orbs : Z) (mf : MF) (emp2_exact : Q)
           (mesh : Z) (thc_ranks : list Z) : M unit :=
  for_ thc_ranks (cell17_body num_spatial_orbs mf emp2_exact mesh).

(** The body of [for mesh in list(results.keys())]. *)
Definition cell17_mesh (num_spatial_orbs : Z) (mesh : Z) : M unit :=
  cell <- call (EvBuildCell "gth-szv" [mesh; mesh; mesh])
               (build_cell "gth-szv" None [mesh; mesh; mesh]) ;;
  kpts <- call EvMakeKpts (make_kpts cell kmesh) ;;
  mf <- call EvSCF (KRHF_kernel cell kpts) ;;
  print (PrSCF (e_tot mf)) ;;
  e <- call EvKMP2 (KMP2_kernel mf) ;;
  let emp2_exact := (e + e_tot mf)%Q in
  print (PrMeshMP2 mesh (emp2_exact - e_tot mf)%Q) ;;
  cell17_sweep num_spatial_orbs mf emp2_exact mesh thc_ranks ;;
  ys <- gets (fun s => dict_get Z.eqb mesh (results s)) ;;
  match ys with
  | Some ys => plt_plot thc_ranks (Np.abs Qabs ys)
  | None => raise KeyError
  end.

Definition cell17_meshes : list Z := [11; 15; 19; 21; 28].

Definition cell17 (num_spatial_orbs : Z) : M unit :=
  modify (set_results (map (fun m => (m, [])) cell17_meshes)) ;;
  keys <- gets (fun s => map fst (results s)) ;;
  for_ keys (cell17_mesh num_spatial_orbs).

(** *** Cell 19: effect of the basis set *)

Definition cell19_body (num_spatial_orbs : Z) (mf : MF) (emp2_exact : Q)
           (basis : string) (cthc : Z) : M unit :=
  print (PrRunningBasis basis cthc) ;;
  let num_thc := Np.int64_mul cthc num_spatial_orbs in
  kpt_thc <- call (EvSolve num_thc) (solve_kmeans_kpisdf mf num_thc) ;;
  kthc_eri_helper <-
    call EvHelper (KPTHCHelperDoubleTranslation (chi kpt_thc) (zeta kpt_thc) mf) ;;
  emp2_approx <- call EvEmp2Approx (compute_emp2_approx mf kthc_eri_helper) ;;
  basis_results_append basis (emp2_exact - emp2_approx)%Q.

Definition cell19_sweep (num_spatial_orbs : Z) (mf : MF) (emp2_exact : Q)
           (basis : string) (thc_ranks : list Z) : M unit :=
  for_ thc_ranks (cell19_body num_spatial_orbs mf emp2_exact basis).

(** The body of [for basis in list(basis_results.keys())]. *)
Definition cell19_basis (basis : string) : M unit :=
  cell <- call (EvBuildCell basis [15; 15; 15])
               (build_cell basis (Some (1 # 10)%Q) [15; 15; 15]) ;;
  kpts <- call EvMakeKpts (make_kpts cell kmesh) ;;
  mf <- call EvSCF (KRHF_kernel cell kpts) ;;
  print (PrSCF (e_tot mf)) ;;
  let num_spatial_orbs := mo_coeff_shape_last mf in
  e <- call EvKMP2 (KMP2_kernel mf) ;;
  let emp2_exact := (e + e_tot mf)%Q in
  print (PrBasisMP2 basis (emp2_exact - e_tot mf)%Q) ;;
  cell19_sweep num_spatial_orbs mf emp2_exact basis thc_ranks ;;
  ys <- gets (fun s => dict_get String.eqb basis (basis_results s)) ;;
  match ys with
  | Some ys =>
      plt_plot (map (fun c => Np.int64_mul c num_spatial_orbs) thc_ranks)
               (Np.abs Qabs ys)
  | None => raise KeyError
  end.

Definition cell19_bases : list string := ["gth-szv"; "gth-dzvp"; "gth-tzvp"]%string.

Definition cell19 : M unit :=
  modify (set_basis_results (map (fun b => (b, [])) cell19_bases)) ;;
  keys <- gets (fun s => map fst (basis_results s)) ;;
  for_ keys cell19_basis.

(** *** Cell 20: the curves of cell 19 against the rank parameter *)

(** The body of [for basis in list(basis_results.keys())]. *)
Definition cell20_basis (basis : string) : M unit :=
  ys <- gets (fun s => dict_get String.eqb basis (basis_results s)) ;;
  match ys with
  | Some ys => plt_plot thc_ranks (Np.abs Qabs ys)
  | None => raise KeyError
  end.

Definition cell20 : M unit :=
  keys <- gets (fun s => map fst (basis_results s)) ;;
  for_ keys cell20_basis.

(** *** Cell 22: MP2 error and lambda against the THC rank *)

Definition cell22_body (mf : MF) (hcore : Hcore) (num_spatial_orbs : Z)
           (emp2_exact : Q) (cthc : Z) : M unit :=
  let num_thc := Np.int64_mul cthc num_spatial_orbs in
  kpt_thc <- call (EvSolve num_thc) (solve_kmeans_kpisdf mf num_thc) ;;
  kthc_eri_helper <-
    call EvHelper (KPTHCHelperDoubleTranslation (chi kpt_thc) (zeta kpt_thc) mf) ;;
  thc_lambda <- call EvLambda (compute_lambda hcore kthc_eri_helper) ;;
  e <- call EvEmp2Approx (compute_emp2_approx mf kthc_eri_helper) ;;
  let emp2_approx := (e - e_tot mf)%Q in
  let emp2_error := Qabs (emp2_approx - emp2_exact) in
  print (PrError cthc emp2_error (lambda_total thc_lambda)) ;;
  if Qlt_le_dec emp2_error (1 # 10000)
  then print (PrBelow emp2_error (lambda_total thc_lambda))
  else ret tt.

Definition cell22_sweep (mf : MF) (hcore : Hcore) (num_spatial_orbs : Z)
           (emp2_exact : Q) (thc_ranks : list Z) : M unit :=
  for_ thc_ranks (cell22_body mf hcore num_spatial_orbs emp2_exact).

(** The cell from [np.random.seed(7)] on. *)
Definition cell22_seeded (mf : MF) (hcore : Hcore) (num_spatial_orbs : Z)
           (emp2_exact : Q) (thc_ranks : list Z) : M unit :=
  seed 7 ;;
  print (PrFFTDF emp2_exact) ;;
  cell22_sweep mf hcore num_spatial_orbs emp2_exact thc_ranks.

Definition cell22 : M unit :=
  cell <- call (EvBuildCell "gth-dzv" [15; 15; 15])
               (build_cell "gth-dzv" None [15; 15; 15]) ;;
  kpts <- call EvMakeKpts (make_kpts cell kmesh) ;;
  mf <- call EvSCF (KRHF_kernel cell kpts) ;;
  print (PrSCF (e_tot mf)) ;;
  hcore <- call EvHcore (mo_hcore mf) ;;
  let num_spatial_orbs := hcore_shape_last hcore in
  cc_inst <- call EvBuildCC (build_cc_inst mf) ;;
  eri_exact <- call EvAo2mo (ao2mo cc_inst) ;;
  emp2_exact <- call EvInitAmps (init_amps cc_inst eri_exact) ;;
  cell22_seeded mf hcore num_spatial_orbs emp2_exact thc_ranks.

(** *** The cells in the order of the notebook

    Cell 24 runs one re-optimisation and is left out. Cells 15 and 17
    read the [num_spatial_orbs] of cell 6. *)
Definition notebook : M unit :=
  su <- cell2 ;;
  kpt_thc <- cell4 su ;;
  g <- cell6 su kpt_thc ;;
  cell8 g ;;
  cell10 ;;
  cell12 ;;
  cell15 (g_num_spatial_orbs g) ;;
  cell17 (g_num_spatial_orbs g) ;;
  cell19 ;;
  cell20 ;;
  cell22.

End Cells.

(** ** Vocabulary of the properties *)

Section Vocabulary.

Context {L : Lib}.

(** [sweep_run body rec xs s ds s']: the sweep over [xs] runs from [s]
    to [s'] without raising, and the step for the i-th element of [xs]
    appends the i-th element of [ds], and nothing else, to the record
    [rec]. *)
Inductive sweep_run {A} (body : A -> M unit) (rec : State -> list Q)
  : list A -> State -> list Q -> State -> Prop :=
| sweep_nil s : sweep_run body rec [] s [] s
| sweep_cons x xs s s1 d ds s' :
    body x s = (Ok tt, s1) ->
    rec s1 = rec s ++ [d] ->
    sweep_run body rec xs s1 ds s' ->
    sweep_run body rec (x :: xs) s (d :: ds) s'.

(** The list stored under [mesh] in [results] ([[]] when absent). *)
Definition results_at (mesh : Z) (s : State) : list Q :=
  match dict_get Z.eqb mesh (results s) with
  | Some l => l
  | None => []
  end.

(** The list stored under [basis] in [basis_results]. *)
Definition basis_results_at (basis : string) (s : State) : list Q :=
  match dict_get String.eqb basis (basis_results s) with
  | Some l => l
  | None => []
  end.

(** The numbers of interpolation points requested from
    [solve_kmeans_kpisdf], in the order of the requests. *)
Definition solve_requests (l : list Event) : list Z :=
  flat_map (fun ev => match ev with EvSolve n => [n] | _ => [] end) l.

(** The routine returns on every state of the libraries. *)
Definition never_raises {A} (f : Ext World A) : Prop :=
  forall g, exists a g', f g = (Ok a, g').

(** What the library returned in one step of the sweep of cell 8. *)
Record Step8 : Type := mkStep8 {
  eri_thc : list Elem;
  eri_exact : list Elem;
  emp2_approx : Q
}.

(** The library calls of one step of cell 8, from the library state
    [g0] to [g5]. *)
Definition cell8_calls (g : Globals) (cthc : Z) (g0 : World) (st : Step8)
           (g5 : World) : Prop :=
  exists kpt_thc helper g1 g2 g3 g4,
    solve_kmeans_kpisdf (g_mf g)
      (Np.int64_mul cthc (g_num_spatial_orbs g)) g0 = (Ok kpt_thc, g1) /\
    KPTHCHelperDoubleTranslation (chi kpt_thc) (zeta kpt_thc) (g_mf g) g1
      = (Ok helper, g2) /\
    get_eri helper (g_eri_kindices g) g2 = (Ok (eri_thc st), g3) /\
    get_eri_exact helper (g_eri_kindices g) g3 = (Ok (eri_exact st), g4) /\
    compute_emp2_approx (g_mf g) helper g4 = (Ok (emp2_approx st), g5).

(** The library calls of one step of the sweeps of cells 17 and 19:
    the approximate MP2 energy [e]. *)
Definition mp2_calls (mf : MF) (num_spatial_orbs cthc : Z) (g0 : World)
           (e : Q) (g3 : World) : Prop :=
  exists kpt_thc helper g1 g2,
    solve_kmeans_kpisdf mf (Np.int64_mul cthc num_spatial_orbs) g0
      = (Ok kpt_thc, g1) /\
    KPTHCHelperDoubleTranslation (chi kpt_thc) (zeta kpt_thc) mf g1
      = (Ok helper, g2) /\
    compute_emp2_approx mf helper g2 = (Ok e, g3).

(** The library calls of one step of the sweep of cell 22: the
    approximate MP2 energy [e] and lambda. *)
Definition cell22_calls (mf : MF) (hcore : Hcore) (num_spatial_orbs cthc : Z)
           (g0 : World) (e lam : Q) (g4 : World) : Prop :=
  exists kpt_thc helper thc_lambda g1 g2 g3,
    solve_kmeans_kpisdf mf (Np.int64_mul cthc num_spatial_orbs) g0
      = (Ok kpt_thc, g1) /\
    KPTHCHelperDoubleTranslation (chi kpt_thc) (zeta kpt_thc) mf g1
      = (Ok helper, g2) /\
    compute_lambda hcore helper g2 = (Ok thc_lambda, g3) /\
    compute_emp2_approx mf helper g3 = (Ok e, g4) /\
    lam = lambda_total thc_lambda.

(** The lines a step of cell 22 prints. *)
Definition cell22_lines (emp2_exact e_mf e lam : Q) (c : Z) : list Line :=
  let emp2_error := Qabs (e - e_mf - emp2_exact) in
  PrError c emp2_error lam ::
  (if Qlt_le_dec emp2_error (1 # 10000) then [PrBelow emp2_error lam] else []).

(** The routines of a step of cells 17 and 19 return. *)
Definition mp2_lib_total (mf : MF) : Prop :=
  (forall n, never_raises (solve_kmeans_kpisdf mf n)) /\
  (forall c z, never_raises (KPTHCHelperDoubleTranslation c z mf)) /\
  (forall h, never_raises (compute_emp2_approx mf h)).

(** The routines of a step of cell 8 return, and the two tensors they
    give have one and the same non-zero size. *)
Definition cell8_lib_total (g : Globals) : Prop :=
  mp2_lib_total (g_mf g) /\
  (forall h, never_raises (get_eri h (g_eri_kindices g))) /\
  (forall h, never_raises (get_eri_exact h (g_eri_kindices g))) /\
  (forall h g0 g1 g2 g3 t x,
      get_eri h (g_eri_kindices g) g0 = (Ok t, g1) ->
      get_eri_exact h (g_eri_kindices g) g2 = (Ok x, g3) ->
      length t = length x /\ t <> []).

(** Every run of [m], completed or not, relates the state it starts
    from to the state it leaves. *)
Definition respects (R : State -> State -> Prop) {A} (m : M A) : Prop :=
  forall s r s', m s = (r, s') -> R s s'.

(** The integral deviations stored in [delta_eri] and the values of the
    curves on the axes are non-negative. *)
Definition nonneg_records (s : State) : Prop :=
  Forall (fun d => (0 <= d)%Q) (delta_eri s) /\
  Forall (fun curve => Forall (fun y => (0 <= y)%Q) (snd curve)) (figure s).

(** A run from [s] to [s'] keeps the signs of the records. *)
Definition keeps (s s' : State) : Prop :=
  nonneg_records s -> nonneg_records s'.

(** Computations of a reference result: the reference MP2 energy
    ([init_amps] in cell 8, [KMP2(mf).kernel()] in cells 17 and 19), and
    the exact integral tensor ([get_eri_exact]). *)
Definition is_energy_reference (ev : Event) : bool :=
  match ev with
  | EvInitAmps | EvKMP2 => true
  | _ => false
  end.

Definition is_tensor_reference (ev : Event) : bool :=
  match ev with
  | EvGetEriExact => true
  | _ => false
  end.

Definition count_events (p : Event -> bool) (l : list Event) : nat :=
  length (filter p l).

(** The library calls of a step of cell 8, and of cells 17 and 19. *)
Definition cell8_step_events (num_spatial_orbs cthc : Z) : list Event :=
  [EvSolve (Np.int64_mul cthc num_spatial_orbs); EvHelper; EvGetEri;
   EvGetEriExact; EvEmp2Approx].

Definition mp2_step_events (num_spatial_orbs cthc : Z) : list Event :=
  [EvSolve (Np.int64_mul cthc num_spatial_orbs); EvHelper; EvEmp2Approx].

(** The library routines that cell 17 calls outside its rank sweep
    return. *)
Definition cell17_lib_total : Prop :=
  (forall mesh, never_raises (build_cell "gth-szv" None [mesh; mesh; mesh])) /\
  (forall c, never_raises (make_kpts c kmesh)) /\
  (forall c k, never_raises (KRHF_kernel c k)) /\
  (forall mf, never_raises (KMP2_kernel mf)).

(** The library calls of a step of cell 22, of one mesh of cell 17 and
    of one basis of cell 19 (with the number of orbitals of its mean
    field), and those of the whole notebook: [n4] points requested in
    cell 4, [nso] orbitals in cells 8 and 17, [nsos] in the bases of
    cell 19 and [nso22] in cell 22. *)
Definition cell22_step_events (num_spatial_orbs cthc : Z) : list Event :=
  [EvSolve (Np.int64_mul cthc num_spatial_orbs); EvHelper; EvLambda;
   EvEmp2Approx].

Definition cell17_mesh_events (num_spatial_orbs mesh : Z) : list Event :=
  [EvBuildCell "gth-szv" [mesh; mesh; mesh]; EvMakeKpts; EvSCF; EvKMP2] ++
  flat_map (mp2_step_events num_spatial_orbs) thc_ranks.

Definition cell19_basis_events (bn : string * Z) : list Event :=
  [EvBuildCell (fst bn) [15; 15; 15]; EvMakeKpts; EvSCF; EvKMP2] ++
  flat_map (mp2_step_events (snd bn)) thc_ranks.

Definition cell22_events (nso22 : Z) : list Event :=
  [EvBuildCell "gth-dzv" [15; 15; 15]; EvMakeKpts; EvSCF; EvHcore;
   EvBuildCC; EvAo2mo; EvInitAmps; EvSeed 7] ++
  flat_map (cell22_step_events nso22) thc_ranks.

Definition notebook_events (n4 nso : Z) (nsos : list Z) (nso22 : Z)
  : list Event :=
  [EvBuildCell "gth-szv" [11; 11; 11]; EvMakeKpts; EvSCF] ++
  [EvSolve n4] ++
  [EvMomentumMap; EvDfAo2mo; EvHelper; EvGetEri] ++
  ([EvBuildCC; EvAo2mo; EvInitAmps] ++
   flat_map (cell8_step_events nso) thc_ranks) ++
  flat_map (cell17_mesh_events nso) cell17_meshes ++
  flat_map cell19_basis_events (combine cell19_bases nsos) ++
  cell22_events nso22.

(** The library calls of the steps of a completed sweep over [ranks],
    one after the other: [calls c g x g'] are the calls of the step of
    the rank parameter [c], from the state [g] of the libraries to the
    state [g'], and [x] is what they returned. The calls of a step start
    from the state that the calls of the step before it left. *)
Fixpoint calls_chain {X} (calls : Z -> World -> X -> World -> Prop)
         (ranks : list Z) (g0 : World) (xs : list X) (g' : World) : Prop :=
  match ranks, xs with
  | [], [] => g' = g0
  | c :: ranks', x :: xs' =>
      exists g1, calls c g0 x g1 /\ calls_chain calls ranks' g1 xs' g'
  | _, _ => False
  end.

(** The library calls of a step of cell 22, with the energy and the
    lambda they returned as a pair. *)
Definition cell22_step_calls (mf : MF) (hcore : Hcore)
           (num_spatial_orbs cthc : Z) (g0 : World) (x : Q * Q) (g4 : World)
  : Prop :=
  cell22_calls mf hcore num_spatial_orbs cthc g0 (fst x) (snd x) g4.

(** The deviation that a step of cell 8 stores in [delta_eri], from the
    tensors [st] of the step. *)
Definition eri_deviation (g : Globals) (st : Step8) (d : Q) : Prop :=
  exists m, max_abs_diff (eri_thc st) (eri_exact st) = Ok m /\
            d = (m / inject_Z (g_num_kpts g))%Q.

(** The run of a step from [s], with result [r] and final state [s'],
    asked [solve_kmeans_kpisdf] for the factorisation of [mf] with
    [num_thc] points, on the state of the libraries at the start of the
    step: when the routine raised, the step raised the same exception
    and left the libraries as the routine did; when it returned, the
    helper was built from its [chi] and [zeta], and the step raised what
    the helper raised, if it did. *)
Definition requests_factorisation (mf : MF) (num_thc : Z)
           (s : State) (r : res unit) (s' : State) : Prop :=
  exists r0 g1,
    solve_kmeans_kpisdf mf num_thc (world s) = (r0, g1) /\
    match r0 with
    | Raise x => r = Raise x /\ world s' = g1
    | Ok kpt_thc =>
        exists r1 g2,
          KPTHCHelperDoubleTranslation (chi kpt_thc) (zeta kpt_thc) mf g1
          = (r1, g2) /\
          match r1 with
          | Raise x => r = Raise x /\ world s' = g2
          | Ok _ => True
          end
    end.

(** The library calls of a completed run of cell 8, from the state [g0]
    of the libraries to [g']: the reference energy [e_ref] is
    [init_amps(...)[0] + mf.e_tot], computed before the sweep, whose
    steps returned [sts]. *)
Definition cell8_run_calls (g : Globals) (g0 : World) (e_ref : Q)
           (sts : list Step8) (g' : World) : Prop :=
  exists cc_inst eris e g1 g2 g3,
    build_cc_inst (g_mf g) g0 = (Ok cc_inst, g1) /\
    ao2mo cc_inst g1 = (Ok eris, g2) /\
    init_amps cc_inst eris g2 = (Ok e, g3) /\
    e_ref = (e + e_tot (g_mf g))%Q /\
    calls_chain (cell8_calls g) thc_ranks g3 sts g'.

(** The library calls of a completed iteration of cell 17 for [mesh]:
    the mean field [mf] of the mesh, the reference energy
    [KMP2(mf).kernel()[0] + mf.e_tot] and the approximate energies [l]
    of the sweep, requested with the [num_spatial_orbs] of cell 6. *)
Definition cell17_mesh_calls (num_spatial_orbs mesh : Z) (g0 : World)
           (mf : MF) (e_ref : Q) (l : list Q) (g' : World) : Prop :=
  exists cell kpts e g1 g2 g3 g4,
    build_cell "gth-szv" None [mesh; mesh; mesh] g0 = (Ok cell, g1) /\
    make_kpts cell kmesh g1 = (Ok kpts, g2) /\
    KRHF_kernel cell kpts g2 = (Ok mf, g3) /\
    KMP2_kernel mf g3 = (Ok e, g4) /\
    e_ref = (e + e_tot mf)%Q /\
    calls_chain (mp2_calls mf num_spatial_orbs) thc_ranks g4 l g'.

(** The library calls of a completed iteration of cell 19 for [basis]:
    as for a mesh of cell 17, with the number of orbitals of the mean
    field of the basis. *)
Definition cell19_basis_calls (basis : string) (g0 : World)
           (mf : MF) (e_ref : Q) (l : list Q) (g' : World) : Prop :=
  exists cell kpts e g1 g2 g3 g4,
    build_cell basis (Some (1 # 10)%Q) [15; 15; 15] g0 = (Ok cell, g1) /\
    make_kpts cell kmesh g1 = (Ok kpts, g2) /\
    KRHF_kernel cell kpts g2 = (Ok mf, g3) /\
    KMP2_kernel mf g3 = (Ok e, g4) /\
    e_ref = (e + e_tot mf)%Q /\
    calls_chain (mp2_calls mf (mo_coeff_shape_last mf)) thc_ranks g4 l g'.

(** The library calls of a completed run of cell 22: the reference
    correlation energy [emp2_exact] is [init_amps(...)[0]];
    [np.random.seed(7)] is applied once, to the state that [init_amps]
    left, and the sweep starts from what it gives; the steps request
    their factorisations with [hcore.shape[-1]] orbitals. *)
Definition cell22_run_calls (g0 : World) (mf : MF) (hcore : Hcore)
           (emp2_exact : Q) (vals : list (Q * Q)) (g' : World) : Prop :=
  exists cell kpts cc_inst eris g1 g2 g3 g4 g5 g6 g7,
    build_cell "gth-dzv" None [15; 15; 15] g0 = (Ok cell, g1) /\
    make_kpts cell kmesh g1 = (Ok kpts, g2) /\
    KRHF_kernel cell kpts g2 = (Ok mf, g3) /\
    mo_hcore mf g3 = (Ok hcore, g4) /\
    build_cc_inst mf g4 = (Ok cc_inst, g5) /\
    ao2mo cc_inst g5 = (Ok eris, g6) /\
    init_amps cc_inst eris g6 = (Ok emp2_exact, g7) /\
    calls_chain (cell22_step_calls mf hcore (hcore_shape_last hcore))
                thc_ranks (np_random_seed 7 g7) vals g'.

(** The lines of the steps of cell 22 that returned [vals]. *)
Definition cell22_report_lines (emp2_exact e_mf : Q) (ranks : list Z)
           (vals : list (Q * Q)) : list Line :=
  flat_map (fun cv => cell22_lines emp2_exact e_mf (fst (snd cv))
                                   (snd (snd cv)) (fst cv))
           (combine ranks vals).

End Vocabulary.

(** ** A small library instance

    The state of the libraries is numpy's generator, a counter that
    [np.random.seed(n)] sets to [n].  [solve_kmeans_kpisdf] draws from it (the
    k-means start is random) and raises for the requests listed in
    [bad]; the tensors and energies derived from a factorisation carry
    its draw, except that a factorisation with a thousand points or more
    reproduces the exact tensor. *)

Module Toy.

Definition solve (bad : list Z) (mf : unit) (num_thc : Z) : Ext Z (Z * Z) :=
  fun g => if existsb (Z.eqb num_thc) bad
           then (Raise (LibraryError "kmeans"), g)
           else (Ok (num_thc, g), g + 1).

Definition pure {A} (a : A) : Ext Z A := fun g => (Ok a, g).

Definition lib (bad : list Z) : Lib := {|
  World := Z; Cell := list Z; Kpt := unit; MF := unit;
  Chi := Z; Zeta := Z; KptTHC := Z * Z; Helper := Z * Z;
  CCInst := unit; Eris := unit; Elem := Q; Hcore := unit; Lambda := Q;
  np_random_seed := fun n _ => n;
  elem_sub := Qminus;
  elem_abs := Qabs;
  build_cell := fun _ _ mesh => pure mesh;
  cell_mesh := fun mesh => mesh;
  make_kpts := fun _ _ => pure [tt; tt; tt];
  KRHF_kernel := fun _ _ => pure tt;
  e_tot := fun _ => 0%Q;
  mo_coeff_shape_last := fun _ => 8;
  KMP2_kernel := fun _ => pure 0%Q;
  mo_hcore := fun _ => pure tt;
  df_ao2mo := fun _ _ _ => pure [0%Q; 0%Q];
  build_momentum_transfer_mapping :=
    fun _ _ => pure [[0; 1; 2]; [1; 2; 0]; [2; 0; 1]];
  hcore_shape_last := fun _ => 8;
  solve_kmeans_kpisdf := solve bad;
  chi := fst;
  zeta := snd;
  KPTHCHelperDoubleTranslation := fun c z _ => pure (c, z);
  get_eri := fun h _ =>
    pure (if 1000 <=? fst h then [0%Q; 0%Q] else [inject_Z (snd h + 1); 0%Q]);
  get_eri_exact := fun _ _ => pure [0%Q; 0%Q];
  build_cc_inst := fun _ => pure tt;
  ao2mo := fun _ => pure tt;
  init_amps := fun _ _ => pure 0%Q;
  compute_emp2_approx := fun _ h => pure (inject_Z (snd h + 1));
  compute_lambda := fun _ h => pure (inject_Z (fst h));
  lambda_total := fun l => l
|}.

Definition globals (bad : list Z) : @Globals (lib bad) :=
  @mkGlobals (lib bad) tt 3 8 [1; 0; 1; 0].

Definition init (bad : list Z) (g : Z) : @State (lib bad) :=
  @mkState (lib bad) g [] [] [] [] [] [] [].

(** A state in which [results] has the key 11. *)
Definition init17 (bad : list Z) : @State (lib bad) :=
  @mkState (lib bad) 0 [] [] [] [(11, [])] [] [] [].

(** The small library with no orbitals: both tensors are empty. *)
Definition lib_empty : Lib := {|
  World := @World (lib []);
  Cell := @Cell (lib []);
  Kpt := @Kpt (lib []);
  MF := @MF (lib []);
  Chi := @Chi (lib []);
  Zeta := @Zeta (lib []);
  KptTHC := @KptTHC (lib []);
  Helper := @Helper (lib []);
  CCInst := @CCInst (lib []);
  Eris := @Eris (lib []);
  Elem := @Elem (lib []);
  Hcore := @Hcore (lib []);
  Lambda := @Lambda (lib []);
  np_random_seed := @np_random_seed (lib []);
  elem_sub := @elem_sub (lib []);
  elem_abs := @elem_abs (lib []);
  build_cell := @build_cell (lib []);
  cell_mesh := @cell_mesh (lib []);
  make_kpts := @make_kpts (lib []);
  KRHF_kernel := @KRHF_kernel (lib []);
  e_tot := @e_tot (lib []);
  mo_coeff_shape_last := @mo_coeff_shape_last (lib []);
  KMP2_kernel := @KMP2_kernel (lib []);
  mo_hcore := @mo_hcore (lib []);
  df_ao2mo := @df_ao2mo (lib []);
  hcore_shape_last := @hcore_shape_last (lib []);
  build_momentum_transfer_mapping := @build_momentum_transfer_mapping (lib []);
  solve_kmeans_kpisdf := @solve_kmeans_kpisdf (lib []);
  chi := @chi (lib []);
  zeta := @zeta (lib []);
  KPTHCHelperDoubleTranslation := @KPTHCHelperDoubleTranslation (lib []);
  get_eri := fun _ _ => pure [];
  get_eri_exact := fun _ _ => pure [];
  build_cc_inst := @build_cc_inst (lib []);
  ao2mo := @ao2mo (lib []);
  init_amps := @init_amps (lib []);
  compute_emp2_approx := @compute_emp2_approx (lib []);
  compute_lambda := @compute_lambda (lib []);
  lambda_total := @lambda_total (lib [])
|}.

(** The small library with a factorisation that draws from a source
    which [np.random.seed] does not reset. *)
Definition lib_unseeded : Lib := {|
  World := @World (lib []);
  Cell := @Cell (lib []);
  Kpt := @Kpt (lib []);
  MF := @MF (lib []);
  Chi := @Chi (lib []);
  Zeta := @Zeta (lib []);
  KptTHC := @KptTHC (lib []);
  Helper := @Helper (lib []);
  CCInst := @CCInst (lib []);
  Eris := @Eris (lib []);
  Elem := @Elem (lib []);
  Hcore := @Hcore (lib []);
  Lambda := @Lambda (lib []);
  np_random_seed := fun _ w => w;
  elem_sub := @elem_sub (lib []);
  elem_abs := @elem_abs (lib []);
  build_cell := @build_cell (lib []);
  cell_mesh := @cell_mesh (lib []);
  make_kpts := @make_kpts (lib []);
  KRHF_kernel := @KRHF_kernel (lib []);
  e_tot := @e_tot (lib []);
  mo_coeff_shape_last := @mo_coeff_shape_last (lib []);
  KMP2_kernel := @KMP2_kernel (lib []);
  mo_hcore := @mo_hcore (lib []);
  df_ao2mo := @df_ao2mo (lib []);
  hcore_shape_last := @hcore_shape_last (lib []);
  build_momentum_transfer_mapping := @build_momentum_transfer_mapping (lib []);
  solve_kmeans_kpisdf := @solve_kmeans_kpisdf (lib []);
  chi := @chi (lib []);
  zeta := @zeta (lib []);
  KPTHCHelperDoubleTranslation := @KPTHCHelperDoubleTranslation (lib []);
  get_eri := @get_eri (lib []);
  get_eri_exact := @get_eri_exact (lib []);
  build_cc_inst := @build_cc_inst (lib []);
  ao2mo := @ao2mo (lib []);
  init_amps := @init_amps (lib []);
  compute_emp2_approx := @compute_emp2_approx (lib []);
  compute_lambda := @compute_lambda (lib []);
  lambda_total := @lambda_total (lib [])
|}.

(** The small library with a single k-point. *)
Definition lib_one_kpt : Lib := {|
  World := @World (lib []);
  Cell := @Cell (lib []);
  Kpt := @Kpt (lib []);
  MF := @MF (lib []);
  Chi := @Chi (lib []);
  Zeta := @Zeta (lib []);
  KptTHC := @KptTHC (lib []);
  Helper := @Helper (lib []);
  CCInst := @CCInst (lib []);
  Eris := @Eris (lib []);
  Elem := @Elem (lib []);
  Hcore := @Hcore (lib []);
  Lambda := @Lambda (lib []);
  np_random_seed := @np_random_seed (lib []);
  elem_sub := @elem_sub (lib []);
  elem_abs := @elem_abs (lib []);
  build_cell := @build_cell (lib []);
  cell_mesh := @cell_mesh (lib []);
  make_kpts := fun _ _ => pure [tt];
  KRHF_kernel := @KRHF_kernel (lib []);
  e_tot := @e_tot (lib []);
  mo_coeff_shape_last := @mo_coeff_shape_last (lib []);
  KMP2_kernel := @KMP2_kernel (lib []);
  mo_hcore := @mo_hcore (lib []);
  df_ao2mo := @df_ao2mo (lib []);
  hcore_shape_last := @hcore_shape_last (lib []);
  build_momentum_transfer_mapping := fun _ _ => pure [[0]];
  solve_kmeans_kpisdf := @solve_kmeans_kpisdf (lib []);
  chi := @chi (lib []);
  zeta := @zeta (lib []);
  KPTHCHelperDoubleTranslation := @KPTHCHelperDoubleTranslation (lib []);
  get_eri := @get_eri (lib []);
  get_eri_exact := @get_eri_exact (lib []);
  build_cc_inst := @build_cc_inst (lib []);
  ao2mo := @ao2mo (lib []);
  init_amps := @init_amps (lib []);
  compute_emp2_approx := @compute_emp2_approx (lib []);
  compute_lambda := @compute_lambda (lib []);
  lambda_total := @lambda_total (lib [])
|}.

End Toy.

(** ** Reasoning about cells *)

Section Monad_facts.

Context {L : Lib}.

Lemma bind_inv {A B} (m : M A) (k : A -> M B) s r s' :
  bind m k s = (r, s') ->
  (exists a s1, m s = (Ok a, s1) /\ k a s1 = (r, s')) \/
  (exists e, m s = (Raise e, s') /\ r = Raise e).
Proof.
  unfold bind. destruct (m s) as [[a | e] s1]; intros H.
  - left. eauto.
  - right. inversion H; subst. eauto.
Qed.

Lemma bind_inv_ok {A B} (m : M A) (k : A -> M B) s b s' :
  bind m k s = (Ok b, s') ->
  exists a s1, m s = (Ok a, s1) /\ k a s1 = (Ok b, s').
Proof.
  intros H. destruct (bind_inv _ _ _ _ _ H) as [H1 | [e [_ H1]]];
    [assumption | discriminate].
Qed.

Lemma bind_ok {A B} (m : M A) (k : A -> M B) s a s1 :
  m s = (Ok a, s1) -> bind m k s = k a s1.
Proof. unfold bind. intros ->. reflexivity. Qed.

Lemma bind_raise {A B} (m : M A) (k : A -> M B) s e s1 :
  m s = (Raise e, s1) -> bind m k s = (Raise e, s1).
Proof. unfold bind. intros ->. reflexivity. Qed.

Lemma call_inv {A} ev (f : Ext World A) s r s' :
  call ev f s = (r, s') ->
  exists g', f (world s) = (r, g') /\ s' = set_world g' (add_log ev s).
Proof.
  unfold call. simpl. destruct (f (world s)) as [r0 g'] eqn:E.
  intros H; inversion H; subst. eauto.
Qed.

Lemma bind_print {B} l (k : unit -> M B) s :
  bind (print l) k s = k tt (add_stdout l s).
Proof. reflexivity. Qed.

Lemma bind_gets {A B} (f : State -> A) (k : A -> M B) s :
  bind (gets f) k s = k (f s) s.
Proof. reflexivity. Qed.

Lemma bind_modify {B} f (k : unit -> M B) s :
  bind (modify f) k s = k tt (f s).
Proof. reflexivity. Qed.

Lemma for_cons {A} (x : A) xs body :
  for_ (x :: xs) body = bind (body x) (fun _ => for_ xs body).
Proof. reflexivity. Qed.

(** A sweep over [xs ++ ys] is the sweep over [xs] followed by the
    sweep over [ys]. *)
Lemma for_app {A} (xs ys : list A) body s :
  for_ (xs ++ ys) body s =
  bind (for_ xs body) (fun _ => for_ ys body) s.
Proof.
  revert s. induction xs as [| x xs IH]; intros s.
  - reflexivity.
  - change (for_ ((x :: xs) ++ ys) body s)
      with (bind (body x) (fun _ => for_ (xs ++ ys) body) s).
    change (for_ (x :: xs) body)
      with (bind (body x) (fun _ => for_ xs body)).
    unfold bind. destruct (body x s) as [[[] | e] s1].
    + rewrite IH. reflexivity.
    + reflexivity.
Qed.

(** A relation that every step of a sweep respects is respected by the
    sweep, whether it completes or raises. *)
Lemma for_respects {A} (R : State -> State -> Prop) (body : A -> M unit) :
  (forall s, R s s) ->
  (forall s1 s2 s3, R s1 s2 -> R s2 s3 -> R s1 s3) ->
  (forall x s r s', body x s = (r, s') -> R s s') ->
  forall xs s r s', for_ xs body s = (r, s') -> R s s'.
Proof.
  intros Hrefl Htrans Hbody xs.
  induction xs as [| x xs IH]; intros s r s' H; simpl in H.
  - inversion H; subst. apply Hrefl.
  - destruct (bind_inv _ _ _ _ _ H) as [[a [s1 [H1 H2]]] | [e [H1 _]]].
    + eapply Htrans; [eapply Hbody; eassumption | eapply IH; eassumption].
    + eapply Hbody; eassumption.
Qed.

Lemma for_cons_ok {A} (x : A) xs body s s' :
  for_ (x :: xs) body s = (Ok tt, s') ->
  exists s1, body x s = (Ok tt, s1) /\ for_ xs body s1 = (Ok tt, s').
Proof.
  rewrite for_cons. intros H.
  destruct (bind_inv_ok _ _ _ _ _ H) as [[] [s1 [H1 H2]]]. eauto.
Qed.

(** A completed sweep whose steps append one entry each is a
    [sweep_run]: one entry per element, in the order of the sweep. *)
Lemma for_sweep_run {A} (body : A -> M unit) (rec : State -> list Q) :
  (forall x s s1, body x s = (Ok tt, s1) -> exists d, rec s1 = rec s ++ [d]) ->
  forall xs s s', for_ xs body s = (Ok tt, s') ->
    exists ds, sweep_run body rec xs s ds s' /\
               rec s' = rec s ++ ds /\ length ds = length xs.
Proof.
  intros Hbody xs. induction xs as [| x xs IH]; intros s s' H.
  - simpl in H. inversion H; subst. exists []. split; [constructor |].
    split; [symmetry; apply app_nil_r | reflexivity].
  - destruct (for_cons_ok _ _ _ _ _ H) as [s1 [H1 H2]].
    destruct (Hbody _ _ _ H1) as [d Hd].
    destruct (IH _ _ H2) as [ds [Hrun [Hrec Hlen]]].
    exists (d :: ds). split; [econstructor; eassumption |].
    split.
    + rewrite Hrec, Hd, <- app_assoc. reflexivity.
    + simpl. congruence.
Qed.

(** Whether a sweep completes or raises, a record to which every step
    only appends, at most one entry, is only appended to, by at most
    one entry per element. *)
Lemma for_append_only {A} (body : A -> M unit) (rec : State -> list Q) :
  (forall x s r s1, body x s = (r, s1) ->
     exists ds, rec s1 = rec s ++ ds /\ (length ds <= 1)%nat) ->
  forall xs s r s', for_ xs body s = (r, s') ->
    exists ds, rec s' = rec s ++ ds /\ (length ds <= length xs)%nat.
Proof.
  intros Hbody xs. induction xs as [| x xs IH]; intros s r s' H.
  - simpl in H. inversion H; subst. exists []. split; [symmetry; apply app_nil_r | auto].
  - rewrite for_cons in H.
    destruct (bind_inv _ _ _ _ _ H) as [[a [s1 [H1 H2]]] | [e [H1 _]]].
    + destruct (Hbody _ _ _ _ H1) as [d [Hd Hl]].
      destruct (IH _ _ _ H2) as [ds [Hrec Hlen]].
      exists (d ++ ds). split.
      * rewrite Hrec, Hd, <- app_assoc. reflexivity.
      * rewrite length_app. simpl. lia.
    + destruct (Hbody _ _ _ _ H1) as [d [Hd Hl]].
      exists d. split; [assumption | simpl; lia].
Qed.

(** A relation that every completed step respects is respected by the
    completed sweep. *)
Lemma for_ok_respects {A} (R : State -> State -> Prop) (body : A -> M unit) :
  (forall s, R s s) ->
  (forall s1 s2 s3, R s1 s2 -> R s2 s3 -> R s1 s3) ->
  (forall x s s', body x s = (Ok tt, s') -> R s s') ->
  forall xs s s', for_ xs body s = (Ok tt, s') -> R s s'.
Proof.
  intros Hrefl Htrans Hbody xs.
  induction xs as [| x xs IH]; intros s s' H.
  - inversion H; subst. apply Hrefl.
  - destruct (for_cons_ok _ _ _ _ _ H) as [s1 [H1 H2]].
    eapply Htrans; [eapply Hbody; eassumption | eapply IH; eassumption].
Qed.

(** A sweep whose steps all return returns. *)
Lemma for_total {A} (body : A -> M unit) (I : State -> Prop) :
  (forall x s, I s -> exists s1, body x s = (Ok tt, s1) /\ I s1) ->
  forall xs s, I s -> exists s', for_ xs body s = (Ok tt, s') /\ I s'.
Proof.
  intros Hbody xs. induction xs as [| x xs IH]; intros s Hs.
  - exists s. split; [reflexivity | assumption].
  - destruct (Hbody x s Hs) as [s1 [H1 Hs1]].
    destruct (IH s1 Hs1) as [s' [H2 Hs']].
    exists s'. split; [| assumption].
    rewrite for_cons. rewrite (bind_ok _ _ _ _ _ H1). assumption.
Qed.

End Monad_facts.

(** Case analysis along a run of a cell. *)
Ltac run_inv H :=
  repeat (simpl in H;
          match type of H with
          | context [let (_, _) := ?x in _] =>
              lazymatch x with
              | context [let (_, _) := _ in _] => fail
              | _ => destruct x as [[? | ?] ?] eqn:?
              end
          | context [match ?x with Ok _ => _ | Raise _ => _ end] =>
              destruct x eqn:?
          end);
  simpl in H; try discriminate.

(** The same without closing the raising cases. *)
Ltac run_cases H :=
  repeat (simpl in H;
          match type of H with
          | context [let (_, _) := ?x in _] =>
              lazymatch x with
              | context [let (_, _) := _ in _] => fail
              | _ => destruct x as [[? | ?] ?] eqn:?
              end
          | context [match ?x with Ok _ => _ | Raise _ => _ end] =>
              destruct x eqn:?
          | context [match ?x with Some _ => _ | None => _ end] =>
              destruct x eqn:?
          end);
  simpl in H.

Ltac run_all H :=
  repeat (simpl in H;
          match type of H with
          | context [let (_, _) := ?x in _] =>
              lazymatch x with
              | context [let (_, _) := _ in _] => fail
              | _ => destruct x as [[? | ?] ?] eqn:?
              end
          | context [match ?x with Ok _ => _ | Raise _ => _ end] =>
              destruct x eqn:?
          | context [match ?x with Some _ => _ | None => _ end] =>
              destruct x eqn:?
          end);
  simpl in H; inversion H; subst; clear H; simpl.

Ltac appended :=
  first [ exists []; split; [symmetry; apply app_nil_r | simpl; lia]
        | eexists [_]; split; [reflexivity | simpl; lia] ].

Section Step_facts.

Context {L : Lib}.

Lemma solve_requests_app l1 l2 :
  solve_requests (l1 ++ l2) = solve_requests l1 ++ solve_requests l2.
Proof. apply flat_map_app. Qed.

(** *** Dicts *)

Lemma dict_get_set_same {K V} (eqb : K -> K -> bool) k (v : V) d :
  (forall x, eqb x x = true) ->
  dict_get eqb k (dict_set eqb k v d) = Some v.
Proof.
  intros Hrefl. induction d as [| [k' v'] d IH]; simpl.
  - rewrite Hrefl. reflexivity.
  - destruct (eqb k k') eqn:E; simpl.
    + rewrite Hrefl. reflexivity.
    + rewrite E. assumption.
Qed.

Lemma dict_get_set_other {K V} (eqb : K -> K -> bool) k k' (v : V) d :
  (forall x y, eqb x y = true <-> x = y) ->
  k <> k' ->
  dict_get eqb k' (dict_set eqb k v d) = dict_get eqb k' d.
Proof.
  intros Heq Hne. induction d as [| [k0 v0] d IH]; simpl.
  - destruct (eqb k' k) eqn:E; [| reflexivity].
    apply Heq in E. congruence.
  - destruct (eqb k k0) eqn:E; simpl.
    + apply Heq in E. subst k0.
      destruct (eqb k' k) eqn:E'; [| reflexivity].
      apply Heq in E'. congruence.
    + destruct (eqb k' k0); [reflexivity | assumption].
Qed.

Lemma dict_set_keys {K V} (eqb : K -> K -> bool) k (v v0 : V) d :
  (forall x y, eqb x y = true <-> x = y) ->
  dict_get eqb k d = Some v0 ->
  map fst (dict_set eqb k v d) = map fst d.
Proof.
  intros Heq. induction d as [| [k' v'] d IH]; simpl; intros H.
  - discriminate.
  - destruct (eqb k k') eqn:E; simpl.
    + apply Heq in E. subst. reflexivity.
    + rewrite IH by assumption. reflexivity.
Qed.

Lemma results_at_append mesh x s s' l :
  dict_get Z.eqb mesh (results s) = Some l ->
  results s' = dict_set Z.eqb mesh (l ++ [x]) (results s) ->
  results_at mesh s' = results_at mesh s ++ [x].
Proof.
  intros H H'. unfold results_at. rewrite H'.
  rewrite dict_get_set_same by apply Z.eqb_refl.
  rewrite H. reflexivity.
Qed.

Lemma basis_results_at_append basis x s s' l :
  dict_get String.eqb basis (basis_results s) = Some l ->
  basis_results s' = dict_set String.eqb basis (l ++ [x]) (basis_results s) ->
  basis_results_at basis s' = basis_results_at basis s ++ [x].
Proof.
  intros H H'. unfold basis_results_at. rewrite H'.
  rewrite dict_get_set_same by apply String.eqb_refl.
  rewrite H. reflexivity.
Qed.

(** *** Steps of cell 8 *)

(** A step of cell 8, completed or not: the records are appended to,
    by at most one entry, and one factorisation is requested. *)
Lemma cell8_body_any g e c s r s' :
  cell8_body g e c s = (r, s') ->
  (exists ds, delta_eri s' = delta_eri s ++ ds /\ (length ds <= 1)%nat) /\
  (exists es, delta_mp2 s' = delta_mp2 s ++ es /\ (length es <= 1)%nat) /\
  solve_requests (log s') =
  solve_requests (log s) ++ [Np.int64_mul c (g_num_spatial_orbs g)].
Proof.
  intros H. unfold cell8_body, bind, call, lift, modify in H.
  run_all H;
    (split; [appended | split; [appended |]]);
    rewrite ?solve_requests_app; simpl; rewrite ?app_nil_r; reflexivity.
Qed.

(** A completed step of cell 8. *)
Lemma cell8_body_ok g e c s s' :
  cell8_body g e c s = (Ok tt, s') ->
  exists st m,
    cell8_calls g c (world s) st (world s') /\
    max_abs_diff (eri_thc st) (eri_exact st) = Ok m /\
    delta_eri s' = delta_eri s ++ [(m / inject_Z (g_num_kpts g))%Q] /\
    delta_mp2 s' = delta_mp2 s ++ [(e - emp2_approx st)%Q] /\
    log s' = log s ++ [EvSolve (Np.int64_mul c (g_num_spatial_orbs g));
                       EvHelper; EvGetEri; EvGetEriExact; EvEmp2Approx] /\
    results s' = results s /\ basis_results s' = basis_results s /\
    figure s' = figure s /\ stdout s' = stdout s.
Proof.
  intros H. unfold cell8_body, bind, call, lift, modify in H.
  run_inv H. inversion H; subst; clear H. simpl.
  eexists (mkStep8 _ _ _), _. unfold cell8_calls. simpl.
  repeat rewrite <- app_assoc. simpl.
  split; [do 6 eexists; repeat split; eassumption |].
  repeat split; try reflexivity; eassumption.
Qed.

(** *** Steps of cells 17 and 19 *)

Lemma cell17_body_ok nso mf e mesh c s s' :
  cell17_body nso mf e mesh c s = (Ok tt, s') ->
  exists a,
    mp2_calls mf nso c (world s) a (world s') /\
    results_at mesh s' = results_at mesh s ++ [(e - a)%Q] /\
    log s' = log s ++ [EvSolve (Np.int64_mul c nso); EvHelper; EvEmp2Approx] /\
    stdout s' = stdout s ++ [PrRunningMesh mesh c] /\
    delta_eri s' = delta_eri s /\ delta_mp2 s' = delta_mp2 s /\
    basis_results s' = basis_results s /\ figure s' = figure s.
Proof.
  intros H.
  unfold cell17_body, bind, call, print, modify, results_append in H.
  run_inv H.
  match type of H with
  | context [dict_get ?f ?k ?d] => destruct (dict_get f k d) as [l |] eqn:Hget
  end; [| discriminate].
  inversion H; subst; clear H. eexists. unfold mp2_calls.
  split; [do 4 eexists; repeat split; eassumption |].
  split; [apply (results_at_append mesh _ s _ l); [exact Hget | reflexivity] |].
  simpl. repeat rewrite <- app_assoc. simpl. repeat split; reflexivity.
Qed.

Lemma cell17_body_any nso mf e mesh c s r s' :
  cell17_body nso mf e mesh c s = (r, s') ->
  (exists es, results_at mesh s' = results_at mesh s ++ es /\
              (length es <= 1)%nat) /\
  (forall mesh', mesh' <> mesh -> results_at mesh' s' = results_at mesh' s) /\
  map fst (results s') = map fst (results s) /\
  solve_requests (log s') = solve_requests (log s) ++ [Np.int64_mul c nso].
Proof.
  intros H.
  unfold cell17_body, bind, call, print, modify, results_append in H.
  run_all H;
    repeat rewrite ?solve_requests_app; simpl; rewrite ?app_nil_r;
    try (split; [appended | repeat split; reflexivity]).
  split; [| split; [| split; [| reflexivity]]].
  - eexists [_]. split; [| simpl; lia].
    eapply results_at_append; [eassumption | reflexivity].
  - intros mesh' Hne. unfold results_at. simpl.
    rewrite dict_get_set_other; [reflexivity | apply Z.eqb_eq | congruence].
  - eapply dict_set_keys; [apply Z.eqb_eq | eassumption].
Qed.

Lemma cell19_body_ok nso mf e basis c s s' :
  cell19_body nso mf e basis c s = (Ok tt, s') ->
  exists a,
    mp2_calls mf nso c (world s) a (world s') /\
    basis_results_at basis s' = basis_results_at basis s ++ [(e - a)%Q] /\
    log s' = log s ++ [EvSolve (Np.int64_mul c nso); EvHelper; EvEmp2Approx] /\
    stdout s' = stdout s ++ [PrRunningBasis basis c] /\
    delta_eri s' = delta_eri s /\ delta_mp2 s' = delta_mp2 s /\
    results s' = results s /\ figure s' = figure s.
Proof.
  intros H.
  unfold cell19_body, bind, call, print, modify, basis_results_append in H.
  run_inv H.
  match type of H with
  | context [dict_get ?f ?k ?d] => destruct (dict_get f k d) as [l |] eqn:Hget
  end; [| discriminate].
  inversion H; subst; clear H. eexists. unfold mp2_calls.
  split; [do 4 eexists; repeat split; eassumption |].
  split; [apply (basis_results_at_append basis _ s _ l); [exact Hget | reflexivity] |].
  simpl. repeat rewrite <- app_assoc. simpl. repeat split; reflexivity.
Qed.

Lemma cell19_body_any nso mf e basis c s r s' :
  cell19_body nso mf e basis c s = (r, s') ->
  (exists es, basis_results_at basis s' = basis_results_at basis s ++ es /\
              (length es <= 1)%nat) /\
  solve_requests (log s') = solve_requests (log s) ++ [Np.int64_mul c nso].
Proof.
  intros H.
  unfold cell19_body, bind, call, print, modify, basis_results_append in H.
  run_all H;
    repeat rewrite ?solve_requests_app; simpl; rewrite ?app_nil_r;
    try (split; [appended | reflexivity]).
  split; [| reflexivity].
  eexists [_]. split; [| simpl; lia].
  eapply basis_results_at_append; [eassumption | reflexivity].
Qed.

(** *** Steps of cell 22 *)

Lemma cell22_body_ok mf hcore nso emp2_exact c s s' :
  cell22_body mf hcore nso emp2_exact c s = (Ok tt, s') ->
  exists e lam,
    cell22_calls mf hcore nso c (world s) e lam (world s') /\
    stdout s' = stdout s ++ cell22_lines emp2_exact (e_tot mf) e lam c /\
    log s' = log s ++ [EvSolve (Np.int64_mul c nso); EvHelper; EvLambda;
                       EvEmp2Approx] /\
    delta_eri s' = delta_eri s /\ delta_mp2 s' = delta_mp2 s /\
    results s' = results s /\ basis_results s' = basis_results s /\
    figure s' = figure s.
Proof.
  intros H.
  unfold cell22_body, bind, call, print, modify, ret in H.
  run_inv H. unfold cell22_lines.
  destruct (Qlt_le_dec _ _) eqn:E; inversion H; subst; clear H;
    do 2 eexists; unfold cell22_calls;
    (split; [do 6 eexists; repeat split; eassumption |]);
    simpl; rewrite E; repeat rewrite <- app_assoc; simpl;
    repeat split; reflexivity.
Qed.

Lemma cell22_body_any mf hcore nso emp2_exact c s r s' :
  cell22_body mf hcore nso emp2_exact c s = (r, s') ->
  solve_requests (log s') = solve_requests (log s) ++ [Np.int64_mul c nso].
Proof.
  intros H.
  unfold cell22_body, bind, call, print, modify, ret in H.
  run_cases H; try destruct (Qlt_le_dec _ _);
    inversion H; subst; clear H;
    simpl; repeat rewrite ?solve_requests_app; simpl; rewrite ?app_nil_r;
    reflexivity.
Qed.

End Step_facts.

(** ** Records of the sweeps *)

Section Sweep_records.

Context {L : Lib}.

Lemma zip_with_length {A B C} (f : A -> B -> C) xs ys :
  length xs = length ys -> length (Np.zip_with f xs ys) = length xs.
Proof.
  revert ys. induction xs as [| x xs IH]; intros [| y ys] H; simpl in *;
    try discriminate; auto.
Qed.

Lemma max_abs_diff_ok (t x : list Elem) :
  length t = length x -> t <> [] -> exists m, max_abs_diff t x = Ok m.
Proof.
  intros Hlen Hne. unfold max_abs_diff, Np.broadcast.
  rewrite Hlen, Nat.eqb_refl.
  pose proof (zip_with_length elem_sub t x Hlen) as Hz.
  destruct (Np.zip_with elem_sub t x) as [| d ds] eqn:E.
  - destruct t; [congruence | discriminate].
  - simpl. eauto.
Qed.

(** Cell 8: the two records after a sweep. *)
Lemma cell8_sweep_records g e ranks s r s' :
  cell8_sweep g e ranks s = (r, s') ->
  exists ds es,
    delta_eri s' = delta_eri s ++ ds /\ delta_mp2 s' = delta_mp2 s ++ es /\
    (length ds <= length ranks)%nat /\ (length es <= length ranks)%nat /\
    (r = Ok tt ->
     length ds = length ranks /\ length es = length ranks /\
     sweep_run (cell8_body g e) delta_eri ranks s ds s' /\
     sweep_run (cell8_body g e) delta_mp2 ranks s es s').
Proof.
  intros H. unfold cell8_sweep in H.
  destruct (for_append_only (cell8_body g e) delta_eri) with (1 := fun x s r s1 H => proj1 (cell8_body_any g e x s r s1 H)) (2 := H)
    as [ds [Hds Hlds]].
  destruct (for_append_only (cell8_body g e) delta_mp2) with (1 := fun x s r s1 H => proj1 (proj2 (cell8_body_any g e x s r s1 H))) (2 := H)
    as [es [Hes Hles]].
  exists ds, es. repeat (split; [assumption |]).
  intros ->.
  destruct (for_sweep_run (cell8_body g e) delta_eri) with (2 := H)
    as [ds' [Hrun [Hds' Hl]]].
  { intros x s0 s1 H0. destruct (cell8_body_ok _ _ _ _ _ H0)
      as (st & m & _ & _ & Hd & _). eauto. }
  destruct (for_sweep_run (cell8_body g e) delta_mp2) with (2 := H)
    as [es' [Hrun' [Hes' Hl']]].
  { intros x s0 s1 H0. destruct (cell8_body_ok _ _ _ _ _ H0)
      as (st & m & _ & _ & _ & Hd & _). eauto. }
  assert (ds' = ds) by (apply (app_inv_head (delta_eri s)); congruence).
  assert (es' = es) by (apply (app_inv_head (delta_mp2 s)); congruence).
  subst. auto.
Qed.

(** Cell 8: with a library that returns, the sweep completes. *)
Lemma cell8_sweep_total g e ranks s :
  cell8_lib_total g -> exists s', cell8_sweep g e ranks s = (Ok tt, s').
Proof.
  intros [[Hsolve [Hhelper Hmp2]] [Heri [Hexact Hshape]]].
  destruct (for_total (cell8_body g e) (fun _ => True)) with (xs := ranks) (s := s)
    as [s' [H _]]; [| exact I | eauto].
  intros c s0 _. unfold cell8_body, bind, call, lift, modify. simpl.
  destruct (Hsolve (Np.int64_mul c (g_num_spatial_orbs g)) (world s0))
    as [kpt [g1 ->]].
  simpl. destruct (Hhelper (chi kpt) (zeta kpt) g1) as [h [g2 ->]].
  simpl. destruct (Heri h g2) as [t [g3 Ht]]. rewrite Ht.
  simpl. destruct (Hexact h g3) as [x [g4 Hx]]. rewrite Hx.
  destruct (Hshape _ _ _ _ _ _ _ Ht Hx) as [Hlen Hne].
  destruct (max_abs_diff_ok t x Hlen Hne) as [m ->].
  simpl. destruct (Hmp2 h g4) as [a [g5 ->]].
  eauto.
Qed.

(** Cell 17: the list of one mesh after a sweep. *)
Lemma cell17_sweep_records nso mf e mesh ranks s r s' :
  cell17_sweep nso mf e mesh ranks s = (r, s') ->
  exists es,
    results_at mesh s' = results_at mesh s ++ es /\
    (length es <= length ranks)%nat /\
    (forall mesh', mesh' <> mesh -> results_at mesh' s' = results_at mesh' s) /\
    (r = Ok tt ->
     length es = length ranks /\
     sweep_run (cell17_body nso mf e mesh) (results_at mesh) ranks s es s').
Proof.
  intros H. unfold cell17_sweep in H.
  destruct (for_append_only (cell17_body nso mf e mesh) (results_at mesh))
    with (1 := fun x s r s1 H => proj1 (cell17_body_any nso mf e mesh x s r s1 H))
         (2 := H) as [es [Hes Hles]].
  exists es. repeat (split; [assumption |]). split.
  - apply (for_respects
             (fun s s' => forall mesh', mesh' <> mesh ->
                                        results_at mesh' s' = results_at mesh' s)
             (cell17_body nso mf e mesh)) with (4 := H).
    + reflexivity.
    + intros s1 s2 s3 H12 H23 m Hm. rewrite H23, H12 by assumption. reflexivity.
    + intros x s0 r0 s1 H0. apply (cell17_body_any _ _ _ _ _ _ _ _ H0).
  - intros ->.
    destruct (for_sweep_run (cell17_body nso mf e mesh) (results_at mesh))
      with (2 := H) as [es' [Hrun [Hes' Hl]]].
    { intros x s0 s1 H0. destruct (cell17_body_ok _ _ _ _ _ _ _ H0)
        as (a & _ & Hd & _). eauto. }
    assert (es' = es) by (apply (app_inv_head (results_at mesh s)); congruence).
    subst. auto.
Qed.

(** Cell 17: with a library that returns and the mesh a key of
    [results], the sweep completes. *)
Lemma cell17_sweep_total nso mf e mesh ranks s :
  mp2_lib_total mf ->
  (exists l, dict_get Z.eqb mesh (results s) = Some l) ->
  exists s', cell17_sweep nso mf e mesh ranks s = (Ok tt, s').
Proof.
  intros [Hsolve [Hhelper Hmp2]] Hkey.
  destruct (for_total (cell17_body nso mf e mesh)
              (fun s => exists l, dict_get Z.eqb mesh (results s) = Some l))
    with (xs := ranks) (s := s) as [s' [H _]]; [| exact Hkey | eauto].
  intros c s0 [l Hl].
  unfold cell17_body, bind, call, print, modify, results_append. simpl.
  destruct (Hsolve (Np.int64_mul c nso) (world s0)) as [kpt [g1 ->]].
  simpl. destruct (Hhelper (chi kpt) (zeta kpt) g1) as [h [g2 ->]].
  simpl. destruct (Hmp2 h g2) as [a [g3 ->]].
  simpl. rewrite Hl. eexists. split; [reflexivity |].
  simpl. rewrite dict_get_set_same by apply Z.eqb_refl. eauto.
Qed.

End Sweep_records.

(** C1. For every non-empty sequence of rank parameters, the sweeps of
    cells 8 and 17 only append to their records, whether they complete
    or raise; a sweep that completes has appended exactly one entry per
    parameter, the i-th entry in the step of the i-th parameter; and a
    sweep completes when the library routines return. *)
Theorem C1_one_entry_per_parameter
        (L : Lib) (g : Globals) (nso : Z) (mf : MF) (e : Q) (mesh : Z)
        (ranks : list Z) (s : State) :
  ranks <> [] ->
  (forall r s',
      cell8_sweep g e ranks s = (r, s') ->
      exists ds es,
        delta_eri s' = delta_eri s ++ ds /\ delta_mp2 s' = delta_mp2 s ++ es /\
        (length ds <= length ranks)%nat /\ (length es <= length ranks)%nat /\
        (r = Ok tt ->
         length ds = length ranks /\ length es = length ranks /\
         sweep_run (cell8_body g e) delta_eri ranks s ds s' /\
         sweep_run (cell8_body g e) delta_mp2 ranks s es s')) /\
  (cell8_lib_total g -> exists s', cell8_sweep g e ranks s = (Ok tt, s')) /\
  (forall r s',
      cell17_sweep nso mf e mesh ranks s = (r, s') ->
      exists es,
        results_at mesh s' = results_at mesh s ++ es /\
        (length es <= length ranks)%nat /\
        (forall mesh', mesh' <> mesh ->
                       results_at mesh' s' = results_at mesh' s) /\
        (r = Ok tt ->
         length es = length ranks /\
         sweep_run (cell17_body nso mf e mesh) (results_at mesh) ranks s es s')) /\
  (mp2_lib_total mf ->
   (exists l, dict_get Z.eqb mesh (results s) = Some l) ->
   exists s', cell17_sweep nso mf e mesh ranks s = (Ok tt, s')).
Proof.
  intros _. split; [| split; [| split]].
  - intros r s'. apply cell8_sweep_records.
  - apply cell8_sweep_total.
  - intros r s'. apply cell17_sweep_records.
  - apply cell17_sweep_total.
Qed.

(** The small library without bad requests returns. *)
Lemma toy_mp2_total : @mp2_lib_total (Toy.lib []) tt.
Proof.
  repeat split; intros; intros g0; eexists _, _; reflexivity.
Qed.

Lemma toy_cell8_total : @cell8_lib_total (Toy.lib []) (Toy.globals []).
Proof.
  split; [exact toy_mp2_total |].
  split; [intros h g0; eexists _, _; reflexivity |].
  split; [intros h g0; eexists _, _; reflexivity |].
  intros h g0 g1 g2 g3 t x Ht Hx. simpl in Ht, Hx. unfold Toy.pure in Ht, Hx.
  inversion Ht; inversion Hx; subst.
  destruct (1000 <=? fst h); (split; [reflexivity | discriminate]).
Qed.

(** The sweep of cell 8 over two rank parameters in the small library:
    it completes and both records hold two entries. *)
Lemma C1_witness :
  [2; 4] <> [] /\
  exists s',
    @cell8_sweep (Toy.lib []) (Toy.globals []) 0%Q [2; 4] (Toy.init [] 0)
    = (Ok tt, s') /\
    length (delta_eri s') = 2%nat /\ length (delta_mp2 s') = 2%nat.
Proof.
  assert (Hne : [2; 4] <> []) by discriminate.
  split; [exact Hne |].
  destruct (C1_one_entry_per_parameter
              (Toy.lib []) (Toy.globals []) 8 tt 0%Q 11 [2; 4] (Toy.init [] 0) Hne)
    as [H8 [Htot _]].
  destruct (Htot toy_cell8_total) as [s' Hs'].
  exists s'. split; [exact Hs' |].
  destruct (H8 _ _ Hs') as (ds & es & Hd & He & _ & _ & Hok).
  destruct (Hok eq_refl) as [Hl [Hl' _]].
  rewrite Hd, He. simpl. split; [exact Hl | exact Hl'].
Defined.

(** ** Deviations *)

Section Deviations.

Context {L : Lib}.

Lemma qmax_cases a b : Np.qmax a b = a \/ Np.qmax a b = b.
Proof. unfold Np.qmax. destruct (Qle_bool a b); auto. Qed.

Lemma qmax_ge_l a b : (a <= Np.qmax a b)%Q.
Proof.
  unfold Np.qmax. destruct (Qle_bool a b) eqn:E.
  - apply Qle_bool_iff. assumption.
  - apply Qle_refl.
Qed.

Lemma qmax_ge_r a b : (b <= Np.qmax a b)%Q.
Proof.
  unfold Np.qmax. destruct (Qle_bool a b) eqn:E.
  - apply Qle_refl.
  - destruct (Qlt_le_dec b a) as [Hlt | Hle].
    + apply Qlt_le_weak. assumption.
    + apply Qle_bool_iff in Hle. congruence.
Qed.

Lemma fold_qmax_in xs x : In (fold_left Np.qmax xs x) (x :: xs).
Proof.
  revert x. induction xs as [| y ys IH]; intros x; simpl.
  - auto.
  - destruct (IH (Np.qmax x y)) as [H | H].
    + rewrite <- H.
      destruct (qmax_cases x y) as [E | E]; rewrite E; simpl; auto.
    + simpl in H. auto.
Qed.

Lemma fold_qmax_ge xs x :
  (x <= fold_left Np.qmax xs x)%Q /\
  Forall (fun y => (y <= fold_left Np.qmax xs x)%Q) xs.
Proof.
  revert x. induction xs as [| y ys IH]; intros x; simpl.
  - split; [apply Qle_refl | constructor].
  - destruct (IH (Np.qmax x y)) as [H1 H2]. split; [| constructor].
    + eapply Qle_trans; [apply qmax_ge_l | exact H1].
    + eapply Qle_trans; [apply qmax_ge_r | exact H1].
    + exact H2.
Qed.

(** [np.max] returns an element of the array that bounds all of them. *)
Lemma np_max_spec xs m :
  Np.max xs = Ok m -> In m xs /\ Forall (fun y => (y <= m)%Q) xs.
Proof.
  destruct xs as [| x xs]; simpl; intros H; [discriminate |].
  inversion H; subst. split.
  - apply fold_qmax_in.
  - constructor; apply fold_qmax_ge.
Qed.

Lemma zip_with_combine {A B C} (f : A -> B -> C) xs ys :
  Np.zip_with f xs ys = map (fun p => f (fst p) (snd p)) (combine xs ys).
Proof.
  revert ys. induction xs as [| x xs IH]; intros [| y ys]; simpl; auto.
  rewrite IH. reflexivity.
Qed.

(** For tensors of one size, [max_abs_diff] is the greatest absolute
    value of an element-wise difference. *)
Lemma max_abs_diff_spec (t x : list Elem) m :
  length t = length x ->
  max_abs_diff t x = Ok m ->
  (exists a b, In (a, b) (combine t x) /\ m = elem_abs (elem_sub a b)) /\
  (forall a b, In (a, b) (combine t x) -> (elem_abs (elem_sub a b) <= m)%Q).
Proof.
  intros Hlen. unfold max_abs_diff, Np.broadcast, Np.abs.
  rewrite Hlen, Nat.eqb_refl, zip_with_combine, map_map.
  intros H. apply np_max_spec in H. destruct H as [Hin Hall]. split.
  - apply in_map_iff in Hin. destruct Hin as [[a b] [E Hin]].
    exists a, b. split; [assumption | symmetry; exact E].
  - intros a b Hab. rewrite Forall_forall in Hall. apply Hall.
    apply in_map_iff. exists (a, b). split; [reflexivity | assumption].
Qed.

(** Whatever the sizes, the result of [max_abs_diff] is the absolute
    value of some element. *)
Lemma max_abs_diff_nonneg (t x : list Elem) m :
  (forall a, (0 <= elem_abs a)%Q) ->
  max_abs_diff t x = Ok m -> (0 <= m)%Q.
Proof.
  intros Habs. unfold max_abs_diff.
  destruct (Np.broadcast elem_sub t x) as [diff | e]; [| discriminate].
  intros H. apply np_max_spec in H. destruct H as [Hin _].
  unfold Np.abs in Hin. apply in_map_iff in Hin.
  destruct Hin as [d [<- _]]. apply Habs.
Qed.

Lemma Qdiv_nonneg (m : Q) (n : Z) :
  (0 <= m)%Q -> 0 < n -> (0 <= m / inject_Z n)%Q.
Proof.
  intros Hm Hn. apply Qle_shift_div_l.
  - change 0%Q with (inject_Z 0). rewrite <- Zlt_Qlt. assumption.
  - rewrite Qmult_0_l. assumption.
Qed.

Lemma Qdiv_lt_self (m : Q) (n : Z) :
  (0 < m)%Q -> 1 < n -> (m / inject_Z n < m)%Q.
Proof.
  intros Hm Hn. apply Qlt_shift_div_r.
  - change 0%Q with (inject_Z 0). rewrite <- Zlt_Qlt. lia.
  - rewrite <- (Qmult_1_r m) at 1.
    rewrite (Qmult_comm m 1), (Qmult_comm m (inject_Z n)).
    apply Qmult_lt_compat_r; [assumption |].
    change 1%Q with (inject_Z 1). rewrite <- Zlt_Qlt. assumption.
Qed.

End Deviations.

(** C10. The integral deviation a step of cell 8 records is the greatest
    absolute element-wise difference between the THC and the exact
    tensor divided by [num_kpts]: with more than one k-point and tensors
    that differ it is smaller than that greatest difference. *)
Theorem C10_integral_deviation_over_num_kpts
        (L : Lib) (g : Globals) (e : Q) (c : Z) (s s' : State) :
  cell8_body g e c s = (Ok tt, s') ->
  exists st m,
    cell8_calls g c (world s) st (world s') /\
    max_abs_diff (eri_thc st) (eri_exact st) = Ok m /\
    delta_eri s' = delta_eri s ++ [(m / inject_Z (g_num_kpts g))%Q] /\
    (length (eri_thc st) = length (eri_exact st) ->
     (exists a b, In (a, b) (combine (eri_thc st) (eri_exact st)) /\
                  m = elem_abs (elem_sub a b)) /\
     (forall a b, In (a, b) (combine (eri_thc st) (eri_exact st)) ->
                  (elem_abs (elem_sub a b) <= m)%Q)) /\
    (1 < g_num_kpts g -> (0 < m)%Q ->
     (m / inject_Z (g_num_kpts g) < m)%Q).
Proof.
  intros H.
  destruct (cell8_body_ok _ _ _ _ _ H) as (st & m & Hcalls & Hm & Hd & _).
  exists st, m. repeat (split; [assumption |]). split.
  - intros Hlen. apply max_abs_diff_spec; assumption.
  - intros Hn Hpos. apply Qdiv_lt_self; assumption.
Qed.

(** The first step of cell 8 in the small library, with three k-points. *)
Lemma C10_witness :
  exists s',
    @cell8_body (Toy.lib []) (Toy.globals []) 0%Q 2 (Toy.init [] 0)
    = (Ok tt, s') /\
    exists m, delta_eri s' = [(m / inject_Z 3)%Q].
Proof.
  eexists. split; [reflexivity |].
  destruct (C10_integral_deviation_over_num_kpts
              (Toy.lib []) (Toy.globals []) 0%Q 2 (Toy.init [] 0) _ eq_refl)
    as (st & m & _ & _ & Hd & _).
  exists m. exact Hd.
Defined.

(** C3, as the code has it. In a completed step: cell 8 records the
    greatest absolute element-wise difference of the two tensors divided
    by [num_kpts], and the signed difference [emp2_exact - emp2_approx];
    cells 17 and 19 record the signed difference
    [emp2_exact - emp2_approx]; cell 22 reports the absolute difference
    [abs(emp2_approx - emp2_exact)] of the correlation energies. *)
Theorem C3_recorded_deviations
        (L : Lib) (g : Globals) (nso : Z) (mf : MF) (hcore : Hcore)
        (emp2_exact : Q) (mesh : Z) (basis : string) (c : Z) (s s' : State) :
  (cell8_body g emp2_exact c s = (Ok tt, s') ->
   exists st m,
     cell8_calls g c (world s) st (world s') /\
     max_abs_diff (eri_thc st) (eri_exact st) = Ok m /\
     delta_eri s' = delta_eri s ++ [(m / inject_Z (g_num_kpts g))%Q] /\
     delta_mp2 s' = delta_mp2 s ++ [(emp2_exact - emp2_approx st)%Q]) /\
  (cell17_body nso mf emp2_exact mesh c s = (Ok tt, s') ->
   exists a,
     mp2_calls mf nso c (world s) a (world s') /\
     results_at mesh s' = results_at mesh s ++ [(emp2_exact - a)%Q]) /\
  (cell19_body nso mf emp2_exact basis c s = (Ok tt, s') ->
   exists a,
     mp2_calls mf nso c (world s) a (world s') /\
     basis_results_at basis s' =
     basis_results_at basis s ++ [(emp2_exact - a)%Q]) /\
  (cell22_body mf hcore nso emp2_exact c s = (Ok tt, s') ->
   exists a lam rest,
     cell22_calls mf hcore nso c (world s) a lam (world s') /\
     stdout s' =
     stdout s ++ PrError c (Qabs (a - e_tot mf - emp2_exact)) lam :: rest).
Proof.
  split; [| split; [| split]]; intros H.
  - destruct (cell8_body_ok _ _ _ _ _ H) as (st & m & H1 & H2 & H3 & H4 & _).
    eauto 6.
  - destruct (cell17_body_ok _ _ _ _ _ _ _ H) as (a & H1 & H2 & _). eauto.
  - destruct (cell19_body_ok _ _ _ _ _ _ _ H) as (a & H1 & H2 & _). eauto.
  - destruct (cell22_body_ok _ _ _ _ _ _ _ H) as (a & lam & H1 & H2 & _).
    exists a, lam. eexists. split; [exact H1 | exact H2].
Qed.

(** A step of cell 17 in the small library. *)
Lemma C3_witness :
  exists s',
    @cell17_body (Toy.lib []) 8 tt 0%Q 11 2 (Toy.init17 []) = (Ok tt, s') /\
    exists a, results_at 11 s' = [(0 - a)%Q].
Proof.
  exists (snd (@cell17_body (Toy.lib []) 8 tt 0%Q 11 2 (Toy.init17 []))).
  split; [vm_compute; reflexivity |].
  destruct (C3_recorded_deviations
              (Toy.lib []) (Toy.globals []) 8 tt tt 0%Q 11 "gth-szv" 2
              (Toy.init17 [])
              (snd (@cell17_body (Toy.lib []) 8 tt 0%Q 11 2 (Toy.init17 []))))
    as (_ & H17 & _).
  destruct H17 as (a & _ & Ha); [vm_compute; reflexivity |].
  exists a. exact Ha.
Defined.

(** C3 as stated fails: in the small library the first step of cell 8
    gets tensors whose greatest absolute difference is 1 and an
    approximate energy 1 against the reference 0; it records 1/3, not 1,
    and -1, not the absolute difference 1. *)
Lemma C3_counterexample :
  exists s' st,
    @cell8_body (Toy.lib []) (Toy.globals []) 0%Q 2 (Toy.init [] 0)
    = (Ok tt, s') /\
    @cell8_calls (Toy.lib []) (Toy.globals []) 2 0 st (world s') /\
    max_abs_diff (eri_thc st) (eri_exact st) = Ok (Qabs (1 - 0)) /\
    emp2_approx st = 1%Q /\
    delta_eri s' = [(Qabs (1 - 0) / inject_Z 3)%Q] /\
    delta_mp2 s' = [(0 - 1)%Q] /\
    ~ (Qabs (1 - 0) / inject_Z 3 == Qabs (1 - 0))%Q /\
    ~ (0 - 1 == Qabs (0 - 1))%Q.
Proof.
  eexists.
  exists (@mkStep8 (Toy.lib []) [1%Q; 0%Q] [0%Q; 0%Q] 1%Q).
  split; [reflexivity |].
  split; [exists (16, 0), (16, 0), 1, 1, 1, 1; repeat split |].
  split; [reflexivity |].
  split; [reflexivity |].
  split; [reflexivity |].
  split; [reflexivity |].
  split; intros H; vm_compute in H; discriminate.
Qed.

(** ** What every run of a cell respects *)

Section Respects.

Context {L : Lib}.
Variable R : State -> State -> Prop.
Hypothesis R_refl : forall s, R s s.
Hypothesis R_trans : forall s1 s2 s3, R s1 s2 -> R s2 s3 -> R s1 s3.

Lemma respects_ret {A} (a : A) : respects R (ret a).
Proof. intros s r s' H. inversion H; subst. apply R_refl. Qed.

Lemma respects_raise {A} e : respects R (@raise L A e).
Proof. intros s r s' H. inversion H; subst. apply R_refl. Qed.

Lemma respects_lift {A} (x : res A) : respects R (lift x).
Proof. intros s r s' H. inversion H; subst. apply R_refl. Qed.

Lemma respects_gets {A} (f : State -> A) : respects R (gets f).
Proof. intros s r s' H. inversion H; subst. apply R_refl. Qed.

Lemma respects_modify f : (forall s, R s (f s)) -> respects R (modify f).
Proof. intros Hf s r s' H. inversion H; subst. apply Hf. Qed.

Lemma respects_call {A} ev (f : Ext World A) :
  (forall s g, R s (set_world g (add_log ev s))) -> respects R (call ev f).
Proof.
  intros Hf s r s' H. apply call_inv in H. destruct H as [g [_ ->]]. apply Hf.
Qed.

Lemma respects_bind {A B} (m : M A) (k : A -> M B) :
  respects R m -> (forall a, respects R (k a)) -> respects R (bind m k).
Proof.
  intros Hm Hk s r s' H.
  destruct (bind_inv _ _ _ _ _ H) as [[a [s1 [H1 H2]]] | [e [H1 _]]].
  - eapply R_trans; [eapply Hm | eapply Hk]; eassumption.
  - eapply Hm; eassumption.
Qed.

Lemma respects_for {A} (xs : list A) (body : A -> M unit) :
  (forall x, respects R (body x)) -> respects R (for_ xs body).
Proof.
  intros Hbody s r s' H.
  apply (for_respects R body R_refl R_trans) with (2 := H).
  intros x s0 r0 s1 H0. eapply Hbody; eassumption.
Qed.

End Respects.

(** Steps through a cell, leaving the goals of its primitive actions. *)
Ltac respects_steps Hr Ht :=
  repeat lazymatch goal with
    | |- respects _ (let _ := _ in _) => cbv zeta
    | |- respects _ (bind _ _) => apply (respects_bind _ Ht); [ | intros ?]
    | |- respects _ (for_ _ _) => apply (respects_for _ Hr Ht); intros ?
    | |- respects _ (ret _) => apply (respects_ret _ Hr)
    | |- respects _ (raise _) => apply (respects_raise _ Hr)
    | |- respects _ (lift _) => apply (respects_lift _ Hr)
    | |- respects _ (gets _) => apply (respects_gets _ Hr)
    end.

(** ** Signs of the stored and of the plotted values *)

Section Nonneg.

Context {L : Lib}.
Hypothesis elem_abs_nonneg : forall a, (0 <= elem_abs a)%Q.

Lemma keeps_refl : forall s : State, keeps s s.
Proof. unfold keeps. auto. Qed.

Lemma keeps_trans :
  forall s1 s2 s3 : State, keeps s1 s2 -> keeps s2 s3 -> keeps s1 s3.
Proof. unfold keeps. auto. Qed.

Lemma keeps_frame (s s' : State) :
  delta_eri s' = delta_eri s -> figure s' = figure s -> keeps s s'.
Proof. unfold keeps, nonneg_records. intros -> ->. auto. Qed.

Lemma keeps_call {A} ev (f : Ext World A) : respects keeps (call ev f).
Proof.
  apply respects_call. intros s g. apply keeps_frame; reflexivity.
Qed.

Lemma keeps_print l : respects keeps (print l).
Proof.
  apply respects_modify. intros s. apply keeps_frame; reflexivity.
Qed.

Lemma keeps_seed n : respects keeps (seed n).
Proof.
  apply respects_modify. intros s. apply keeps_frame; reflexivity.
Qed.

Lemma keeps_results_append mesh x : respects keeps (results_append mesh x).
Proof.
  intros s r s' H. unfold results_append in H.
  destruct (dict_get Z.eqb mesh (results s)); inversion H; subst;
    apply keeps_frame; reflexivity.
Qed.

Lemma keeps_basis_results_append basis x :
  respects keeps (basis_results_append basis x).
Proof.
  intros s r s' H. unfold basis_results_append in H.
  destruct (dict_get String.eqb basis (basis_results s)); inversion H; subst;
    apply keeps_frame; reflexivity.
Qed.

Lemma abs_nonneg ys : Forall (fun y => (0 <= y)%Q) (Np.abs Qabs ys).
Proof.
  unfold Np.abs. apply Forall_forall. intros y Hy.
  apply in_map_iff in Hy. destruct Hy as [x [<- _]]. apply Qabs_nonneg.
Qed.

(** A curve of non-negative values keeps the invariant. *)
Lemma keeps_plt_plot xs ys :
  Forall (fun y => (0 <= y)%Q) ys -> respects keeps (plt_plot xs ys).
Proof.
  intros Hys s r s' H. unfold plt_plot in H.
  destruct (Nat.eqb (length xs) (length ys)); inversion H; subst;
    [| apply keeps_refl].
  intros [Hd Hf]. split; [exact Hd |]. simpl.
  apply Forall_app. split; [exact Hf | constructor; [exact Hys | constructor]].
Qed.

Lemma keeps_cell8_body g e c :
  0 < g_num_kpts g -> respects keeps (cell8_body g e c).
Proof.
  intros Hk s r s' H. unfold keeps. intros [Hd Hf].
  unfold cell8_body, bind, call, lift, modify in H.
  run_all H; split; simpl; try assumption.
  all: apply Forall_app; split; [assumption |].
  all: constructor; [| constructor].
  all: apply Qdiv_nonneg; [| assumption].
  all: eapply max_abs_diff_nonneg; eassumption.
Qed.

Lemma keeps_cell8 g : 0 < g_num_kpts g -> respects keeps (cell8 g).
Proof.
  intros Hk. unfold cell8, cell8_sweep.
  respects_steps keeps_refl keeps_trans;
    try apply keeps_call; try (apply keeps_cell8_body; assumption).
  - apply respects_modify. intros s [_ Hf]. split; [constructor | exact Hf].

  - apply respects_modify. intros s. apply keeps_frame; reflexivity.
Qed.

Lemma keeps_cell10 : respects keeps cell10.
Proof.
  intros s r s' H. unfold cell10, bind, gets in H. simpl in H.
  intros Hs. eapply keeps_plt_plot; [| exact H | exact Hs]. apply Hs.

Qed.

Lemma keeps_cell12 : respects keeps cell12.
Proof.
  unfold cell12. respects_steps keeps_refl keeps_trans.
  - apply respects_modify. intros s [Hd _]. split; [exact Hd | constructor].

  - apply keeps_plt_plot, abs_nonneg.
Qed.

Lemma keeps_cell17 nso : respects keeps (cell17 nso).
Proof.
  unfold cell17, cell17_mesh, cell17_sweep, cell17_body.
  respects_steps keeps_refl keeps_trans;
    try apply keeps_call; try apply keeps_print;
    try apply keeps_results_append.
  - apply respects_modify. intros s. apply keeps_frame; reflexivity.
  - match goal with
    | |- respects _ (match ?o with _ => _ end) => destruct o
    end.
    + apply keeps_plt_plot, abs_nonneg.
    + apply respects_raise. apply keeps_refl.
Qed.

Lemma keeps_cell19 : respects keeps cell19.
Proof.
  unfold cell19, cell19_basis, cell19_sweep, cell19_body.
  respects_steps keeps_refl keeps_trans;
    try apply keeps_call; try apply keeps_print;
    try apply keeps_basis_results_append.
  - apply respects_modify. intros s. apply keeps_frame; reflexivity.
  - match goal with
    | |- respects _ (match ?o with _ => _ end) => destruct o
    end.
    + apply keeps_plt_plot, abs_nonneg.
    + apply respects_raise. apply keeps_refl.
Qed.

Lemma keeps_cell22 : respects keeps cell22.
Proof.
  unfold cell22, cell22_seeded, cell22_sweep, cell22_body.
  respects_steps keeps_refl keeps_trans;
    try apply keeps_call; try apply keeps_print; try apply keeps_seed.
  destruct (Qlt_le_dec _ _).
  - apply keeps_print.
  - apply respects_ret. apply keeps_refl.
Qed.

End Nonneg.

(** ** Failures and requests *)

Section Sweep_logs.

Context {L : Lib}.

(** A step that raises ends the sweep: the exception and the state of
    the failing step are those of the whole sweep. *)
Lemma for_raise {A} (body : A -> M unit) pre c post s s1 s2 x :
  for_ pre body s = (Ok tt, s1) ->
  body c s1 = (Raise x, s2) ->
  for_ (pre ++ c :: post) body s = (Raise x, s2).
Proof.
  intros Hpre Hc. rewrite for_app, (bind_ok _ _ _ _ _ Hpre), for_cons.
  apply bind_raise. exact Hc.
Qed.

(** The log of a completed sweep is the concatenation of the logs of its
    steps. *)
Lemma for_log_ok {A} (body : A -> M unit) (F : A -> list Event) :
  (forall x s s1, body x s = (Ok tt, s1) -> log s1 = log s ++ F x) ->
  forall xs s s', for_ xs body s = (Ok tt, s') ->
                  log s' = log s ++ flat_map F xs.
Proof.
  intros Hbody xs. induction xs as [| x xs IH]; intros s s' H.
  - inversion H; subst. simpl. symmetry. apply app_nil_r.
  - destruct (for_cons_ok _ _ _ _ _ H) as [s1 [H1 H2]].
    rewrite (IH _ _ H2), (Hbody _ _ _ H1). simpl.
    rewrite app_assoc. reflexivity.
Qed.

(** The requests of a completed sweep whose steps request [F x]. *)
Lemma for_requests_ok {A} (body : A -> M unit) (F : A -> list Z) :
  (forall x s s1, body x s = (Ok tt, s1) ->
                  solve_requests (log s1) = solve_requests (log s) ++ F x) ->
  forall xs s s', for_ xs body s = (Ok tt, s') ->
    solve_requests (log s') = solve_requests (log s) ++ flat_map F xs.
Proof.
  intros Hbody xs. induction xs as [| x xs IH]; intros s s' H.
  - inversion H; subst. simpl. symmetry. apply app_nil_r.
  - destruct (for_cons_ok _ _ _ _ _ H) as [s1 [H1 H2]].
    rewrite (IH _ _ H2), (Hbody _ _ _ H1). simpl.
    rewrite app_assoc. reflexivity.
Qed.

(** A completed sweep whose steps append [h a], for the value [a] they
    got, has appended the image under [h] of one value per element. *)
Lemma for_mapped {A} (body : A -> M unit) (rec : State -> list Q) (h : Q -> Q) :
  (forall x s s1, body x s = (Ok tt, s1) -> exists a, rec s1 = rec s ++ [h a]) ->
  forall xs s s', for_ xs body s = (Ok tt, s') ->
    exists l, length l = length xs /\ rec s' = rec s ++ map h l.
Proof.
  intros Hbody xs. induction xs as [| x xs IH]; intros s s' H.
  - inversion H; subst. exists []. split; [reflexivity |].
    simpl. symmetry. apply app_nil_r.
  - destruct (for_cons_ok _ _ _ _ _ H) as [s1 [H1 H2]].
    destruct (Hbody _ _ _ H1) as [a Ha].
    destruct (IH _ _ H2) as [l [Hl Hrec]].
    exists (a :: l). split; [simpl; congruence |].
    rewrite Hrec, Ha, <- app_assoc. reflexivity.
Qed.

Lemma flat_map_singleton {A B} (f : A -> B) xs :
  flat_map (fun x => [f x]) xs = map f xs.
Proof. induction xs as [| x xs IH]; simpl; congruence. Qed.

(** The requests of a completed sweep of cell 8. *)
Lemma cell8_sweep_requests g e ranks s s' :
  cell8_sweep g e ranks s = (Ok tt, s') ->
  solve_requests (log s') =
  solve_requests (log s) ++
  map (fun c => Np.int64_mul c (g_num_spatial_orbs g)) ranks.
Proof.
  intros H. rewrite <- flat_map_singleton.
  apply (for_requests_ok (cell8_body g e)) with (2 := H).
  intros x s0 s1 H0. apply (cell8_body_any _ _ _ _ _ _ H0).
Qed.

Lemma cell17_sweep_requests nso mf e mesh ranks s s' :
  cell17_sweep nso mf e mesh ranks s = (Ok tt, s') ->
  solve_requests (log s') =
  solve_requests (log s) ++ map (fun c => Np.int64_mul c nso) ranks.
Proof.
  intros H. rewrite <- flat_map_singleton.
  apply (for_requests_ok (cell17_body nso mf e mesh)) with (2 := H).
  intros x s0 s1 H0. apply (cell17_body_any _ _ _ _ _ _ _ _ H0).
Qed.

Lemma wrap64_small z : - 2 ^ 63 <= z < 2 ^ 63 -> Np.wrap64 z = z.
Proof.
  intros Hz. unfold Np.wrap64.
  rewrite Z.mod_small by lia. lia.
Qed.

End Sweep_logs.

(** C4, as the code has it. No cell handles exceptions: when the step of
    a rank parameter raises, after the steps of the parameters before it
    completed, the sweep raises that exception in the state the failing
    step left, whatever parameters follow. In cell 8 the factorisation
    was requested for the parameters up to the failing one only, and
    [delta_eri] holds the entries of the steps before it and at most one
    more. *)
Theorem C4_failure_ends_sweep
        (L : Lib) (g : Globals) (nso : Z) (mf : MF) (hcore : Hcore) (e : Q)
        (mesh : Z) (basis : string) (pre : list Z) (c : Z) (post : list Z)
        (s s1 s2 : State) (x : exn) :
  (cell8_sweep g e pre s = (Ok tt, s1) ->
   cell8_body g e c s1 = (Raise x, s2) ->
   cell8_sweep g e (pre ++ c :: post) s = (Raise x, s2) /\
   solve_requests (log s2) =
   solve_requests (log s) ++
   map (fun c => Np.int64_mul c (g_num_spatial_orbs g)) (pre ++ [c]) /\
   exists ds, delta_eri s2 = delta_eri s ++ ds /\
              (length pre <= length ds <= length pre + 1)%nat) /\
  (cell17_sweep nso mf e mesh pre s = (Ok tt, s1) ->
   cell17_body nso mf e mesh c s1 = (Raise x, s2) ->
   cell17_sweep nso mf e mesh (pre ++ c :: post) s = (Raise x, s2)) /\
  (cell19_sweep nso mf e basis pre s = (Ok tt, s1) ->
   cell19_body nso mf e basis c s1 = (Raise x, s2) ->
   cell19_sweep nso mf e basis (pre ++ c :: post) s = (Raise x, s2)) /\
  (cell22_sweep mf hcore nso e pre s = (Ok tt, s1) ->
   cell22_body mf hcore nso e c s1 = (Raise x, s2) ->
   cell22_sweep mf hcore nso e (pre ++ c :: post) s = (Raise x, s2)).
Proof.
  split; [| split; [| split]]; intros Hpre Hc;
    try (eapply for_raise; eassumption).
  split; [eapply for_raise; eassumption |]. split.
  - destruct (cell8_body_any _ _ _ _ _ _ Hc) as (_ & _ & Hreq).
    rewrite Hreq, (cell8_sweep_requests _ _ _ _ _ Hpre), map_app, app_assoc.
    reflexivity.
  - destruct (cell8_sweep_records _ _ _ _ _ _ Hpre)
      as (ds & es & Hd & _ & _ & _ & Hok).
    destruct (Hok eq_refl) as (Hl & _).
    destruct (cell8_body_any _ _ _ _ _ _ Hc) as ((d & Hd' & Hl') & _).
    exists (ds ++ d). split.
    + rewrite Hd', Hd, app_assoc. reflexivity.
    + rewrite length_app. lia.
Qed.

(** In the small library the factorisation with 32 points raises: the
    sweep over the rank parameters 2, 4 and 6 ends in the step of 4. *)
Lemma C4_witness :
  exists s1 s2,
    @cell8_sweep (Toy.lib [32]) (Toy.globals [32]) 0%Q [2] (Toy.init [32] 0)
    = (Ok tt, s1) /\
    @cell8_body (Toy.lib [32]) (Toy.globals [32]) 0%Q 4 s1
    = (Raise (LibraryError "kmeans"), s2) /\
    @cell8_sweep (Toy.lib [32]) (Toy.globals [32]) 0%Q ([2] ++ 4 :: [6])
                 (Toy.init [32] 0)
    = (Raise (LibraryError "kmeans"), s2).
Proof.
  exists (snd (@cell8_sweep (Toy.lib [32]) (Toy.globals [32]) 0%Q [2]
                            (Toy.init [32] 0))).
  exists (snd (@cell8_body (Toy.lib [32]) (Toy.globals [32]) 0%Q 4
                 (snd (@cell8_sweep (Toy.lib [32]) (Toy.globals [32]) 0%Q [2]
                                    (Toy.init [32] 0))))).
  assert (H1 : @cell8_sweep (Toy.lib [32]) (Toy.globals [32]) 0%Q [2]
                            (Toy.init [32] 0)
               = (Ok tt, snd (@cell8_sweep (Toy.lib [32]) (Toy.globals [32])
                                           0%Q [2] (Toy.init [32] 0))))
    by (vm_compute; reflexivity).
  assert (H2 : @cell8_body (Toy.lib [32]) (Toy.globals [32]) 0%Q 4
                 (snd (@cell8_sweep (Toy.lib [32]) (Toy.globals [32]) 0%Q [2]
                                    (Toy.init [32] 0)))
               = (Raise (LibraryError "kmeans"),
                  snd (@cell8_body (Toy.lib [32]) (Toy.globals [32]) 0%Q 4
                         (snd (@cell8_sweep (Toy.lib [32]) (Toy.globals [32])
                                            0%Q [2] (Toy.init [32] 0))))))
    by (vm_compute; reflexivity).
  split; [exact H1 |]. split; [exact H2 |].
  edestruct (C4_failure_ends_sweep
               (Toy.lib [32]) (Toy.globals [32]) 8 tt tt 0%Q 11 "gth-szv"
               [2] 4 [6] (Toy.init [32] 0)) as [H8 _].
  exact (proj1 (H8 H1 H2)).
Defined.

(** C4 as stated fails: when the factorisation raises for the second of
    three rank parameters, the sweep of cell 8 raises; the third
    parameter is never requested and has no entry. *)
Lemma C4_counterexample :
  exists s',
    @cell8_sweep (Toy.lib [32]) (Toy.globals [32]) 0%Q [2; 4; 6]
                 (Toy.init [32] 0)
    = (Raise (LibraryError "kmeans"), s') /\
    solve_requests (log s') = [16; 32] /\
    length (delta_eri s') = 1%nat /\ length (delta_mp2 s') = 1%nat.
Proof.
  eexists. split; [vm_compute; reflexivity |].
  repeat split; reflexivity.
Qed.

(** Inversion of a completed run, action by action. *)
Ltac ok_inv :=
  repeat (cbv beta zeta in *;
          match goal with
          | H : bind _ _ _ = (Ok _, _) |- _ =>
              apply bind_inv_ok in H; destruct H as (? & ? & ? & ?)
          | H : call _ _ _ = (Ok _, _) |- _ =>
              apply call_inv in H; destruct H as (? & ? & ?)
          | H : print _ _ = (Ok _, _) |- _ => inversion H; clear H
          | H : seed _ _ = (Ok _, _) |- _ => inversion H; clear H
          | H : modify _ _ = (Ok _, _) |- _ => inversion H; clear H
          | H : gets _ _ = (Ok _, _) |- _ => inversion H; clear H
          | u : unit |- _ => destruct u
          end).

Section Requests.

Context {L : Lib}.

Lemma plt_plot_log xs ys s r s' :
  plt_plot xs ys s = (r, s') -> log s' = log s.
Proof.
  unfold plt_plot. destruct (Nat.eqb _ _); intros H; inversion H; reflexivity.
Qed.

Lemma plt_plot_ok xs ys s :
  length xs = length ys ->
  plt_plot xs ys s = (Ok tt, set_figure (figure s ++ [(xs, ys)]) s).
Proof.
  intros H. unfold plt_plot. rewrite H, Nat.eqb_refl. reflexivity.
Qed.

Lemma plt_plot_mismatch xs ys s :
  length xs <> length ys -> plt_plot xs ys s = (Raise ValueError, s).
Proof.
  intros H. unfold plt_plot.
  destruct (Nat.eqb (length xs) (length ys)) eqn:E; [| reflexivity].
  apply Nat.eqb_eq in E. contradiction.
Qed.

(** The requests of one mesh of cell 17 do not depend on the mesh. *)
Lemma cell17_mesh_requests nso mesh s s' :
  cell17_mesh nso mesh s = (Ok tt, s') ->
  solve_requests (log s') =
  solve_requests (log s) ++ map (fun c => Np.int64_mul c nso) thc_ranks.
Proof.
  intros H. unfold cell17_mesh in H. ok_inv.
  match goal with
  | H : cell17_sweep _ _ _ _ _ _ = _ |- _ =>
      apply cell17_sweep_requests in H; rename H into Hsw
  end.
  match goal with
  | H : match ?o with _ => _ end _ = _ |- _ =>
      destruct o; [apply plt_plot_log in H | discriminate]; rename H into Hp
  end.
  rewrite Hp. subst. rewrite Hsw. simpl.
  repeat rewrite solve_requests_app. simpl. rewrite ?app_nil_r. reflexivity.
Qed.

Lemma cell17_requests nso s s' :
  cell17 nso s = (Ok tt, s') ->
  solve_requests (log s') =
  solve_requests (log s) ++
  flat_map (fun _ => map (fun c => Np.int64_mul c nso) thc_ranks)
           cell17_meshes.
Proof.
  intros H. unfold cell17 in H. ok_inv. subst.
  match goal with
  | H : for_ _ _ _ = _ |- _ =>
      apply (for_requests_ok (cell17_mesh nso)
               (fun _ => map (fun c => Np.int64_mul c nso) thc_ranks)) in H;
        [exact H | apply cell17_mesh_requests]
  end.
Qed.

Lemma thc_ranks_requests nso :
  0 <= nso < 2 ^ 58 ->
  map (fun c => Np.int64_mul c nso) thc_ranks =
  map (fun c => c * nso) [2; 4; 6; 8; 10; 12; 14; 16; 18].
Proof.
  intros H. unfold thc_ranks, Np.arange, Np.int64_mul.
  change (map (fun c => Np.wrap64 (c * nso)) [2; 4; 6; 8; 10; 12; 14; 16; 18]
          = map (fun c => c * nso) [2; 4; 6; 8; 10; 12; 14; 16; 18]).
  cbn [map]. repeat rewrite wrap64_small by lia. reflexivity.
Qed.

End Requests.

(** ** Signs of the plotted values of cells 15 and 20 *)

Section Nonneg_plots.

Context {L : Lib}.

Lemma keeps_cell20 : respects keeps cell20.
Proof.
  unfold cell20, cell20_basis.
  respects_steps keeps_refl keeps_trans.
  match goal with
  | |- respects _ (match ?o with _ => _ end) => destruct o
  end.
  - apply keeps_plt_plot, abs_nonneg.
  - apply respects_raise. apply keeps_refl.
Qed.

(** For fewer than 2^52 orbitals the [np.int64] products of cell 15 do
    not wrap around. *)
Lemma cell15_values nso :
  0 <= nso < 2 ^ 52 ->
  map (cell15_percent nso) thc_ranks =
  map (fun c => (inject_Z (100 * c * nso) / inject_Z 1331)%Q) thc_ranks.
Proof.
  intros Hn. change thc_ranks with [2; 4; 6; 8; 10; 12; 14; 16; 18].
  unfold cell15_percent, Np.int64_mul. cbn [map].
  repeat (rewrite (wrap64_small (100 * _)) by lia).
  repeat (rewrite wrap64_small by lia).
  reflexivity.
Qed.

Lemma cell15_values_nonneg nso :
  0 <= nso < 2 ^ 52 ->
  Forall (fun y => (0 <= y)%Q) (map (cell15_percent nso) thc_ranks).
Proof.
  intros Hn. rewrite cell15_values by assumption.
  change thc_ranks with [2; 4; 6; 8; 10; 12; 14; 16; 18]. cbn [map].
  repeat constructor;
    (apply Qdiv_nonneg; [| reflexivity];
     change 0%Q with (inject_Z 0); rewrite <- Zle_Qle; lia).
Qed.

Lemma keeps_cell15 nso : 0 <= nso < 2 ^ 52 -> respects keeps (cell15 nso).
Proof.
  intros Hn. unfold cell15. apply keeps_plt_plot, cell15_values_nonneg, Hn.
Qed.

End Nonneg_plots.

(** C2, as the code has it. With a positive number of k-points, every
    cell that stores or plots keeps, whether it completes or raises: the
    integral deviations stored in [delta_eri] are non-negative, and so
    is every ordinate of a plotted curve, for cells 8, 10, 12, 17, 19,
    20 and 22, and for cell 15 with fewer than 2^52 orbitals, where the
    [np.int64] products do not wrap around; with 2^60 orbitals cell 15
    plots a negative percentage. The MP2 deviations are stored with
    their sign and cell 12 plots their absolute values. *)
Theorem C2_signs_of_records (L : Lib) (g : Globals) (nso : Z) (s : State) :
  (forall a, (0 <= elem_abs a)%Q) ->
  0 < g_num_kpts g ->
  nonneg_records s ->
  (forall r s', cell8 g s = (r, s') -> nonneg_records s') /\
  (forall r s', cell10 s = (r, s') -> nonneg_records s') /\
  (forall r s', cell12 s = (r, s') -> nonneg_records s') /\
  (forall r s', cell17 nso s = (r, s') -> nonneg_records s') /\
  (forall r s', cell19 s = (r, s') -> nonneg_records s') /\
  (forall r s', cell22 s = (r, s') -> nonneg_records s') /\
  (forall s', cell12 s = (Ok tt, s') ->
              figure s' = [(thc_ranks, map Qabs (delta_mp2 s))]) /\
  (forall r s', cell20 s = (r, s') -> nonneg_records s') /\
  (0 <= nso < 2 ^ 52 ->
   forall r s', cell15 nso s = (r, s') -> nonneg_records s') /\
  (exists s' y,
      cell15 (2 ^ 60) s = (Ok tt, s') /\
      In y (snd (last (figure s') ([], []))) /\ (y < 0)%Q).
Proof.
  intros Habs Hk Hs.
  repeat match goal with |- _ /\ _ => split end.
  - intros r s' H. exact (keeps_cell8 Habs g Hk _ _ _ H Hs).
  - intros r s' H. exact (keeps_cell10 _ _ _ H Hs).
  - intros r s' H. exact (keeps_cell12 _ _ _ H Hs).
  - intros r s' H. exact (keeps_cell17 nso _ _ _ H Hs).
  - intros r s' H. exact (keeps_cell19 _ _ _ H Hs).
  - intros r s' H. exact (keeps_cell22 _ _ _ H Hs).
  - intros s' H.
    cbv beta iota delta [cell12 bind modify gets plt_plot raise] in H.
    destruct (Nat.eqb _ _); inversion H; subst. reflexivity.
  - intros r s' H. exact (keeps_cell20 _ _ _ H Hs).
  - intros Hn r s' H. exact (keeps_cell15 nso Hn _ _ _ H Hs).
  - eexists.
    exists (inject_Z (- 2 ^ 63) / inject_Z (11 ^ 3))%Q.
    split; [unfold cell15; apply plt_plot_ok; rewrite length_map; reflexivity |].
    cbn [figure set_figure]. rewrite last_last. cbn [snd].
    split; [left; reflexivity | reflexivity].
Qed.

(** Cell 8 in the small library keeps the signs of the records. *)
Lemma C2_witness :
  (forall a, (0 <= Qabs a)%Q) /\ 0 < 3 /\
  nonneg_records
    (snd (@cell8 (Toy.lib []) (Toy.globals []) (Toy.init [] 0))).
Proof.
  assert (Hinit : nonneg_records (Toy.init [] 0))
    by (split; constructor).
  split; [exact Qabs_nonneg |]. split; [reflexivity |].
  destruct (C2_signs_of_records
              (Toy.lib []) (Toy.globals []) 8 (Toy.init [] 0)
              Qabs_nonneg eq_refl Hinit) as [H8 _].
  apply (H8 (fst (@cell8 (Toy.lib []) (Toy.globals []) (Toy.init [] 0)))).
  apply surjective_pairing.
Defined.

(** C2 as stated fails: in the small library every approximate energy
    exceeds the reference, and cell 8 stores negative MP2 deviations. *)
Lemma C2_counterexample :
  exists s' d,
    @cell8 (Toy.lib []) (Toy.globals []) (Toy.init [] 0) = (Ok tt, s') /\
    In d (delta_mp2 s') /\ (d < 0)%Q.
Proof.
  eexists. exists (-1 # 1)%Q.
  split; [vm_compute; reflexivity |].
  split; [simpl; left; reflexivity | reflexivity].
Qed.

(** ** Reference results *)

Section References.

Context {L : Lib}.

Lemma count_events_app p l1 l2 :
  count_events p (l1 ++ l2) = (count_events p l1 + count_events p l2)%nat.
Proof. unfold count_events. rewrite filter_app, length_app. reflexivity. Qed.

Lemma count_events_flat_map {A} p (F : A -> list Event) n xs :
  (forall x, count_events p (F x) = n) ->
  count_events p (flat_map F xs) = (length xs * n)%nat.
Proof.
  intros HF. induction xs as [| x xs IH]; simpl; [reflexivity |].
  rewrite count_events_app, HF, IH. reflexivity.
Qed.

Lemma plt_plot_results xs ys s r s' :
  plt_plot xs ys s = (r, s') ->
  results s' = results s /\ basis_results s' = basis_results s.
Proof.
  unfold plt_plot. destruct (Nat.eqb _ _); intros H; inversion H; auto.
Qed.

Lemma cell8_sweep_log g e ranks s s' :
  cell8_sweep g e ranks s = (Ok tt, s') ->
  log s' = log s ++ flat_map (cell8_step_events (g_num_spatial_orbs g)) ranks.
Proof.
  intros H.
  apply (for_log_ok (cell8_body g e)) with (2 := H).
  intros x s0 s1 H0.
  destruct (cell8_body_ok _ _ _ _ _ H0) as (st & m & _ & _ & _ & _ & Hlog & _).
  exact Hlog.
Qed.

Lemma cell8_sweep_mp2 g e ranks s s' :
  cell8_sweep g e ranks s = (Ok tt, s') ->
  exists l, length l = length ranks /\
            delta_mp2 s' = delta_mp2 s ++ map (fun a => (e - a)%Q) l.
Proof.
  intros H.
  apply (for_mapped (cell8_body g e) delta_mp2 (fun a => (e - a)%Q)) with (2 := H).
  intros x s0 s1 H0.
  destruct (cell8_body_ok _ _ _ _ _ H0) as (st & m & _ & _ & _ & Hd & _).
  eauto.
Qed.

Lemma cell17_sweep_log nso mf e mesh ranks s s' :
  cell17_sweep nso mf e mesh ranks s = (Ok tt, s') ->
  log s' = log s ++ flat_map (mp2_step_events nso) ranks.
Proof.
  intros H.
  apply (for_log_ok (cell17_body nso mf e mesh)) with (2 := H).
  intros x s0 s1 H0.
  destruct (cell17_body_ok _ _ _ _ _ _ _ H0) as (a & _ & _ & Hlog & _).
  exact Hlog.
Qed.

Lemma cell17_sweep_mp2 nso mf e mesh ranks s s' :
  cell17_sweep nso mf e mesh ranks s = (Ok tt, s') ->
  exists l, length l = length ranks /\
            results_at mesh s' = results_at mesh s ++ map (fun a => (e - a)%Q) l.
Proof.
  intros H.
  apply (for_mapped (cell17_body nso mf e mesh) (results_at mesh)
                    (fun a => (e - a)%Q)) with (2 := H).
  intros x s0 s1 H0.
  destruct (cell17_body_ok _ _ _ _ _ _ _ H0) as (a & _ & Hd & _).
  eauto.
Qed.

Lemma cell19_sweep_log nso mf e basis ranks s s' :
  cell19_sweep nso mf e basis ranks s = (Ok tt, s') ->
  log s' = log s ++ flat_map (mp2_step_events nso) ranks.
Proof.
  intros H.
  apply (for_log_ok (cell19_body nso mf e basis)) with (2 := H).
  intros x s0 s1 H0.
  destruct (cell19_body_ok _ _ _ _ _ _ _ H0) as (a & _ & _ & Hlog & _).
  exact Hlog.
Qed.

Lemma cell19_sweep_mp2 nso mf e basis ranks s s' :
  cell19_sweep nso mf e basis ranks s = (Ok tt, s') ->
  exists l, length l = length ranks /\
            basis_results_at basis s' =
            basis_results_at basis s ++ map (fun a => (e - a)%Q) l.
Proof.
  intros H.
  apply (for_mapped (cell19_body nso mf e basis) (basis_results_at basis)
                    (fun a => (e - a)%Q)) with (2 := H).
  intros x s0 s1 H0.
  destruct (cell19_body_ok _ _ _ _ _ _ _ H0) as (a & _ & Hd & _).
  eauto.
Qed.

(** Cell 8, completed: the reference energy is computed once, before the
    sweep; the exact tensor once in every step. *)
Lemma cell8_references g s s' :
  cell8 g s = (Ok tt, s') ->
  exists e_ref l,
    log s' = log s ++ [EvBuildCC; EvAo2mo; EvInitAmps] ++
             flat_map (cell8_step_events (g_num_spatial_orbs g)) thc_ranks /\
    length l = length thc_ranks /\
    delta_mp2 s' = map (fun a => (e_ref - a)%Q) l.
Proof.
  intros H. unfold cell8 in H. ok_inv.
  match goal with
  | H : cell8_sweep _ ?e _ _ = _ |- _ =>
      pose proof (cell8_sweep_log _ _ _ _ _ H) as Hlog;
        destruct (cell8_sweep_mp2 _ _ _ _ _ H) as [l [Hl Hd]];
        exists e, l
  end.
  subst. rewrite Hlog, Hd. simpl.
  repeat rewrite <- app_assoc. simpl. auto.
Qed.

(** One mesh of cell 17, completed. *)
Lemma cell17_mesh_references nso mesh s s' :
  cell17_mesh nso mesh s = (Ok tt, s') ->
  exists e_ref l,
    log s' = log s ++ [EvBuildCell "gth-szv" [mesh; mesh; mesh]; EvMakeKpts;
                       EvSCF; EvKMP2] ++
             flat_map (mp2_step_events nso) thc_ranks /\
    length l = length thc_ranks /\
    results_at mesh s' = results_at mesh s ++ map (fun a => (e_ref - a)%Q) l.
Proof.
  intros H. unfold cell17_mesh in H. ok_inv.
  match goal with
  | H : match ?o with _ => _ end _ = _ |- _ =>
      destruct o; [| discriminate];
        pose proof (plt_plot_log _ _ _ _ _ H) as Hpl;
        destruct (plt_plot_results _ _ _ _ _ H) as [Hpr _]
  end.
  match goal with
  | H : cell17_sweep _ _ ?e _ _ _ = _ |- _ =>
      pose proof (cell17_sweep_log _ _ _ _ _ _ _ H) as Hlog;
        destruct (cell17_sweep_mp2 _ _ _ _ _ _ _ H) as [vals [Hl Hd]];
        exists e, vals
  end.
  subst. unfold results_at in *. rewrite Hpl, Hpr, Hlog, Hd. simpl.
  repeat rewrite <- app_assoc. simpl. auto.
Qed.

(** One basis of cell 19, completed. *)
Lemma cell19_basis_references basis s s' :
  cell19_basis basis s = (Ok tt, s') ->
  exists mf e_ref l,
    log s' = log s ++ [EvBuildCell basis [15; 15; 15]; EvMakeKpts;
                       EvSCF; EvKMP2] ++
             flat_map (mp2_step_events (mo_coeff_shape_last mf)) thc_ranks /\
    length l = length thc_ranks /\
    basis_results_at basis s' =
    basis_results_at basis s ++ map (fun a => (e_ref - a)%Q) l.
Proof.
  intros H. unfold cell19_basis in H. ok_inv.
  match goal with
  | H : match ?o with _ => _ end _ = _ |- _ =>
      destruct o; [| discriminate];
        pose proof (plt_plot_log _ _ _ _ _ H) as Hpl;
        destruct (plt_plot_results _ _ _ _ _ H) as [_ Hpr]
  end.
  match goal with
  | H : cell19_sweep _ ?mf ?e _ _ _ = _ |- _ =>
      pose proof (cell19_sweep_log _ _ _ _ _ _ _ H) as Hlog;
        destruct (cell19_sweep_mp2 _ _ _ _ _ _ _ H) as [vals [Hl Hd]];
        exists mf, e, vals
  end.
  subst. unfold basis_results_at in *. rewrite Hpl, Hpr, Hlog, Hd. simpl.
  repeat rewrite <- app_assoc. simpl. auto.
Qed.

End References.

(** ** The library calls of a run *)

(** Projections of the states that the inversion of a run builds. *)
Ltac state_simpl :=
  cbn [world log delta_eri delta_mp2 results basis_results figure stdout
       set_world add_log set_delta_eri set_delta_mp2 set_results
       set_basis_results set_figure add_stdout] in *.

Section Chains.

Context {L : Lib}.

(** *** What a step asks of the factorisation routine *)

Lemma cell8_body_requests g e c s r s' :
  cell8_body g e c s = (r, s') ->
  requests_factorisation (g_mf g) (Np.int64_mul c (g_num_spatial_orbs g))
                         s r s'.
Proof.
  intros H. unfold requests_factorisation.
  unfold cell8_body, bind, call, lift, modify in H. simpl in H.
  destruct (solve_kmeans_kpisdf _ _ (world s)) as [[k | x] g1] eqn:E1.
  - exists (Ok k), g1. split; [reflexivity |]. simpl in H.
    destruct (KPTHCHelperDoubleTranslation _ _ _ g1) as [[h | x] g2] eqn:E2.
    + exists (Ok h), g2. split; [reflexivity | exact I].
    + exists (Raise x), g2. split; [reflexivity |].
      inversion H; subst. split; reflexivity.
  - exists (Raise x), g1. split; [reflexivity |].
    inversion H; subst. split; reflexivity.
Qed.

Lemma cell17_body_requests nso mf e mesh c s r s' :
  cell17_body nso mf e mesh c s = (r, s') ->
  requests_factorisation mf (Np.int64_mul c nso) s r s'.
Proof.
  intros H. unfold requests_factorisation.
  unfold cell17_body, bind, call, print, modify in H. simpl in H.
  destruct (solve_kmeans_kpisdf _ _ (world s)) as [[k | x] g1] eqn:E1.
  - exists (Ok k), g1. split; [reflexivity |]. simpl in H.
    destruct (KPTHCHelperDoubleTranslation _ _ _ g1) as [[h | x] g2] eqn:E2.
    + exists (Ok h), g2. split; [reflexivity | exact I].
    + exists (Raise x), g2. split; [reflexivity |].
      inversion H; subst. split; reflexivity.
  - exists (Raise x), g1. split; [reflexivity |].
    inversion H; subst. split; reflexivity.
Qed.

Lemma cell19_body_requests nso mf e basis c s r s' :
  cell19_body nso mf e basis c s = (r, s') ->
  requests_factorisation mf (Np.int64_mul c nso) s r s'.
Proof.
  intros H. unfold requests_factorisation.
  unfold cell19_body, bind, call, print, modify in H. simpl in H.
  destruct (solve_kmeans_kpisdf _ _ (world s)) as [[k | x] g1] eqn:E1.
  - exists (Ok k), g1. split; [reflexivity |]. simpl in H.
    destruct (KPTHCHelperDoubleTranslation _ _ _ g1) as [[h | x] g2] eqn:E2.
    + exists (Ok h), g2. split; [reflexivity | exact I].
    + exists (Raise x), g2. split; [reflexivity |].
      inversion H; subst. split; reflexivity.
  - exists (Raise x), g1. split; [reflexivity |].
    inversion H; subst. split; reflexivity.
Qed.

Lemma cell22_body_requests mf hcore nso e c s r s' :
  cell22_body mf hcore nso e c s = (r, s') ->
  requests_factorisation mf (Np.int64_mul c nso) s r s'.
Proof.
  intros H. unfold requests_factorisation.
  unfold cell22_body, bind, call, print, modify in H. simpl in H.
  destruct (solve_kmeans_kpisdf _ _ (world s)) as [[k | x] g1] eqn:E1.
  - exists (Ok k), g1. split; [reflexivity |]. simpl in H.
    destruct (KPTHCHelperDoubleTranslation _ _ _ g1) as [[h | x] g2] eqn:E2.
    + exists (Ok h), g2. split; [reflexivity | exact I].
    + exists (Raise x), g2. split; [reflexivity |].
      inversion H; subst. split; reflexivity.
  - exists (Raise x), g1. split; [reflexivity |].
    inversion H; subst. split; reflexivity.
Qed.

(** *** The calls of a completed sweep *)

Lemma cell8_sweep_chain g e ranks :
  forall s s',
    cell8_sweep g e ranks s = (Ok tt, s') ->
    exists sts ds,
      calls_chain (cell8_calls g) ranks (world s) sts (world s') /\
      delta_mp2 s' =
      delta_mp2 s ++ map (fun st => (e - emp2_approx st)%Q) sts /\
      delta_eri s' = delta_eri s ++ ds /\
      Forall2 (eri_deviation g) sts ds.
Proof.
  unfold cell8_sweep. induction ranks as [| c ranks IH]; intros s s' H.
  - inversion H; subst. exists [], []. cbn [map calls_chain].
    rewrite !app_nil_r. repeat split; constructor.
  - destruct (for_cons_ok _ _ _ _ _ H) as [s1 [H1 H2]].
    destruct (cell8_body_ok _ _ _ _ _ H1) as (st & m & Hc & Hm & Hd & He & _).
    destruct (IH _ _ H2) as (sts & ds & Hch & He' & Hd' & Hall).
    exists (st :: sts), ((m / inject_Z (g_num_kpts g))%Q :: ds).
    split; [cbn [calls_chain]; eauto |].
    split; [rewrite He', He, <- app_assoc; reflexivity |].
    split; [rewrite Hd', Hd, <- app_assoc; reflexivity |].
    constructor; [exists m; auto | exact Hall].
Qed.

Lemma cell17_sweep_chain nso mf e mesh ranks :
  forall s s',
    cell17_sweep nso mf e mesh ranks s = (Ok tt, s') ->
    exists l,
      calls_chain (mp2_calls mf nso) ranks (world s) l (world s') /\
      results_at mesh s' = results_at mesh s ++ map (fun a => (e - a)%Q) l.
Proof.
  unfold cell17_sweep. induction ranks as [| c ranks IH]; intros s s' H.
  - inversion H; subst. exists []. cbn [map calls_chain].
    rewrite app_nil_r. split; reflexivity.
  - destruct (for_cons_ok _ _ _ _ _ H) as [s1 [H1 H2]].
    destruct (cell17_body_ok _ _ _ _ _ _ _ H1) as (a & Hc & Hr & _).
    destruct (IH _ _ H2) as (l & Hch & Hr').
    exists (a :: l). split; [cbn [calls_chain]; eauto |].
    rewrite Hr', Hr, <- app_assoc. reflexivity.
Qed.

Lemma cell19_sweep_chain nso mf e basis ranks :
  forall s s',
    cell19_sweep nso mf e basis ranks s = (Ok tt, s') ->
    exists l,
      calls_chain (mp2_calls mf nso) ranks (world s) l (world s') /\
      basis_results_at basis s' =
      basis_results_at basis s ++ map (fun a => (e - a)%Q) l.
Proof.
  unfold cell19_sweep. induction ranks as [| c ranks IH]; intros s s' H.
  - inversion H; subst. exists []. cbn [map calls_chain].
    rewrite app_nil_r. split; reflexivity.
  - destruct (for_cons_ok _ _ _ _ _ H) as [s1 [H1 H2]].
    destruct (cell19_body_ok _ _ _ _ _ _ _ H1) as (a & Hc & Hr & _).
    destruct (IH _ _ H2) as (l & Hch & Hr').
    exists (a :: l). split; [cbn [calls_chain]; eauto |].
    rewrite Hr', Hr, <- app_assoc. reflexivity.
Qed.

Lemma cell22_sweep_chain mf hcore nso e ranks :
  forall s s',
    cell22_sweep mf hcore nso e ranks s = (Ok tt, s') ->
    exists vals,
      calls_chain (cell22_step_calls mf hcore nso) ranks
                  (world s) vals (world s') /\
      stdout s' = stdout s ++ cell22_report_lines e (e_tot mf) ranks vals.
Proof.
  unfold cell22_sweep, cell22_report_lines.
  induction ranks as [| c ranks IH]; intros s s' H.
  - inversion H; subst. exists []. cbn [combine flat_map calls_chain].
    rewrite app_nil_r. split; reflexivity.
  - destruct (for_cons_ok _ _ _ _ _ H) as [s1 [H1 H2]].
    destruct (cell22_body_ok _ _ _ _ _ _ _ H1) as (a & lam & Hc & Hout & _).
    destruct (IH _ _ H2) as (vals & Hch & Hout').
    exists ((a, lam) :: vals).
    split; [cbn [calls_chain]; exists (world s1); split; [exact Hc | exact Hch] |].
    rewrite Hout', Hout, <- app_assoc. reflexivity.
Qed.

Lemma cell22_sweep_log mf hcore nso e ranks s s' :
  cell22_sweep mf hcore nso e ranks s = (Ok tt, s') ->
  log s' = log s ++ flat_map (cell22_step_events nso) ranks.
Proof.
  intros H.
  apply (for_log_ok (cell22_body mf hcore nso e)) with (2 := H).
  intros x s0 s1 H0.
  destruct (cell22_body_ok _ _ _ _ _ _ _ H0) as (a & lam & _ & _ & Hlog & _).
  exact Hlog.
Qed.

(** The chain of a sweep has one entry per rank parameter. *)
Lemma calls_chain_length {X} (calls : Z -> World -> X -> World -> Prop) ranks :
  forall g0 xs g', calls_chain calls ranks g0 xs g' -> length xs = length ranks.
Proof.
  induction ranks as [| c ranks IH]; intros g0 [| x xs] g' H;
    cbn [calls_chain] in H; try contradiction; [reflexivity |].
  destruct H as (g1 & _ & H). simpl. f_equal. eapply IH. exact H.
Qed.

(** *** The calls of a completed cell *)

Lemma cell8_run g s s' :
  cell8 g s = (Ok tt, s') ->
  exists e_ref sts,
    cell8_run_calls g (world s) e_ref sts (world s') /\
    delta_mp2 s' = map (fun st => (e_ref - emp2_approx st)%Q) sts /\
    Forall2 (eri_deviation g) sts (delta_eri s') /\
    log s' = log s ++ [EvBuildCC; EvAo2mo; EvInitAmps] ++
             flat_map (cell8_step_events (g_num_spatial_orbs g)) thc_ranks.
Proof.
  intros H. unfold cell8 in H. ok_inv.
  match goal with
  | H : cell8_sweep _ ?e _ _ = _ |- _ =>
      destruct (cell8_sweep_chain _ _ _ _ _ H)
        as (sts & ds & Hch & Hm & Hd & Hall);
        pose proof (cell8_sweep_log _ _ _ _ _ H) as Hlog;
        clear H; exists e, sts
  end.
  subst. state_simpl. rewrite Hm, Hd, Hlog. cbn [app].
  split; [| split; [reflexivity | split; [exact Hall |]]].
  - unfold cell8_run_calls. do 6 eexists.
    repeat (split; [eassumption |]). split; [reflexivity | exact Hch].
  - repeat rewrite <- app_assoc. reflexivity.
Qed.

Lemma cell17_mesh_run nso mesh s s' :
  cell17_mesh nso mesh s = (Ok tt, s') ->
  exists mf e_ref l,
    cell17_mesh_calls nso mesh (world s) mf e_ref l (world s') /\
    results_at mesh s' =
    results_at mesh s ++ map (fun a => (e_ref - a)%Q) l /\
    log s' = log s ++ cell17_mesh_events nso mesh.
Proof.
  intros H. unfold cell17_mesh in H. ok_inv.
  match goal with
  | H : match ?o with _ => _ end _ = _ |- _ =>
      destruct o as [ys |]; [| discriminate];
        unfold plt_plot in H; destruct (Nat.eqb _ _); [| discriminate];
        inversion H; clear H
  end.
  match goal with
  | H : cell17_sweep _ ?mf ?e _ _ _ = _ |- _ =>
      destruct (cell17_sweep_chain _ _ _ _ _ _ _ H) as (l & Hch & Hr);
        pose proof (cell17_sweep_log _ _ _ _ _ _ _ H) as Hlog;
        clear H; exists mf, e, l
  end.
  subst. unfold results_at in *. state_simpl.
  split; [| split; [exact Hr |]].
  - unfold cell17_mesh_calls. do 7 eexists.
    repeat (split; [eassumption |]). split; [reflexivity | exact Hch].
  - rewrite Hlog. unfold cell17_mesh_events. state_simpl.
    repeat rewrite <- app_assoc. reflexivity.
Qed.

Lemma cell19_sweep_draws_nothing nso mf e basis ranks s s' :
  cell19_sweep nso mf e basis ranks s = (Ok tt, s') -> figure s' = figure s.
Proof.
  intros H.
  apply (for_ok_respects (fun s s' => figure s' = figure s)
                         (cell19_body nso mf e basis)) with (4 := H).
  - reflexivity.
  - intros s1 s2 s3 H12 H23. congruence.
  - intros x s0 s1 H0.
    destruct (cell19_body_ok _ _ _ _ _ _ _ H0)
      as (a & _ & _ & _ & _ & _ & _ & _ & Hf).
    exact Hf.
Qed.

Lemma cell19_basis_run basis s s' :
  cell19_basis basis s = (Ok tt, s') ->
  exists mf e_ref l,
    cell19_basis_calls basis (world s) mf e_ref l (world s') /\
    basis_results_at basis s' =
    basis_results_at basis s ++ map (fun a => (e_ref - a)%Q) l /\
    figure s' =
    figure s ++
    [(map (fun c => Np.int64_mul c (mo_coeff_shape_last mf)) thc_ranks,
      Np.abs Qabs (basis_results_at basis s'))] /\
    log s' = log s ++ cell19_basis_events (basis, mo_coeff_shape_last mf).
Proof.
  intros H. unfold cell19_basis in H. ok_inv.
  match goal with
  | H : cell19_sweep _ ?mf ?e _ _ _ = _ |- _ =>
      destruct (cell19_sweep_chain _ _ _ _ _ _ _ H) as (l & Hch & Hr);
        pose proof (cell19_sweep_draws_nothing _ _ _ _ _ _ _ H) as Hf;
        pose proof (cell19_sweep_log _ _ _ _ _ _ _ H) as Hlog;
        clear H; exists mf, e, l
  end.
  match goal with
  | H : match ?o with _ => _ end _ = _ |- _ =>
      destruct o as [ys |] eqn:Hget; [| discriminate];
        unfold plt_plot in H; destruct (Nat.eqb _ _); [| discriminate];
        inversion H; clear H
  end.
  subst. unfold basis_results_at in *. state_simpl.
  split; [| split; [exact Hr | split]].
  - unfold cell19_basis_calls. do 7 eexists.
    repeat (split; [eassumption |]). split; [reflexivity | exact Hch].
  - match goal with Hg : dict_get _ _ _ = Some _ |- _ => rewrite Hg end.
    rewrite Hf. reflexivity.
  - rewrite Hlog. unfold cell19_basis_events. state_simpl.
    repeat rewrite <- app_assoc. reflexivity.
Qed.

Lemma cell22_run s s' :
  cell22 s = (Ok tt, s') ->
  exists mf hcore emp2_exact vals,
    cell22_run_calls (world s) mf hcore emp2_exact vals (world s') /\
    stdout s' =
    stdout s ++
    [PrSCF (e_tot mf); PrFFTDF emp2_exact] ++
    cell22_report_lines emp2_exact (e_tot mf) thc_ranks vals /\
    log s' = log s ++ cell22_events (hcore_shape_last hcore).
Proof.
  intros H. unfold cell22, cell22_seeded in H. ok_inv.
  match goal with
  | H : cell22_sweep ?mf ?hcore _ ?e _ _ = _ |- _ =>
      destruct (cell22_sweep_chain _ _ _ _ _ _ _ H) as (vals & Hch & Hout);
        pose proof (cell22_sweep_log _ _ _ _ _ _ _ H) as Hlog;
        clear H; exists mf, hcore, e, vals
  end.
  subst. state_simpl. split; [| split].
  - unfold cell22_run_calls. do 11 eexists.
    repeat (split; [eassumption |]). exact Hch.
  - rewrite Hout. repeat rewrite <- app_assoc. reflexivity.
  - rewrite Hlog. unfold cell22_events. state_simpl.
    repeat rewrite <- app_assoc. reflexivity.
Qed.

End Chains.

(** C9. In every step of the four sweeps, completed or not, the
    factorisation routine is called once, on the state of the libraries
    at the start of the step, with [cthc * num_spatial_orbs]
    interpolation points: when it raises the step raises with it, when
    it returns the helper of the step is built from its result. The
    product is an [np.int64] product: the plain product when it fits 64
    bits, as it does for the ranks of the notebook and fewer than 2^58
    orbitals. The number of orbitals is that of cell 6 in cells 8 and
    17, so that the requests of cell 17 are the same for every mesh;
    cell 19 takes it from the mean field of the basis and cell 22 from
    [hcore]. *)
Theorem C9_points_requested
        (L : Lib) (g : Globals) (nso : Z) (mf : MF) (hcore : Hcore) (e : Q)
        (mesh : Z) (basis : string) (c : Z) (s : State) :
  (forall r s', cell8_body g e c s = (r, s') ->
     requests_factorisation
       (g_mf g) (Np.int64_mul c (g_num_spatial_orbs g)) s r s' /\
     solve_requests (log s') =
     solve_requests (log s) ++ [Np.int64_mul c (g_num_spatial_orbs g)]) /\
  (forall r s', cell17_body nso mf e mesh c s = (r, s') ->
     requests_factorisation mf (Np.int64_mul c nso) s r s' /\
     solve_requests (log s') = solve_requests (log s) ++ [Np.int64_mul c nso]) /\
  (forall r s', cell19_body nso mf e basis c s = (r, s') ->
     requests_factorisation mf (Np.int64_mul c nso) s r s' /\
     solve_requests (log s') = solve_requests (log s) ++ [Np.int64_mul c nso]) /\
  (forall r s', cell22_body mf hcore nso e c s = (r, s') ->
     requests_factorisation mf (Np.int64_mul c nso) s r s' /\
     solve_requests (log s') = solve_requests (log s) ++ [Np.int64_mul c nso]) /\
  (- 2 ^ 63 <= c * nso < 2 ^ 63 -> Np.int64_mul c nso = c * nso) /\
  (0 <= nso < 2 ^ 58 ->
   map (fun c => Np.int64_mul c nso) thc_ranks =
   map (fun c => c * nso) [2; 4; 6; 8; 10; 12; 14; 16; 18]) /\
  (forall s', cell17 nso s = (Ok tt, s') ->
     solve_requests (log s') =
     solve_requests (log s) ++
     flat_map (fun _ => map (fun c => Np.int64_mul c nso) thc_ranks)
              cell17_meshes) /\
  (forall s', cell17_mesh nso mesh s = (Ok tt, s') ->
     exists mf' e_ref l,
       cell17_mesh_calls nso mesh (world s) mf' e_ref l (world s')) /\
  (forall s', cell19_basis basis s = (Ok tt, s') ->
     exists mf' e_ref l,
       cell19_basis_calls basis (world s) mf' e_ref l (world s') /\
       solve_requests (log s') =
       solve_requests (log s) ++
       map (fun c => Np.int64_mul c (mo_coeff_shape_last mf')) thc_ranks) /\
  (forall s', cell22 s = (Ok tt, s') ->
     exists mf' hcore' emp2_exact vals,
       cell22_run_calls (world s) mf' hcore' emp2_exact vals (world s') /\
       solve_requests (log s') =
       solve_requests (log s) ++
       map (fun c => Np.int64_mul c (hcore_shape_last hcore')) thc_ranks).
Proof.
  repeat match goal with |- _ /\ _ => split end.
  - intros r s' H. split.
    + apply (cell8_body_requests _ _ _ _ _ _ H).
    + apply (cell8_body_any _ _ _ _ _ _ H).
  - intros r s' H. split.
    + apply (cell17_body_requests _ _ _ _ _ _ _ _ H).
    + apply (cell17_body_any _ _ _ _ _ _ _ _ H).
  - intros r s' H. split.
    + apply (cell19_body_requests _ _ _ _ _ _ _ _ H).
    + apply (cell19_body_any _ _ _ _ _ _ _ _ H).
  - intros r s' H. split.
    + apply (cell22_body_requests _ _ _ _ _ _ _ _ H).
    + apply (cell22_body_any _ _ _ _ _ _ _ _ H).
  - apply wrap64_small.
  - apply thc_ranks_requests.
  - intros s'. apply cell17_requests.
  - intros s' H.
    destruct (cell17_mesh_run _ _ _ _ H) as (mf' & e_ref & l & Hc & _).
    eauto.
  - intros s' H.
    destruct (cell19_basis_run _ _ _ H)
      as (mf' & e_ref & l & Hc & _ & _ & Hlog).
    exists mf', e_ref, l. split; [exact Hc |].
    rewrite Hlog, solve_requests_app. reflexivity.
  - intros s' H.
    destruct (cell22_run _ _ H) as (mf' & hcore' & e0 & vals & Hc & _ & Hlog).
    exists mf', hcore', e0, vals. split; [exact Hc |].
    rewrite Hlog, solve_requests_app. reflexivity.
Qed.

(** Cell 17 in the small library, with eight orbitals, and the step of
    the rank parameter 4 when the factorisation with 32 points raises. *)
Lemma C9_witness :
  (- 2 ^ 63 <= 18 * 8 < 2 ^ 63) /\ (0 <= 8 < 2 ^ 58) /\
  Np.int64_mul 18 8 = 144 /\
  solve_requests
    (log (snd (@cell17 (Toy.lib []) 8 (Toy.init [] 0)))) =
  flat_map (fun _ => [16; 32; 48; 64; 80; 96; 112; 128; 144]) cell17_meshes /\
  @requests_factorisation
    (Toy.lib [32]) tt 32 (Toy.init [32] 0)
    (Raise (LibraryError "kmeans"))
    (snd (@cell8_body (Toy.lib [32]) (Toy.globals [32]) 0%Q 4
                      (Toy.init [32] 0))).
Proof.
  assert (H1 : - 2 ^ 63 <= 18 * 8 < 2 ^ 63) by (split; [discriminate | reflexivity]).
  assert (H2 : 0 <= 8 < 2 ^ 58) by (split; [discriminate | reflexivity]).
  destruct (C9_points_requested
              (Toy.lib []) (Toy.globals []) 8 tt tt 0%Q 11 "gth-szv" 18
              (Toy.init [] 0))
    as (_ & _ & _ & _ & Hmul & Hranks & H17 & _).
  split; [exact H1 |]. split; [exact H2 |]. split; [exact (Hmul H1) |].
  split.
  - rewrite (H17 (snd (@cell17 (Toy.lib []) 8 (Toy.init [] 0))))
      by (vm_compute; reflexivity).
    rewrite (Hranks H2). reflexivity.
  - destruct (C9_points_requested
                (Toy.lib [32]) (Toy.globals [32]) 8 tt tt 0%Q 11 "gth-szv" 4
                (Toy.init [32] 0)) as (H8 & _).
    apply (H8 (Raise (LibraryError "kmeans"))
              (snd (@cell8_body (Toy.lib [32]) (Toy.globals [32]) 0%Q 4
                                (Toy.init [32] 0)))).
    vm_compute. reflexivity.
Defined.

(** C7, as the code has it. The reference energy is computed exactly
    once per configuration, before the rank sweep, from the result of
    [KMP2(mf).kernel()] (per mesh in cell 17, per basis in cell 19) or
    of [init_amps] (once in cell 8), plus [mf.e_tot]; every step of the
    sweep records the difference between that one value and the
    approximate energy that the library returned in the step. The exact
    integral tensor of cell 8 is instead computed anew in every step of
    the sweep, by [get_eri_exact] of the helper of that step. *)
Theorem C7_reference_results
        (L : Lib) (g : Globals) (nso mesh : Z) (basis : string) (s s' : State) :
  (cell17_mesh nso mesh s = (Ok tt, s') ->
   exists mf e_ref l,
     cell17_mesh_calls nso mesh (world s) mf e_ref l (world s') /\
     length l = length thc_ranks /\
     results_at mesh s' = results_at mesh s ++ map (fun a => (e_ref - a)%Q) l /\
     log s' = log s ++ [EvBuildCell "gth-szv" [mesh; mesh; mesh]; EvMakeKpts;
                        EvSCF; EvKMP2] ++
              flat_map (mp2_step_events nso) thc_ranks /\
     count_events is_energy_reference (log s') =
     (count_events is_energy_reference (log s) + 1)%nat) /\
  (cell19_basis basis s = (Ok tt, s') ->
   exists mf e_ref l,
     cell19_basis_calls basis (world s) mf e_ref l (world s') /\
     length l = length thc_ranks /\
     basis_results_at basis s' =
     basis_results_at basis s ++ map (fun a => (e_ref - a)%Q) l /\
     log s' = log s ++ [EvBuildCell basis [15; 15; 15]; EvMakeKpts;
                        EvSCF; EvKMP2] ++
              flat_map (mp2_step_events (mo_coeff_shape_last mf)) thc_ranks /\
     count_events is_energy_reference (log s') =
     (count_events is_energy_reference (log s) + 1)%nat) /\
  (cell8 g s = (Ok tt, s') ->
   exists e_ref sts,
     cell8_run_calls g (world s) e_ref sts (world s') /\
     length sts = length thc_ranks /\
     delta_mp2 s' = map (fun st => (e_ref - emp2_approx st)%Q) sts /\
     log s' = log s ++ [EvBuildCC; EvAo2mo; EvInitAmps] ++
              flat_map (cell8_step_events (g_num_spatial_orbs g)) thc_ranks /\
     count_events is_energy_reference (log s') =
     (count_events is_energy_reference (log s) + 1)%nat /\
     count_events is_tensor_reference (log s') =
     (count_events is_tensor_reference (log s) + length thc_ranks)%nat).
Proof.
  split; [| split]; intros H.
  - destruct (cell17_mesh_run _ _ _ _ H) as (mf & e_ref & l & Hc & Hr & Hlog).
    exists mf, e_ref, l. split; [exact Hc |]. split.
    { destruct Hc as (? & ? & ? & ? & ? & ? & ? & _ & _ & _ & _ & _ & Hch).
      apply (calls_chain_length _ _ _ _ _ Hch). }
    split; [exact Hr |]. split; [exact Hlog |].
    rewrite Hlog. unfold cell17_mesh_events. rewrite !count_events_app.
    rewrite (count_events_flat_map _ _ 0%nat) by reflexivity.
    rewrite Nat.mul_0_r. reflexivity.
  - destruct (cell19_basis_run _ _ _ H)
      as (mf & e_ref & l & Hc & Hr & _ & Hlog).
    exists mf, e_ref, l. split; [exact Hc |]. split.
    { destruct Hc as (? & ? & ? & ? & ? & ? & ? & _ & _ & _ & _ & _ & Hch).
      apply (calls_chain_length _ _ _ _ _ Hch). }
    split; [exact Hr |]. split; [exact Hlog |].
    rewrite Hlog. unfold cell19_basis_events. rewrite !count_events_app.
    rewrite (count_events_flat_map _ _ 0%nat) by reflexivity.
    rewrite Nat.mul_0_r. reflexivity.
  - destruct (cell8_run _ _ _ H) as (e_ref & sts & Hc & Hm & _ & Hlog).
    exists e_ref, sts. split; [exact Hc |]. split.
    { destruct Hc as (? & ? & ? & ? & ? & ? & _ & _ & _ & _ & Hch).
      apply (calls_chain_length _ _ _ _ _ Hch). }
    split; [exact Hm |]. split; [exact Hlog |].
    split; rewrite Hlog, !count_events_app.
    + rewrite (count_events_flat_map _ _ 0%nat) by reflexivity.
      rewrite Nat.mul_0_r. reflexivity.
    + rewrite (count_events_flat_map _ _ 1%nat) by reflexivity.
      rewrite Nat.mul_1_r. reflexivity.
Qed.

(** One mesh of cell 17 in the small library: the reference energy is
    what [KMP2(mf).kernel()] and [mf.e_tot] gave, 0 + 0. *)
Lemma C7_witness :
  exists s' e_ref l,
    @cell17_mesh (Toy.lib []) 8 11 (Toy.init17 []) = (Ok tt, s') /\
    length l = 9%nat /\
    e_ref = (0 + 0)%Q /\
    results_at 11 s' = map (fun a => (e_ref - a)%Q) l /\
    count_events is_energy_reference (log s') = 1%nat.
Proof.
  exists (snd (@cell17_mesh (Toy.lib []) 8 11 (Toy.init17 []))).
  assert (H : @cell17_mesh (Toy.lib []) 8 11 (Toy.init17 [])
              = (Ok tt, snd (@cell17_mesh (Toy.lib []) 8 11 (Toy.init17 []))))
    by (vm_compute; reflexivity).
  edestruct (C7_reference_results
               (Toy.lib []) (Toy.globals []) 8 11 "gth-szv" (Toy.init17 []))
    as [H17 _].
  destruct (H17 H) as (mf & e_ref & l & Hcalls & Hl & Hr & _ & Hc).
  exists e_ref, l.
  split; [exact H |]. split; [exact Hl |]. split.
  - destruct Hcalls as (cell & kpts & e0 & g1 & g2 & g3 & g4
                        & _ & _ & _ & Hk & He & _).
    inversion Hk. subst. reflexivity.
  - split; [exact Hr | exact Hc].
Defined.

(** C7 as stated fails for the exact integral tensor: cell 8, run to
    completion, calls [get_eri_exact] nine times, once in every step of
    the sweep and after the factorisation of that step. *)
Lemma C7_counterexample :
  exists s',
    @cell8 (Toy.lib []) (Toy.globals []) (Toy.init [] 0) = (Ok tt, s') /\
    count_events is_tensor_reference (log s') = 9%nat /\
    firstn 8 (log s') =
    [EvBuildCC; EvAo2mo; EvInitAmps;
     EvSolve 16; EvHelper; EvGetEri; EvGetEriExact; EvEmp2Approx].
Proof.
  eexists. split; [vm_compute; reflexivity |].
  split; reflexivity.
Qed.

(** ** What the steps and the runs share *)

(** C8, as the code has it. The steps of a sweep share, besides the
    records they append to, the state of the libraries, numpy's global
    random generator included, which the library calls of a step read
    and may change: the calls of a step start from the state that the
    calls of the step before it left, and no step reseeds the generator.
    Cell 22 applies [np.random.seed(7)] once, before its first step;
    the sweeps of cells 8, 17 and 19 apply no seed. Each entry recorded
    is computed from what the library returned in its own step. *)
Theorem C8_steps_share_state
        (L : Lib) (g : Globals) (mf : MF) (hcore : Hcore) (nso : Z) (e : Q)
        (mesh : Z) (basis : string) (ranks : list Z) (s s' : State) :
  (cell8_sweep g e ranks s = (Ok tt, s') ->
   exists sts ds,
     calls_chain (cell8_calls g) ranks (world s) sts (world s') /\
     delta_mp2 s' = delta_mp2 s ++ map (fun st => (e - emp2_approx st)%Q) sts /\
     delta_eri s' = delta_eri s ++ ds /\
     Forall2 (eri_deviation g) sts ds) /\
  (cell17_sweep nso mf e mesh ranks s = (Ok tt, s') ->
   exists l,
     calls_chain (mp2_calls mf nso) ranks (world s) l (world s') /\
     results_at mesh s' = results_at mesh s ++ map (fun a => (e - a)%Q) l) /\
  (cell19_sweep nso mf e basis ranks s = (Ok tt, s') ->
   exists l,
     calls_chain (mp2_calls mf nso) ranks (world s) l (world s') /\
     basis_results_at basis s' =
     basis_results_at basis s ++ map (fun a => (e - a)%Q) l) /\
  (cell22_seeded mf hcore nso e ranks s = (Ok tt, s') ->
   exists vals,
     calls_chain (cell22_step_calls mf hcore nso) ranks
                 (np_random_seed 7 (world s)) vals (world s') /\
     stdout s' =
     stdout s ++ PrFFTDF e :: cell22_report_lines e (e_tot mf) ranks vals).
Proof.
  split; [| split; [| split]]; intros H.
  - apply cell8_sweep_chain. exact H.
  - apply cell17_sweep_chain. exact H.
  - apply cell19_sweep_chain. exact H.
  - unfold cell22_seeded, seed in H.
    rewrite bind_modify, bind_print in H.
    destruct (cell22_sweep_chain _ _ _ _ _ _ _ H) as (vals & Hch & Hout).
    exists vals. split; [exact Hch |].
    rewrite Hout. state_simpl. rewrite <- app_assoc. reflexivity.
Qed.

(** The sweep of cell 8 over the rank parameters 2 and 4 in the small
    library, whose generator is a counter: the calls of the step of 4
    start from the state 1 that those of the step of 2 left. *)
Lemma C8_witness :
  exists s' st1 st2,
    @cell8_sweep (Toy.lib []) (Toy.globals []) 0%Q [2; 4] (Toy.init [] 0)
    = (Ok tt, s') /\
    @cell8_calls (Toy.lib []) (Toy.globals []) 2 0 st1 1 /\
    @cell8_calls (Toy.lib []) (Toy.globals []) 4 1 st2 2 /\
    delta_mp2 s' = [(0 - emp2_approx st1)%Q; (0 - emp2_approx st2)%Q].
Proof.
  exists (snd (@cell8_sweep (Toy.lib []) (Toy.globals []) 0%Q [2; 4]
                            (Toy.init [] 0))).
  assert (H : @cell8_sweep (Toy.lib []) (Toy.globals []) 0%Q [2; 4]
                           (Toy.init [] 0)
              = (Ok tt, snd (@cell8_sweep (Toy.lib []) (Toy.globals []) 0%Q
                                          [2; 4] (Toy.init [] 0))))
    by (vm_compute; reflexivity).
  destruct (C8_steps_share_state
              (Toy.lib []) (Toy.globals []) tt tt 8 0%Q 11 "gth-szv" [2; 4]
              (Toy.init [] 0)
              (snd (@cell8_sweep (Toy.lib []) (Toy.globals []) 0%Q [2; 4]
                                 (Toy.init [] 0)))) as (H8 & _).
  destruct (H8 H) as (sts & ds & Hch & Hm & _).
  destruct sts as [| st1 [| st2 [| st3 sts]]]; cbn [calls_chain] in Hch;
    try contradiction;
    try (destruct Hch as (g1 & _ & Hch); contradiction);
    try (destruct Hch as (g1 & _ & g2 & _ & Hch); contradiction).
  destruct Hch as (g1 & Hc1 & g2 & Hc2 & Hg).
  exists st1, st2. split; [exact H |].
  assert (Hg1 : g1 = 1).
  { destruct Hc1 as (k & h & w1 & w2 & w3 & w4 & E1 & E2 & E3 & E4 & E5).
    vm_compute in E1, E2, E3, E4, E5.
    inversion E1; inversion E2; inversion E3; inversion E4; inversion E5.
    congruence. }
  assert (Hg2 : g2 = 2).
  { subst g1.
    destruct Hc2 as (k & h & w1 & w2 & w3 & w4 & E1 & E2 & E3 & E4 & E5).
    vm_compute in E1, E2, E3, E4, E5.
    inversion E1; inversion E2; inversion E3; inversion E4; inversion E5.
    congruence. }
  subst g1 g2. split; [exact Hc1 |]. split; [exact Hc2 | exact Hm].
Defined.

(** C8 as stated fails: in the small library the factorisation draws
    from the generator, and the deviation recorded for the rank
    parameter 4 depends on whether the step of the parameter 2 ran
    before it. *)
Lemma C8_counterexample :
  exists s1 s2 d1 d2,
    @cell8_sweep (Toy.lib []) (Toy.globals []) 0%Q [2; 4] (Toy.init [] 0)
    = (Ok tt, s1) /\
    @cell8_sweep (Toy.lib []) (Toy.globals []) 0%Q [4] (Toy.init [] 0)
    = (Ok tt, s2) /\
    nth_error (delta_eri s1) 1 = Some d1 /\
    nth_error (delta_eri s2) 0 = Some d2 /\
    ~ (d1 == d2)%Q.
Proof.
  do 4 eexists.
  split; [vm_compute; reflexivity |].
  split; [vm_compute; reflexivity |].
  split; [reflexivity |]. split; [reflexivity |].
  intros H. vm_compute in H. discriminate.
Qed.




(** ** The check of cell 6 *)

Section Check.

Context {L : Lib}.

Example prod_mesh_11 : Np.prod [11; 11; 11] = 1331.
Proof. reflexivity. Qed.

(** Cell 4 requests the factorisation with as many points as the
    real-space grid has. *)
Lemma cell4_requests su s r s' :
  cell4 su s = (r, s') ->
  solve_requests (log s') =
  solve_requests (log s) ++ [Np.prod (cell_mesh (su_cell su))].
Proof.
  intros H. unfold cell4, bind, call, print, modify, ret in H.
  run_all H; rewrite ?solve_requests_app; simpl; rewrite ?app_nil_r;
    reflexivity.
Qed.

(** [np.allclose] on tensors of one size. *)
Lemma allclose_spec (a b : list Elem) :
  length a = length b ->
  Np.allclose elem_sub elem_abs a b = Ok true ->
  forall x y, In (x, y) (combine a b) ->
              (elem_abs (elem_sub x y) <= Np.atol + Np.rtol * elem_abs y)%Q.
Proof.
  intros Hlen. unfold Np.allclose, Np.broadcast.
  rewrite Hlen, Nat.eqb_refl, zip_with_combine.
  intros H x y Hin. inversion H as [Hall]. clear H.
  rewrite forallb_forall in Hall. apply Qle_bool_iff.
  apply (Hall (Qle_bool (elem_abs (elem_sub x y))
                        (Np.atol + Np.rtol * elem_abs y))).
  apply in_map_iff. exists (x, y). split; [reflexivity | assumption].
Qed.

(** When cell 6 completes, the tensor rebuilt from the factorisation of
    cell 4 and the exact tensor passed [np.allclose], and the variables
    it leaves are those of the mean field of cell 2. *)
Lemma cell6_assert su kpt_thc s g s' :
  cell6 su kpt_thc s = (Ok g, s') ->
  g_mf g = su_mf su /\
  g_num_kpts g = su_num_kpts su /\
  g_num_spatial_orbs g = mo_coeff_shape_last (su_mf su) /\
  exists helper eri_thc eri_exact g1 g2 g3 g4,
    df_ao2mo (su_mf su) (g_eri_kindices g) (g_num_spatial_orbs g) g1
    = (Ok eri_exact, g2) /\
    KPTHCHelperDoubleTranslation (chi kpt_thc) (zeta kpt_thc) (su_mf su) g2
    = (Ok helper, g3) /\
    get_eri helper (g_eri_kindices g) g3 = (Ok eri_thc, g4) /\
    Np.allclose elem_sub elem_abs eri_thc eri_exact = Ok true.
Proof.
  intros H. unfold cell6, bind, call, lift, ret, raise in H.
  run_inv H.
  match type of H with
  | context [if ?b then _ else _] => destruct b eqn:Hb
  end; [| discriminate].
  inversion H; subst; clear H. simpl.
  repeat (split; [reflexivity |]).
  do 7 eexists. repeat split; eassumption.
Qed.

End Check.

(** ** Further properties of the cells *)

(** *** The two records of cell 8 *)

Section Records_in_step.

Context {L : Lib}.

(** A step of cell 8 either completes, with one entry more in each
    record, or raises with [delta_mp2] as it was and at most one entry
    more in [delta_eri]. *)
Lemma cell8_body_cases g e c s r s1 :
  cell8_body g e c s = (r, s1) ->
  (r = Ok tt /\
   length (delta_eri s1) = S (length (delta_eri s)) /\
   length (delta_mp2 s1) = S (length (delta_mp2 s))) \/
  (exists x, r = Raise x /\ delta_mp2 s1 = delta_mp2 s /\
             (delta_eri s1 = delta_eri s \/
              length (delta_eri s1) = S (length (delta_eri s)))).
Proof.
  intros H. unfold cell8_body, bind, call, lift, modify in H.
  run_all H;
    first [ left; rewrite !length_app; simpl;
            repeat split; try reflexivity; lia
          | right; eexists; split; [reflexivity |];
            split; [reflexivity |];
            first [ left; reflexivity
                  | right; rewrite length_app; simpl; lia ] ].
Qed.

End Records_in_step.

(** X2. Started with records of equal length, the sweep of cell 8 never
    lets [delta_mp2] get ahead of [delta_eri] and never lets it fall
    behind by more than one entry; when the sweep completes the two
    records have the same length again. They differ, by one, only after
    a step raised between its two appends. *)
Theorem cell8_records_in_step
        (L : Lib) (g : Globals) (e : Q) (ranks : list Z) (s : State)
        (r : res unit) (s' : State) :
  length (delta_eri s) = length (delta_mp2 s) ->
  cell8_sweep g e ranks s = (r, s') ->
  (length (delta_mp2 s') <= length (delta_eri s') <= S (length (delta_mp2 s')))%nat /\
  (r = Ok tt -> length (delta_eri s') = length (delta_mp2 s')) /\
  (length (delta_eri s') <> length (delta_mp2 s') -> exists x, r = Raise x).
Proof.
  unfold cell8_sweep. revert s.
  induction ranks as [| c ranks IH]; intros s Hlen H.
  - inversion H; subst. repeat split; lia.
  - rewrite for_cons in H.
    destruct (bind_inv _ _ _ _ _ H) as [[[] [s1 [H1 H2]]] | [x [H1 ->]]].
    + destruct (cell8_body_cases _ _ _ _ _ _ H1)
        as [(_ & He & Hm) | (x & Hx & _)]; [| discriminate].
      apply (IH s1); [lia | exact H2].
    + destruct (cell8_body_cases _ _ _ _ _ _ H1)
        as [(Hx & _) | (x' & _ & Hm & [He | He])]; [discriminate | |].
      * rewrite Hm, He. repeat split; try lia; try discriminate.
      * rewrite Hm, He. repeat split; try lia; try discriminate.
        intros _. eauto.
Qed.

(** In the small library the factorisation with 32 points raises: the
    sweep over the rank parameters 2, 4 and 6. *)
Lemma cell8_records_in_step_witness :
  length (delta_eri (Toy.init [32] 0)) = length (delta_mp2 (Toy.init [32] 0)) /\
  Nat.le
    (length (delta_mp2
               (snd (@cell8_sweep (Toy.lib [32]) (Toy.globals [32]) 0%Q
                                  [2; 4; 6] (Toy.init [32] 0)))))
    (length (delta_eri
               (snd (@cell8_sweep (Toy.lib [32]) (Toy.globals [32]) 0%Q
                                  [2; 4; 6] (Toy.init [32] 0))))).
Proof.
  split; [reflexivity |].
  destruct (cell8_records_in_step
              (Toy.lib [32]) (Toy.globals [32]) 0%Q [2; 4; 6] (Toy.init [32] 0)
              (fst (@cell8_sweep (Toy.lib [32]) (Toy.globals [32]) 0%Q
                                 [2; 4; 6] (Toy.init [32] 0)))
              (snd (@cell8_sweep (Toy.lib [32]) (Toy.globals [32]) 0%Q
                                 [2; 4; 6] (Toy.init [32] 0)))
              eq_refl (surjective_pairing _)) as [[Hle _] _].
  exact Hle.
Defined.

(** *** Cell 8 followed by the plots of cells 10 and 12 *)

Section Plots_after_cell8.

Context {L : Lib}.

(** After cell 8 completed, each record has one entry per rank. *)
Lemma cell8_ok_lengths g s s1 :
  cell8 g s = (Ok tt, s1) ->
  length (delta_eri s1) = length thc_ranks /\
  length (delta_mp2 s1) = length thc_ranks.
Proof.
  intros H. unfold cell8 in H. ok_inv.
  match goal with
  | H : cell8_sweep _ _ _ _ = _ |- _ =>
      destruct (cell8_sweep_records _ _ _ _ _ _ H)
        as (ds & es & Hd & He & _ & _ & Hok)
  end.
  destruct (Hok eq_refl) as (Hl & Hl' & _).
  subst. simpl in Hd, He. rewrite Hd, He. auto.
Qed.

(** A sweep of cell 8 that raises has appended fewer entries to
    [delta_mp2] than there are rank parameters. *)
Lemma cell8_sweep_raise_short g e ranks s x s' :
  cell8_sweep g e ranks s = (Raise x, s') ->
  (length (delta_mp2 s') < length (delta_mp2 s) + length ranks)%nat.
Proof.
  unfold cell8_sweep. revert s.
  induction ranks as [| c ranks IH]; intros s H.
  - discriminate.
  - rewrite for_cons in H.
    destruct (bind_inv _ _ _ _ _ H) as [[[] [s1 [H1 H2]]] | [x' [H1 _]]].
    + destruct (cell8_body_cases _ _ _ _ _ _ H1)
        as [(_ & _ & Hm) | (y & Hy & _)]; [| discriminate].
      specialize (IH _ H2). simpl. lia.
    + destruct (cell8_body_cases _ _ _ _ _ _ H1)
        as [(Hy & _) | (y & _ & Hm & _)]; [discriminate |].
      rewrite Hm. simpl. lia.
Qed.

End Plots_after_cell8.

(** X3. After cell 8 completed, cells 10 and 12 complete: cell 10 adds
    the curve of [delta_eri] against [thc_ranks] to the axes, cell 12
    clears the axes and leaves the one curve of the absolute values of
    [delta_mp2] against [thc_ranks]; both curves have one point per rank
    parameter. *)
Theorem cell8_then_plots (L : Lib) (g : Globals) (s s1 : State) :
  cell8 g s = (Ok tt, s1) ->
  exists s2 s3,
    cell10 s1 = (Ok tt, s2) /\
    cell12 s2 = (Ok tt, s3) /\
    figure s2 = figure s1 ++ [(thc_ranks, delta_eri s1)] /\
    figure s3 = [(thc_ranks, map Qabs (delta_mp2 s1))] /\
    length (delta_eri s1) = length thc_ranks /\
    length (map Qabs (delta_mp2 s1)) = length thc_ranks /\
    delta_eri s3 = delta_eri s1 /\ delta_mp2 s3 = delta_mp2 s1.
Proof.
  intros H. destruct (cell8_ok_lengths _ _ _ H) as [Hd Hm].
  exists (set_figure (figure s1 ++ [(thc_ranks, delta_eri s1)]) s1).
  eexists. split; [| split].
  - unfold cell10, bind, gets. cbv beta iota.
    apply plt_plot_ok. symmetry. exact Hd.
  - unfold cell12, bind, modify, gets. cbv beta iota.
    apply plt_plot_ok. unfold Np.abs. rewrite length_map.
    symmetry. exact Hm.
  - rewrite length_map. repeat split; try reflexivity; assumption.
Qed.

(** Cell 8 and the two plots in the small library. *)
Lemma cell8_then_plots_witness :
  exists s1 s3 : @State (Toy.lib []),
    @cell8 (Toy.lib []) (Toy.globals []) (Toy.init [] 0) = (Ok tt, s1) /\
    length (figure s3) = 1%nat /\ delta_mp2 s3 = delta_mp2 s1.
Proof.
  exists (snd (@cell8 (Toy.lib []) (Toy.globals []) (Toy.init [] 0))).
  assert (H : @cell8 (Toy.lib []) (Toy.globals []) (Toy.init [] 0)
              = (Ok tt, snd (@cell8 (Toy.lib []) (Toy.globals [])
                                    (Toy.init [] 0))))
    by (vm_compute; reflexivity).
  destruct (cell8_then_plots (Toy.lib []) (Toy.globals []) _ _ H)
    as (s2 & s3 & _ & _ & _ & Hf & _ & _ & _ & Hm).
  exists s3. split; [exact H |]. split; [rewrite Hf; reflexivity | exact Hm].
Defined.

(** X4. When cell 8 raises, either it raised before its sweep and left
    both records as they were (those of an earlier run stay), or
    [delta_mp2] holds fewer entries than there are rank parameters and
    cell 12 raises [ValueError] at its plot, after clearing the axes. *)
Theorem cell8_raise_then_cell12
        (L : Lib) (g : Globals) (s s1 : State) (x : exn) :
  cell8 g s = (Raise x, s1) ->
  (delta_eri s1 = delta_eri s /\ delta_mp2 s1 = delta_mp2 s) \/
  ((length (delta_mp2 s1) < length thc_ranks)%nat /\
   cell12 s1 = (Raise ValueError, set_figure [] s1)).
Proof.
  intros H. unfold cell8 in H.
  repeat (cbv beta zeta in H;
          match type of H with
          | bind (call _ _) _ _ = _ =>
              apply bind_inv in H;
              destruct H as [(? & ? & Hc & H) | (? & Hc & _)];
              apply call_inv in Hc; destruct Hc as (? & _ & ->);
              [| left; split; reflexivity]
          | bind (modify _) _ _ = _ =>
              apply bind_inv in H;
              destruct H as [(? & ? & Hc & H) | (? & Hc & _)];
              [inversion Hc; subst; clear Hc | discriminate]
          end).
  right. apply cell8_sweep_raise_short in H. simpl in H.
  split; [exact H |].
  unfold cell12, bind, modify, gets. cbv beta iota.
  apply plt_plot_mismatch. unfold Np.abs. rewrite length_map.
  change (length thc_ranks) with 9%nat.
  change (delta_mp2 (set_figure [] s1)) with (delta_mp2 s1). lia.
Qed.

(** In the small library the factorisation with 32 points raises in the
    second step of cell 8. *)
Lemma cell8_raise_then_cell12_witness :
  exists s1 : @State (Toy.lib [32]),
    @cell8 (Toy.lib [32]) (Toy.globals [32]) (Toy.init [32] 0)
    = (Raise (LibraryError "kmeans"), s1) /\
    cell12 s1 = (Raise ValueError, set_figure [] s1).
Proof.
  exists (snd (@cell8 (Toy.lib [32]) (Toy.globals [32]) (Toy.init [32] 0))).
  assert (H : @cell8 (Toy.lib [32]) (Toy.globals [32]) (Toy.init [32] 0)
              = (Raise (LibraryError "kmeans"),
                 snd (@cell8 (Toy.lib [32]) (Toy.globals [32])
                             (Toy.init [32] 0))))
    by (vm_compute; reflexivity).
  split; [exact H |].
  destruct (cell8_raise_then_cell12 (Toy.lib [32]) (Toy.globals [32]) _ _ _ H)
    as [[_ Hm] | [_ H12]]; [| exact H12].
  vm_compute in Hm. discriminate.
Defined.

(** *** Empty tensors *)

(** X5. A step of cell 8 whose two tensors are empty raises
    [ValueError] at [np.max(np.abs(eri_thc - eri_exact))], after its
    four library calls: nothing is appended to [delta_eri] or
    [delta_mp2], the MP2 energy of the step is not computed, and the
    libraries stay as the fourth call left them. *)
Theorem cell8_step_empty_tensors
        (L : Lib) (g : Globals) (e : Q) (c : Z) (s : State)
        (kpt_thc : KptTHC) (helper : Helper) (g1 g2 g3 g4 : World) :
  solve_kmeans_kpisdf (g_mf g)
    (Np.int64_mul c (g_num_spatial_orbs g)) (world s) = (Ok kpt_thc, g1) ->
  KPTHCHelperDoubleTranslation (chi kpt_thc) (zeta kpt_thc) (g_mf g) g1
  = (Ok helper, g2) ->
  get_eri helper (g_eri_kindices g) g2 = (Ok [], g3) ->
  get_eri_exact helper (g_eri_kindices g) g3 = (Ok [], g4) ->
  exists s',
    cell8_body g e c s = (Raise ValueError, s') /\
    delta_eri s' = delta_eri s /\ delta_mp2 s' = delta_mp2 s /\
    world s' = g4 /\
    log s' = log s ++ [EvSolve (Np.int64_mul c (g_num_spatial_orbs g));
                       EvHelper; EvGetEri; EvGetEriExact].
Proof.
  intros H1 H2 H3 H4.
  eexists. split.
  - unfold cell8_body, bind, call, lift. simpl.
    rewrite H1. simpl. rewrite H2. simpl. rewrite H3. simpl. rewrite H4.
    reflexivity.
  - simpl. repeat rewrite <- app_assoc. simpl. repeat split; reflexivity.
Qed.

(** The small library with no orbitals. *)
Lemma cell8_step_empty_tensors_witness :
  exists s' : @State Toy.lib_empty,
    @cell8_body Toy.lib_empty (@mkGlobals Toy.lib_empty tt 3 0 [1; 0; 1; 0])
                0%Q 2 (@mkState Toy.lib_empty 0 [] [] [] [] [] [] [])
    = (Raise ValueError, s') /\
    delta_eri s' = [] /\ delta_mp2 s' = [].
Proof.
  destruct (cell8_step_empty_tensors
              Toy.lib_empty (@mkGlobals Toy.lib_empty tt 3 0 [1; 0; 1; 0])
              0%Q 2 (@mkState Toy.lib_empty 0 [] [] [] [] [] [] [])
              (0, 0) (0, 0) 1 1 1 1
              eq_refl eq_refl eq_refl eq_refl)
    as (s' & Hs & Hd & Hm & _).
  exists s'. split; [exact Hs |]. split; [exact Hd | exact Hm].
Defined.

(** *** The check of cell 6, as a whole *)

(** X1. When cell 6 completes, the variables it hands on are the mean
    field and the number of k-points of cell 2 and the number of
    orbitals of that mean field; [eri_kindices] is [1], the entries
    [1, 1] and [1, 0] of the momentum-transfer map, and [0]; and the
    tensor rebuilt from the factorisation passed [np.allclose] against
    the exact one: for tensors of one size every element-wise difference
    is within [atol + rtol * abs(exact)]. *)
Theorem cell6_checked
        (L : Lib) (su : Setup) (kpt_thc : KptTHC) (s : State)
        (g : Globals) (s' : State) :
  cell6 su kpt_thc s = (Ok g, s') ->
  g_mf g = su_mf su /\
  g_num_kpts g = su_num_kpts su /\
  g_num_spatial_orbs g = mo_coeff_shape_last (su_mf su) /\
  (exists momentum_map g1 a b,
      build_momentum_transfer_mapping (su_cell su) (su_kpts su) (world s)
      = (Ok momentum_map, g1) /\
      Np.index2 momentum_map 1 1 = Ok a /\
      Np.index2 momentum_map 1 0 = Ok b /\
      g_eri_kindices g = [1; a; b; 0]) /\
  (exists helper eri_thc eri_exact g1 g2 g3 g4,
      df_ao2mo (su_mf su) (g_eri_kindices g) (g_num_spatial_orbs g) g1
      = (Ok eri_exact, g2) /\
      KPTHCHelperDoubleTranslation (chi kpt_thc) (zeta kpt_thc) (su_mf su) g2
      = (Ok helper, g3) /\
      get_eri helper (g_eri_kindices g) g3 = (Ok eri_thc, g4) /\
      world s' = g4 /\
      Np.allclose elem_sub elem_abs eri_thc eri_exact = Ok true /\
      (length eri_thc = length eri_exact ->
       forall x y, In (x, y) (combine eri_thc eri_exact) ->
         (elem_abs (elem_sub x y) <= Np.atol + Np.rtol * elem_abs y)%Q)).
Proof.
  intros H. unfold cell6, bind, call, lift, ret, raise in H.
  run_inv H.
  match type of H with
  | context [if ?b then _ else _] => destruct b eqn:Hb
  end; [| discriminate].
  inversion H; subst; clear H. simpl.
  repeat (split; [reflexivity |]). split.
  - do 4 eexists. repeat split; eassumption.
  - do 7 eexists. repeat split; try eassumption.
    intros Hlen. apply allclose_spec; assumption.
Qed.

(** Cells 2, 4 and 6 in the small library. *)
Lemma cell6_checked_witness :
  exists (g : @Globals (Toy.lib [])) (s' : @State (Toy.lib [])),
    (su <- cell2 ;; kpt_thc <- cell4 su ;; cell6 su kpt_thc)%cell
      (Toy.init [] 0) = (Ok g, s') /\
    g_num_kpts g = 3 /\ g_eri_kindices g = [1; 2; 1; 0].
Proof.
  exists (@mkGlobals (Toy.lib []) tt 3 8 [1; 2; 1; 0]).
  eexists. split; [vm_compute; reflexivity |].
  destruct (cell6_checked
              (Toy.lib []) (@mkSetup (Toy.lib []) [11; 11; 11] [tt; tt; tt] 3 tt)
              (1331, 0)
              (snd ((su <- @cell2 (Toy.lib []) ;; cell4 su)%cell (Toy.init [] 0)))
              (@mkGlobals (Toy.lib []) tt 3 8 [1; 2; 1; 0])
              (snd ((su <- @cell2 (Toy.lib []) ;; kpt_thc <- cell4 su ;;
                     cell6 su kpt_thc)%cell (Toy.init [] 0))))
    as (_ & Hk & _).
  - vm_compute. reflexivity.
  - split; [exact Hk | reflexivity].
Defined.

(** X13. Cell 6 reads row 1 of the momentum-transfer map: when the map
    has fewer than two rows, as for a single k-point, the cell raises
    [IndexError] at [momentum_map[Q_indx, k_indx]], right after
    building the map: the libraries are left as that call left them, no
    tensor is computed and the assertion is not reached. *)
Theorem cell6_needs_two_kpoints
        (L : Lib) (su : Setup) (kpt_thc : KptTHC) (s : State)
        (momentum_map : list (list Z)) (g1 : World) :
  build_momentum_transfer_mapping (su_cell su) (su_kpts su) (world s)
  = (Ok momentum_map, g1) ->
  (length momentum_map < 2)%nat ->
  cell6 su kpt_thc s
  = (Raise IndexError, set_world g1 (add_log EvMomentumMap s)).
Proof.
  intros Hm Hlen. unfold cell6, bind, call, lift. simpl. rewrite Hm.
  assert (Hrow : nth_error momentum_map 1 = None)
    by (apply nth_error_None; lia).
  unfold Np.index2. rewrite Hrow. reflexivity.
Qed.

(** Cell 6 in the small library with a single k-point. *)
Lemma cell6_needs_two_kpoints_witness :
  (length [[0]] < 2)%nat /\
  @cell6 Toy.lib_one_kpt (@mkSetup Toy.lib_one_kpt [11; 11; 11] [tt] 1 tt)
         (1331, 0) (@mkState Toy.lib_one_kpt 0 [] [] [] [] [] [] [])
  = (Raise IndexError,
     @mkState Toy.lib_one_kpt 0 [EvMomentumMap] [] [] [] [] [] []).
Proof.
  split; [apply Nat.lt_succ_diag_r |].
  exact (cell6_needs_two_kpoints
           Toy.lib_one_kpt (@mkSetup Toy.lib_one_kpt [11; 11; 11] [tt] 1 tt)
           (1331, 0) (@mkState Toy.lib_one_kpt 0 [] [] [] [] [] [] [])
           [[0]] 0 eq_refl (Nat.lt_succ_diag_r 1)).
Defined.

(** *** Cell 17 as a whole *)

Section Cell17_whole.

Context {L : Lib}.

Lemma call_ok {A} ev (f : Ext World A) s a g :
  f (world s) = (Ok a, g) -> call ev f s = (Ok a, set_world g (add_log ev s)).
Proof. intros H. unfold call. simpl. rewrite H. reflexivity. Qed.

Lemma dict_get_in {K V} (eqb : K -> K -> bool) k (d : list (K * V)) :
  (forall x y, eqb x y = true <-> x = y) ->
  In k (map fst d) -> exists v, dict_get eqb k d = Some v.
Proof.
  intros Heq. induction d as [| [k' v'] d IH]; simpl; intros H.
  - contradiction.
  - destruct (eqb k k') eqn:E; [eauto |].
    destruct H as [H | H]; [| auto].
    subst. assert (eqb k k = true) by (apply Heq; reflexivity). congruence.
Qed.

Lemma results_at_get mesh s :
  In mesh (map fst (results s)) ->
  dict_get Z.eqb mesh (results s) = Some (results_at mesh s).
Proof.
  intros H. destruct (dict_get_in Z.eqb mesh (results s) Z.eqb_eq H) as [v Hv].
  unfold results_at. rewrite Hv. reflexivity.
Qed.

(** The sweep of a mesh keeps the keys of [results]. *)
Lemma cell17_sweep_keys nso mf e mesh ranks s r s' :
  cell17_sweep nso mf e mesh ranks s = (r, s') ->
  map fst (results s') = map fst (results s).
Proof.
  intros H.
  apply (for_respects
           (fun s s' => map fst (results s') = map fst (results s))
           (cell17_body nso mf e mesh)) with (4 := H).
  - reflexivity.
  - intros s1 s2 s3 H12 H23. congruence.
  - intros x s0 r0 s1 H0. apply (cell17_body_any _ _ _ _ _ _ _ _ H0).
Qed.

(** The sweep of a mesh draws nothing. *)
Lemma cell17_sweep_figure nso mf e mesh ranks s s' :
  cell17_sweep nso mf e mesh ranks s = (Ok tt, s') -> figure s' = figure s.
Proof.
  intros H.
  apply (for_ok_respects (fun s s' => figure s' = figure s)
                         (cell17_body nso mf e mesh)) with (4 := H).
  - reflexivity.
  - intros s1 s2 s3 H12 H23. congruence.
  - intros x s0 s1 H0.
    destruct (cell17_body_ok _ _ _ _ _ _ _ H0) as (a & _ & _ & _ & _ & _ & _ & _ & Hf).
    exact Hf.
Qed.

(** One mesh of cell 17, completed: the keys and the lists of the other
    meshes are as before, and the curve of this mesh is on the axes. *)
Lemma cell17_mesh_frame nso mesh s s' :
  cell17_mesh nso mesh s = (Ok tt, s') ->
  map fst (results s') = map fst (results s) /\
  (forall m', m' <> mesh -> results_at m' s' = results_at m' s) /\
  figure s' = figure s ++ [(thc_ranks, Np.abs Qabs (results_at mesh s'))] /\
  length (results_at mesh s') = length thc_ranks.
Proof.
  intros H. unfold cell17_mesh in H. ok_inv.
  match goal with
  | H : cell17_sweep _ _ _ _ _ _ = _ |- _ =>
      pose proof (cell17_sweep_keys _ _ _ _ _ _ _ _ H) as Hkeys;
        pose proof (cell17_sweep_figure _ _ _ _ _ _ _ H) as Hfig;
        destruct (cell17_sweep_records _ _ _ _ _ _ _ _ H)
          as (es & _ & _ & Hother & _)
  end.
  match goal with
  | H : match ?o with _ => _ end _ = _ |- _ =>
      destruct o as [ys |] eqn:Hget; [| discriminate];
        unfold plt_plot in H;
        destruct (Nat.eqb (length thc_ranks) (length (Np.abs Qabs ys))) eqn:E;
        [| discriminate]; inversion H; subst; clear H
  end.
  apply Nat.eqb_eq in E. unfold Np.abs in E. rewrite length_map in E.
  repeat split.
  - exact Hkeys.
  - intros m' Hm'. unfold results_at in *. simpl. apply (Hother m' Hm').
  - unfold results_at. simpl.
    match goal with Hg : dict_get _ _ _ = Some _ |- _ => rewrite Hg end.
    rewrite Hfig. reflexivity.
  - unfold results_at. simpl.
    match goal with Hg : dict_get _ _ _ = Some _ |- _ => rewrite Hg end.
    symmetry. exact E.
Qed.

(** The loop over the meshes, completed. *)
Lemma cell17_loop_frame nso ms :
  NoDup ms ->
  forall s s', for_ ms (cell17_mesh nso) s = (Ok tt, s') ->
    map fst (results s') = map fst (results s) /\
    (forall m, ~ In m ms -> results_at m s' = results_at m s) /\
    (forall m, In m ms -> length (results_at m s') = length thc_ranks) /\
    figure s' =
    figure s ++ map (fun m => (thc_ranks, Np.abs Qabs (results_at m s'))) ms.
Proof.
  intros Hnd. induction Hnd as [| m ms Hm Hnd IH]; intros s s' H.
  - inversion H; subst. cbn [map]. rewrite app_nil_r.
    repeat split; auto. intros m [].
  - destruct (for_cons_ok _ _ _ _ _ H) as [s1 [H1 H2]].
    destruct (cell17_mesh_frame _ _ _ _ H1) as (Hk1 & Ho1 & Hf1 & Hl1).
    destruct (IH _ _ H2) as (Hk & Ho & Hl & Hf).
    split; [congruence |]. split; [| split].
    + intros m' Hm'. rewrite Ho, Ho1; [reflexivity | |];
        intros Hin; apply Hm'; [left; congruence | right; assumption].
    + intros m' [<- | Hin]; [rewrite Ho by assumption; exact Hl1 | auto].
    + rewrite Hf, Hf1, <- app_assoc. cbn [map app]. rewrite (Ho m Hm).
      reflexivity.
Qed.

(** One mesh of cell 17 completes when the library returns and the list
    of the mesh is there and empty. *)
Lemma cell17_mesh_total nso mesh s :
  cell17_lib_total -> (forall mf, mp2_lib_total mf) ->
  In mesh (map fst (results s)) -> results_at mesh s = [] ->
  exists s', cell17_mesh nso mesh s = (Ok tt, s').
Proof.
  intros (Hcell & Hkpts & Hscf & Hmp2) Hlib Hin Hnil. unfold cell17_mesh.
  destruct (Hcell mesh (world s)) as (c & g1 & Hc).
  rewrite (bind_ok _ _ _ _ _ (call_ok _ _ _ _ _ Hc)).
  match goal with |- context [set_world g1 ?t] => set (s1 := set_world g1 t) end.
  destruct (Hkpts c (world s1)) as (k & g2 & Hk).
  rewrite (bind_ok _ _ _ _ _ (call_ok _ _ _ _ _ Hk)).
  match goal with |- context [set_world g2 ?t] => set (s2 := set_world g2 t) end.
  destruct (Hscf c k (world s2)) as (mf & g3 & Hmf).
  rewrite (bind_ok _ _ _ _ _ (call_ok _ _ _ _ _ Hmf)).
  rewrite bind_print.
  match goal with |- context [add_stdout ?l (set_world g3 ?t)] =>
    set (s3 := add_stdout l (set_world g3 t)) end.
  destruct (Hmp2 mf (world s3)) as (e & g4 & He).
  rewrite (bind_ok _ _ _ _ _ (call_ok _ _ _ _ _ He)).
  cbv zeta. rewrite bind_print.
  match goal with |- context [add_stdout ?l (set_world g4 ?t)] =>
    set (s4 := add_stdout l (set_world g4 t)) end.
  destruct (cell17_sweep_total nso mf (e + e_tot mf)%Q mesh thc_ranks s4 (Hlib mf))
    as [s5 H5].
  { eexists. exact (results_at_get mesh s Hin). }
  rewrite (bind_ok _ _ _ _ _ H5). rewrite bind_gets.
  pose proof (cell17_sweep_keys _ _ _ _ _ _ _ _ H5) as Hkeys.
  destruct (cell17_sweep_records _ _ _ _ _ _ _ _ H5) as (es & Hes & _ & _ & Hok).
  destruct (Hok eq_refl) as [Hlen _].
  assert (Hin5 : In mesh (map fst (results s5))) by (rewrite Hkeys; exact Hin).
  rewrite (results_at_get mesh s5 Hin5).
  eexists. apply plt_plot_ok. unfold Np.abs. rewrite length_map, Hes.
  change (results_at mesh s4) with (results_at mesh s). rewrite Hnil.
  symmetry. exact Hlen.
Qed.

(** The loop over meshes that are keys with empty lists completes. *)
Lemma cell17_loop_total nso ms :
  cell17_lib_total -> (forall mf, mp2_lib_total mf) ->
  NoDup ms ->
  forall s,
    (forall m, In m ms -> In m (map fst (results s)) /\ results_at m s = []) ->
    exists s', for_ ms (cell17_mesh nso) s = (Ok tt, s').
Proof.
  intros Hl Hlib Hnd. induction Hnd as [| m ms Hm Hnd IH]; intros s Hs.
  - exists s. reflexivity.
  - destruct (Hs m (or_introl eq_refl)) as [Hin Hnil].
    destruct (cell17_mesh_total nso m s Hl Hlib Hin Hnil) as [s1 H1].
    destruct (cell17_mesh_frame _ _ _ _ H1) as (Hk1 & Ho1 & _).
    destruct (IH s1) as [s' H2].
    { intros m' Hm'. destruct (Hs m' (or_intror Hm')) as [Hin' Hnil'].
      split; [rewrite Hk1; exact Hin' |].
      rewrite Ho1; [exact Hnil' | intros ->; contradiction]. }
    exists s'. rewrite for_cons, (bind_ok _ _ _ _ _ H1). exact H2.
Qed.

Lemma cell17_meshes_nodup : NoDup cell17_meshes.
Proof.
  unfold cell17_meshes.
  repeat (constructor; [cbn [In]; intros H; decompose [or] H; try discriminate;
                        assumption |]).
  constructor.
Qed.

End Cell17_whole.

(** X6. When cell 17 completes, [results] has the five meshes as its
    keys, in the order of the cell, each with one entry per rank
    parameter, and the cell added five curves to the axes, one per mesh
    and in that order: the absolute values of the list of the mesh
    against [thc_ranks]. *)
Theorem cell17_curves (L : Lib) (nso : Z) (s s' : State) :
  cell17 nso s = (Ok tt, s') ->
  map fst (results s') = cell17_meshes /\
  (forall m, In m cell17_meshes ->
             length (results_at m s') = length thc_ranks) /\
  figure s' =
  figure s ++
  map (fun m => (thc_ranks, Np.abs Qabs (results_at m s'))) cell17_meshes.
Proof.
  intros H. unfold cell17 in H.
  rewrite bind_modify, bind_gets in H.
  destruct (cell17_loop_frame nso cell17_meshes cell17_meshes_nodup _ _ H)
    as (Hk & _ & Hl & Hf).
  split; [exact Hk |]. split; [exact Hl | exact Hf].
Qed.

(** Cell 17 in the small library, with eight orbitals. *)
Lemma cell17_curves_witness :
  exists s' : @State (Toy.lib []),
    @cell17 (Toy.lib []) 8 (Toy.init [] 0) = (Ok tt, s') /\
    map fst (results s') = [11; 15; 19; 21; 28] /\
    length (figure s') = 5%nat.
Proof.
  exists (snd (@cell17 (Toy.lib []) 8 (Toy.init [] 0))).
  assert (H : @cell17 (Toy.lib []) 8 (Toy.init [] 0)
              = (Ok tt, snd (@cell17 (Toy.lib []) 8 (Toy.init [] 0))))
    by (vm_compute; reflexivity).
  destruct (cell17_curves (Toy.lib []) 8 _ _ H) as (Hk & _ & Hf).
  split; [exact H |]. split; [exact Hk |].
  rewrite Hf, length_app, length_map. reflexivity.
Defined.

(** X7. Cell 17 completes whenever the library routines it calls return:
    its own code raises neither [KeyError] at [results[mesh]] nor
    [ValueError] at the plot, because it starts from empty lists under
    the keys it loops over and each sweep appends one entry per rank
    parameter. *)
Theorem cell17_only_library_raises (L : Lib) (nso : Z) (s : State) :
  cell17_lib_total -> (forall mf, mp2_lib_total mf) ->
  exists s', cell17 nso s = (Ok tt, s').
Proof.
  intros Hl Hlib. unfold cell17. rewrite bind_modify, bind_gets.
  apply (cell17_loop_total nso cell17_meshes Hl Hlib cell17_meshes_nodup).
  intros m Hm. split; [exact Hm |].
  cbn [In cell17_meshes] in Hm. decompose [or] Hm; subst;
    try reflexivity; contradiction.
Qed.

Lemma cell17_only_library_raises_witness :
  exists s' : @State (Toy.lib []),
    @cell17 (Toy.lib []) 8 (Toy.init [] 0) = (Ok tt, s').
Proof.
  apply (cell17_only_library_raises (Toy.lib []) 8 (Toy.init [] 0)).
  - repeat split; intros; intros g; do 2 eexists; reflexivity.
  - intros mf. repeat split; intros; intros g; do 2 eexists; reflexivity.
Defined.

(** *** Cell 19 followed by cell 20 *)

Section Cell19_then_20.

Context {L : Lib}.

Lemma basis_results_at_get basis s :
  In basis (map fst (basis_results s)) ->
  dict_get String.eqb basis (basis_results s)
  = Some (basis_results_at basis s).
Proof.
  intros H.
  destruct (dict_get_in String.eqb basis (basis_results s) String.eqb_eq H)
    as [v Hv].
  unfold basis_results_at. rewrite Hv. reflexivity.
Qed.

(** A step of the sweep of cell 19, completed or not: the keys, the
    lists of the other bases and the axes stay; the list of the basis
    gets one entry when the step completes and none when it raises. *)
Lemma cell19_body_frame nso mf e basis c s r s' :
  cell19_body nso mf e basis c s = (r, s') ->
  map fst (basis_results s') = map fst (basis_results s) /\
  (forall b, b <> basis -> basis_results_at b s' = basis_results_at b s) /\
  figure s' = figure s /\
  ((r = Ok tt /\
    length (basis_results_at basis s') = S (length (basis_results_at basis s))) \/
   (exists x, r = Raise x /\
              basis_results_at basis s' = basis_results_at basis s)).
Proof.
  intros H.
  unfold cell19_body, bind, call, print, modify, basis_results_append in H.
  run_all H; (split; [| split; [| split]]);
    try reflexivity;
    try (right; eexists; split; reflexivity).
  - eapply dict_set_keys; [apply String.eqb_eq | eassumption].
  - intros b Hb. unfold basis_results_at. simpl.
    rewrite dict_get_set_other; [reflexivity | apply String.eqb_eq | congruence].
  - left. split; [reflexivity |].
    erewrite basis_results_at_append; [| eassumption | reflexivity].
    rewrite length_app. simpl. unfold basis_results_at. simpl. lia.
Qed.

Lemma cell19_sweep_frame nso mf e basis ranks s r s' :
  cell19_sweep nso mf e basis ranks s = (r, s') ->
  map fst (basis_results s') = map fst (basis_results s) /\
  (forall b, b <> basis -> basis_results_at b s' = basis_results_at b s) /\
  figure s' = figure s.
Proof.
  intros H.
  apply (for_respects
           (fun s s' =>
              map fst (basis_results s') = map fst (basis_results s) /\
              (forall b, b <> basis ->
                         basis_results_at b s' = basis_results_at b s) /\
              figure s' = figure s)
           (cell19_body nso mf e basis)) with (4 := H).
  - auto.
  - intros s1 s2 s3 (Hk & Ho & Hf) (Hk' & Ho' & Hf').
    split; [congruence |]. split; [| congruence].
    intros b Hb. rewrite Ho', Ho by assumption. reflexivity.
  - intros x s0 r0 s1 H0.
    destruct (cell19_body_frame _ _ _ _ _ _ _ _ H0) as (Hk & Ho & Hf & _).
    auto.
Qed.

(** A sweep of cell 19 appends one entry per rank parameter when it
    completes, and fewer when it raises. *)
Lemma cell19_sweep_length nso mf e basis ranks :
  forall s r s',
    cell19_sweep nso mf e basis ranks s = (r, s') ->
    (r = Ok tt /\
     length (basis_results_at basis s')
     = (length (basis_results_at basis s) + length ranks)%nat) \/
    (exists x, r = Raise x /\
               (length (basis_results_at basis s')
                < length (basis_results_at basis s) + length ranks)%nat).
Proof.
  unfold cell19_sweep.
  induction ranks as [| c ranks IH]; intros s r s' H.
  - inversion H; subst. left. split; [reflexivity | simpl; lia].
  - rewrite for_cons in H.
    destruct (bind_inv _ _ _ _ _ H) as [[[] [s1 [H1 H2]]] | [x [H1 ->]]].
    + destruct (cell19_body_frame _ _ _ _ _ _ _ _ H1)
        as (_ & _ & _ & [(_ & Hl) | (y & Hy & _)]); [| discriminate].
      destruct (IH _ _ _ H2) as [(-> & Hl') | (y & -> & Hl')].
      * left. split; [reflexivity | simpl; lia].
      * right. exists y. split; [reflexivity | simpl; lia].
    + destruct (cell19_body_frame _ _ _ _ _ _ _ _ H1)
        as (_ & _ & _ & [(Hy & _) | (y & _ & Hl)]); [discriminate |].
      right. exists x. split; [reflexivity | rewrite Hl; simpl; lia].
Qed.

(** One basis of cell 19, started with its list there and empty: the
    list has one entry per rank parameter when the iteration completes
    and fewer when it raises; the keys and the other lists stay. *)
Lemma cell19_basis_frame basis s r s' :
  cell19_basis basis s = (r, s') ->
  In basis (map fst (basis_results s)) -> basis_results_at basis s = [] ->
  map fst (basis_results s') = map fst (basis_results s) /\
  (forall b, b <> basis -> basis_results_at b s' = basis_results_at b s) /\
  ((r = Ok tt /\ length (basis_results_at basis s') = length thc_ranks) \/
   (exists x, r = Raise x /\
              (length (basis_results_at basis s') < length thc_ranks)%nat)).
Proof.
  intros H Hin Hnil. unfold cell19_basis in H.
  assert (Hshort : forall g1 evs out,
             (length (basis_results_at basis
                        (mkState g1 evs (delta_eri s) (delta_mp2 s) (results s)
                                 (basis_results s) (figure s) out))
              < length thc_ranks)%nat).
  { intros g1 evs out.
    change (length (basis_results_at basis s) < length thc_ranks)%nat.
    rewrite Hnil. simpl. lia. }
  repeat (cbv beta zeta in H;
          match type of H with
          | bind (call _ _) _ _ = _ =>
              let x := fresh "x" in
              apply bind_inv in H;
              destruct H as [(? & ? & Hc & H) | (x & Hc & ->)];
              apply call_inv in Hc; destruct Hc as (? & _ & ->);
              [| split; [reflexivity |]; split; [reflexivity |];
                 right; exists x; split; [reflexivity | apply Hshort]]
          | bind (print _) _ _ = _ => rewrite bind_print in H
          end).
  apply bind_inv in H. destruct H as [([] & s5 & Hsw & H) | (xe & Hsw & ->)].
  - destruct (cell19_sweep_frame _ _ _ _ _ _ _ _ Hsw) as (Hk & Ho & _).
    destruct (cell19_sweep_length _ _ _ _ _ _ _ _ Hsw)
      as [(_ & Hl) | (y & Hy & _)]; [| discriminate].
    rewrite bind_gets in H.
    assert (Hin5 : In basis (map fst (basis_results s5)))
      by (rewrite Hk; exact Hin).
    rewrite (basis_results_at_get basis s5 Hin5) in H.
    assert (Hl5 : length (basis_results_at basis s5) = length thc_ranks).
    { rewrite Hl.
      match goal with
      | |- (length (basis_results_at basis ?t) + _)%nat = _ =>
          change (basis_results_at basis t) with (basis_results_at basis s)
      end.
      rewrite Hnil. reflexivity. }
    rewrite plt_plot_ok in H
      by (unfold Np.abs; rewrite !length_map; symmetry; exact Hl5).
    inversion H; subst; clear H.
    split; [exact Hk |]. split; [exact Ho |].
    left. split; [reflexivity | exact Hl5].
  - destruct (cell19_sweep_frame _ _ _ _ _ _ _ _ Hsw) as (Hk & Ho & _).
    destruct (cell19_sweep_length _ _ _ _ _ _ _ _ Hsw)
      as [(Hy & _) | (y & _ & Hl)]; [discriminate |].
    split; [exact Hk |]. split; [exact Ho |].
    right. exists xe. split; [reflexivity |].
    match type of Hl with
    | (_ < length (basis_results_at basis ?t) + _)%nat =>
        change (basis_results_at basis t) with (basis_results_at basis s) in Hl
    end.
    rewrite Hnil in Hl. exact Hl.
Qed.

(** The loop of cell 19 over bases whose lists are there and empty:
    when it completes every list has one entry per rank parameter; when
    it raises, in the iteration of [b], the lists of the bases before
    [b] have one entry per rank parameter and that of [b] has fewer. *)
Lemma cell19_loop bs :
  NoDup bs ->
  forall s r s',
    for_ bs cell19_basis s = (r, s') ->
    (forall b, In b bs ->
               In b (map fst (basis_results s)) /\ basis_results_at b s = []) ->
    map fst (basis_results s') = map fst (basis_results s) /\
    (forall b, ~ In b bs -> basis_results_at b s' = basis_results_at b s) /\
    ((r = Ok tt /\
      forall b, In b bs -> length (basis_results_at b s') = length thc_ranks) \/
     (exists x pre b post,
         r = Raise x /\ bs = pre ++ b :: post /\
         (forall b', In b' pre ->
                     length (basis_results_at b' s') = length thc_ranks) /\
         (length (basis_results_at b s') < length thc_ranks)%nat)).
Proof.
  intros Hnd. induction Hnd as [| b bs Hb Hnd IH]; intros s r s' H Hs.
  - inversion H; subst. split; [reflexivity |]. split; [reflexivity |].
    left. split; [reflexivity | intros b []].
  - rewrite for_cons in H.
    destruct (Hs b (or_introl eq_refl)) as [Hin Hnil].
    destruct (bind_inv _ _ _ _ _ H) as [[[] [s1 [H1 H2]]] | [x [H1 ->]]].
    + destruct (cell19_basis_frame _ _ _ _ H1 Hin Hnil)
        as (Hk1 & Ho1 & [(_ & Hl1) | (y & Hy & _)]); [| discriminate].
      destruct (IH _ _ _ H2) as (Hk & Ho & Hcases).
      { intros b' Hb'. destruct (Hs b' (or_intror Hb')) as [Hin' Hnil'].
        split; [rewrite Hk1; exact Hin' |].
        rewrite Ho1; [exact Hnil' | intros ->; contradiction]. }
      split; [congruence |]. split.
      * intros b' Hb'. rewrite Ho, Ho1; [reflexivity | |];
          intros Hi; apply Hb'; [left; congruence | right; assumption].
      * destruct Hcases as [(-> & Hl) | (y & pre & b0 & post & -> & -> & Hpre & Hb0)].
        -- left. split; [reflexivity |].
           intros b' [<- | Hb']; [rewrite Ho by assumption; exact Hl1 | auto].
        -- right. exists y, (b :: pre), b0, post.
           split; [reflexivity |]. split; [reflexivity |].
           split; [| exact Hb0].
           intros b' [<- | Hb']; [rewrite Ho by assumption; exact Hl1 | auto].
    + destruct (cell19_basis_frame _ _ _ _ H1 Hin Hnil)
        as (Hk1 & Ho1 & [(Hy & _) | (y & _ & Hl1)]); [discriminate |].
      split; [exact Hk1 |]. split.
      * intros b' Hb'. apply Ho1. intros ->. apply Hb'. left. reflexivity.
      * right. exists x, [], b, bs.
        split; [reflexivity |]. split; [reflexivity |].
        split; [intros b' [] | exact Hl1].
Qed.

Lemma cell19_bases_nodup : NoDup cell19_bases.
Proof.
  unfold cell19_bases.
  repeat (constructor; [cbn [In]; intros H; decompose [or] H; try discriminate;
                        assumption |]).
  constructor.
Qed.

(** Cell 19 from its loop on. *)
Lemma cell19_inv s r s' :
  cell19 s = (r, s') ->
  map fst (basis_results s') = cell19_bases /\
  ((r = Ok tt /\
    forall b, In b cell19_bases ->
              length (basis_results_at b s') = length thc_ranks) \/
   (exists x pre b post,
       r = Raise x /\ cell19_bases = pre ++ b :: post /\
       (forall b', In b' pre ->
                   length (basis_results_at b' s') = length thc_ranks) /\
       (length (basis_results_at b s') < length thc_ranks)%nat)).
Proof.
  intros H. unfold cell19 in H. rewrite bind_modify, bind_gets in H.
  destruct (cell19_loop cell19_bases cell19_bases_nodup _ _ _ H)
    as (Hk & _ & Hcases).
  - intros b Hb. split; [exact Hb |].
    cbn [In cell19_bases] in Hb. decompose [or] Hb; subst;
      try reflexivity; contradiction.
  - split; [exact Hk | exact Hcases].
Qed.

(** One curve of cell 20. *)
Lemma cell20_basis_ok b s :
  In b (map fst (basis_results s)) ->
  length (basis_results_at b s) = length thc_ranks ->
  cell20_basis b s
  = (Ok tt,
     set_figure (figure s ++ [(thc_ranks, Np.abs Qabs (basis_results_at b s))])
                s).
Proof.
  intros Hin Hl. unfold cell20_basis. rewrite bind_gets.
  rewrite (basis_results_at_get b s Hin).
  apply plt_plot_ok. unfold Np.abs. rewrite length_map. symmetry. exact Hl.
Qed.

Lemma cell20_basis_short b s :
  In b (map fst (basis_results s)) ->
  (length (basis_results_at b s) < length thc_ranks)%nat ->
  cell20_basis b s = (Raise ValueError, s).
Proof.
  intros Hin Hl. unfold cell20_basis. rewrite bind_gets.
  rewrite (basis_results_at_get b s Hin).
  apply plt_plot_mismatch. unfold Np.abs. rewrite length_map. lia.
Qed.

(** The loop of cell 20 over keys whose lists have one entry per rank
    parameter. *)
Lemma cell20_loop ks :
  forall s,
    (forall b, In b ks ->
               In b (map fst (basis_results s)) /\
               length (basis_results_at b s) = length thc_ranks) ->
    for_ ks cell20_basis s
    = (Ok tt,
       set_figure
         (figure s ++
          map (fun b => (thc_ranks, Np.abs Qabs (basis_results_at b s))) ks)
         s).
Proof.
  induction ks as [| b ks IH]; intros s Hs.
  - cbn [map]. rewrite app_nil_r. destruct s; reflexivity.
  - destruct (Hs b (or_introl eq_refl)) as [Hin Hl].
    rewrite for_cons, (bind_ok _ _ _ _ _ (cell20_basis_ok b s Hin Hl)).
    rewrite IH by (intros b' Hb'; apply (Hs b' (or_intror Hb'))).
    f_equal. unfold set_figure. cbn [figure world log delta_eri delta_mp2
                                     results basis_results stdout map].
    rewrite <- app_assoc. reflexivity.
Qed.

End Cell19_then_20.

(** X8. When cell 19 completes, [basis_results] has the three bases as
    its keys, each with one entry per rank parameter, and cell 20 then
    completes: it adds three curves to the axes, one per basis and in
    the order of the keys, the absolute values of the list of the basis
    against [thc_ranks], and changes nothing else. *)
Theorem cell19_then_cell20 (L : Lib) (s s1 : State) :
  cell19 s = (Ok tt, s1) ->
  map fst (basis_results s1) = cell19_bases /\
  (forall b, In b cell19_bases ->
             length (basis_results_at b s1) = length thc_ranks) /\
  cell20 s1
  = (Ok tt,
     set_figure
       (figure s1 ++
        map (fun b => (thc_ranks, Np.abs Qabs (basis_results_at b s1)))
            cell19_bases)
       s1).
Proof.
  intros H.
  destruct (cell19_inv _ _ _ H)
    as (Hk & [(_ & Hl) | (x & pre & b & post & Hx & _)]); [| discriminate].
  split; [exact Hk |]. split; [exact Hl |].
  unfold cell20. rewrite bind_gets, Hk.
  apply cell20_loop. intros b Hb. split; [rewrite Hk; exact Hb | auto].
Qed.

(** Cells 19 and 20 in the small library. *)
Lemma cell19_then_cell20_witness :
  exists s1 s2 : @State (Toy.lib []),
    @cell19 (Toy.lib []) (Toy.init [] 0) = (Ok tt, s1) /\
    cell20 s1 = (Ok tt, s2) /\
    length (figure s2) = 6%nat.
Proof.
  exists (snd (@cell19 (Toy.lib []) (Toy.init [] 0))).
  assert (H : @cell19 (Toy.lib []) (Toy.init [] 0)
              = (Ok tt, snd (@cell19 (Toy.lib []) (Toy.init [] 0))))
    by (vm_compute; reflexivity).
  destruct (cell19_then_cell20 (Toy.lib []) _ _ H) as (_ & _ & H20).
  eexists. split; [exact H |]. split; [exact H20 |].
  vm_compute. reflexivity.
Defined.

(** X9. When cell 19 raises, in the iteration of some basis, cell 20
    does not complete either: it draws the curves of the bases before
    that one, whose lists are complete, and raises [ValueError] at the
    plot of that basis, whose list has fewer entries than there are rank
    parameters. *)
Theorem cell19_raise_then_cell20 (L : Lib) (s s1 : State) (x : exn) :
  cell19 s = (Raise x, s1) ->
  exists pre b post,
    cell19_bases = pre ++ b :: post /\
    (forall b', In b' pre ->
                length (basis_results_at b' s1) = length thc_ranks) /\
    (length (basis_results_at b s1) < length thc_ranks)%nat /\
    cell20 s1
    = (Raise ValueError,
       set_figure
         (figure s1 ++
          map (fun b' => (thc_ranks, Np.abs Qabs (basis_results_at b' s1))) pre)
         s1).
Proof.
  intros H.
  destruct (cell19_inv _ _ _ H)
    as (Hk & [(Hx & _) | (y & pre & b & post & _ & Heq & Hpre & Hb)]);
    [discriminate |].
  exists pre, b, post. repeat (split; [assumption |]).
  unfold cell20. rewrite bind_gets, Hk, Heq.
  assert (Hin : forall b', In b' (pre ++ b :: post) ->
                           In b' (map fst (basis_results s1)))
    by (intros b' Hb'; rewrite Hk, Heq; exact Hb').
  eapply for_raise.
  - apply cell20_loop. intros b' Hb'.
    split; [apply Hin, in_or_app; left; exact Hb' | auto].
  - apply cell20_basis_short.
    + apply (Hin b). apply in_or_app. right. left. reflexivity.
    + exact Hb.
Qed.

(** In the small library the factorisation with 32 points raises in the
    second step of the first basis of cell 19. *)
Lemma cell19_raise_then_cell20_witness :
  exists s1 : @State (Toy.lib [32]),
    @cell19 (Toy.lib [32]) (Toy.init [32] 0)
    = (Raise (LibraryError "kmeans"), s1) /\
    basis_results s1 = [("gth-szv"%string, [(-1)%Q]); ("gth-dzvp"%string, []);
                        ("gth-tzvp"%string, [])] /\
    fst (cell20 s1) = Raise ValueError.
Proof.
  exists (snd (@cell19 (Toy.lib [32]) (Toy.init [32] 0))).
  assert (H : @cell19 (Toy.lib [32]) (Toy.init [32] 0)
              = (Raise (LibraryError "kmeans"),
                 snd (@cell19 (Toy.lib [32]) (Toy.init [32] 0))))
    by (vm_compute; reflexivity).
  destruct (cell19_raise_then_cell20 (Toy.lib [32]) _ _ _ H)
    as (pre & b & post & _ & _ & _ & H20).
  split; [exact H |]. split; [vm_compute; reflexivity |].
  rewrite H20. reflexivity.
Defined.

(** *** The report of cell 22 *)

Section Cell22_lines.

Context {L : Lib}.

Lemma cell22_lines_sound emp2_exact e_mf e lam c :
  Forall (fun l => match l with
                   | PrError _ err _ => (0 <= err)%Q
                   | PrBelow err _ => (0 <= err)%Q /\ (err < 1 # 10000)%Q
                   | _ => True
                   end)
         (cell22_lines emp2_exact e_mf e lam c).
Proof.
  unfold cell22_lines. cbv zeta. constructor; [apply Qabs_nonneg |].
  destruct (Qlt_le_dec _ _) as [Hlt | Hge]; constructor; [| constructor].
  split; [apply Qabs_nonneg | exact Hlt].
Qed.

(** The lines of a completed sweep of cell 22: those of its steps, in
    the order of the rank parameters. *)
Lemma cell22_sweep_report mf hcore nso e ranks :
  forall s s',
    cell22_sweep mf hcore nso e ranks s = (Ok tt, s') ->
    exists vals,
      length vals = length ranks /\
      stdout s' =
      stdout s ++
      flat_map (fun cv => cell22_lines e (e_tot mf) (fst (snd cv))
                                       (snd (snd cv)) (fst cv))
               (combine ranks vals).
Proof.
  unfold cell22_sweep.
  induction ranks as [| c ranks IH]; intros s s' H.
  - inversion H; subst. exists []. split; [reflexivity |].
    simpl. symmetry. apply app_nil_r.
  - destruct (for_cons_ok _ _ _ _ _ H) as [s1 [H1 H2]].
    destruct (cell22_body_ok _ _ _ _ _ _ _ H1) as (a & lam & _ & Hout & _).
    destruct (IH _ _ H2) as [vals [Hl Hs]].
    exists ((a, lam) :: vals). split; [simpl; congruence |].
    rewrite Hs, Hout, <- app_assoc. reflexivity.
Qed.

(** Cell 22, completed. *)
Lemma cell22_inv s s' :
  cell22 s = (Ok tt, s') ->
  exists mf hcore emp2_exact vals,
    length vals = length thc_ranks /\
    stdout s' =
    stdout s ++
    [PrSCF (e_tot mf); PrFFTDF emp2_exact] ++
    flat_map (fun cv => cell22_lines emp2_exact (e_tot mf) (fst (snd cv))
                                     (snd (snd cv)) (fst cv))
             (combine thc_ranks vals) /\
    log s' = log s ++ cell22_events (hcore_shape_last hcore).
Proof.
  intros H. unfold cell22, cell22_seeded in H. ok_inv.
  match goal with
  | H : cell22_sweep ?mf ?hcore _ ?e _ _ = _ |- _ =>
      destruct (cell22_sweep_report _ _ _ _ _ _ _ H) as [vals [Hl Hout]];
        pose proof (cell22_sweep_log _ _ _ _ _ _ _ H) as Hlog;
        exists mf, hcore, e, vals
  end.
  subst. split; [exact Hl |].
  rewrite Hout, Hlog. unfold cell22_events. simpl.
  repeat rewrite <- app_assoc. simpl. split; reflexivity.
Qed.

End Cell22_lines.

(** X10. When cell 22 completes it has printed the SCF energy, the
    reference correlation energy, and then, for every rank parameter in
    the order of the sweep, one line with the error of that rank,
    [abs(e - e_tot - emp2_exact)] for the energy [e] that
    [compute_emp2_approx] returned, followed by a second line exactly
    when that error is below [1e-4]. Every error printed is
    non-negative. *)
Theorem cell22_report (L : Lib) (s s' : State) :
  cell22 s = (Ok tt, s') ->
  exists mf emp2_exact vals,
    length vals = length thc_ranks /\
    stdout s' =
    stdout s ++
    [PrSCF (e_tot mf); PrFFTDF emp2_exact] ++
    flat_map (fun cv => cell22_lines emp2_exact (e_tot mf) (fst (snd cv))
                                     (snd (snd cv)) (fst cv))
             (combine thc_ranks vals) /\
    Forall (fun l => match l with
                     | PrError _ err _ => (0 <= err)%Q
                     | PrBelow err _ => (0 <= err)%Q /\ (err < 1 # 10000)%Q
                     | _ => True
                     end)
           (flat_map (fun cv => cell22_lines emp2_exact (e_tot mf)
                                             (fst (snd cv)) (snd (snd cv))
                                             (fst cv))
                     (combine thc_ranks vals)).
Proof.
  intros H.
  destruct (cell22_inv _ _ H) as (mf & hcore & e & vals & Hl & Hout & _).
  exists mf, e, vals. split; [exact Hl |]. split; [exact Hout |].
  apply Forall_flat_map. apply Forall_forall. intros cv _.
  apply cell22_lines_sound.
Qed.

(** Cell 22 in the small library: no error is below [1e-4]. *)
Lemma cell22_report_witness :
  exists s' : @State (Toy.lib []),
    @cell22 (Toy.lib []) (Toy.init [] 0) = (Ok tt, s') /\
    length (stdout s') = 11%nat.
Proof.
  exists (snd (@cell22 (Toy.lib []) (Toy.init [] 0))).
  assert (H : @cell22 (Toy.lib []) (Toy.init [] 0)
              = (Ok tt, snd (@cell22 (Toy.lib []) (Toy.init [] 0))))
    by (vm_compute; reflexivity).
  destruct (cell22_report (Toy.lib []) _ _ H) as (mf & e & vals & _ & _ & _).
  split; [exact H | vm_compute; reflexivity].
Defined.

(** *** Cell 15 *)

(** X11. Cell 15 completes and adds one curve with a point per rank
    parameter; for fewer than 2^52 orbitals the [np.int64] products do
    not wrap around and the value at the rank [c] is the share
    [100 * c * num_spatial_orbs / 1331]. *)
Theorem cell15_percentages (L : Lib) (nso : Z) (s : State) :
  0 <= nso < 2 ^ 52 ->
  cell15 nso s
  = (Ok tt,
     set_figure
       (figure s ++
        [(thc_ranks,
          map (fun c => (inject_Z (100 * c * nso) / inject_Z 1331)%Q)
              thc_ranks)])
       s).
Proof.
  intros Hn. unfold cell15. rewrite plt_plot_ok by (rewrite length_map; reflexivity).
  do 4 f_equal.
  change thc_ranks with [2; 4; 6; 8; 10; 12; 14; 16; 18].
  unfold cell15_percent, Np.int64_mul. cbn [map].
  repeat (rewrite (wrap64_small (100 * _)) by lia).
  repeat (rewrite wrap64_small by lia).
  reflexivity.
Qed.

Lemma cell15_percentages_witness :
  0 <= 8 < 2 ^ 52 /\
  figure (snd (@cell15 (Toy.lib []) 8 (Toy.init [] 0)))
  = [([2; 4; 6; 8; 10; 12; 14; 16; 18],
      map (fun c => (inject_Z (100 * c * 8) / inject_Z 1331)%Q)
          [2; 4; 6; 8; 10; 12; 14; 16; 18])].
Proof.
  assert (H : 0 <= 8 < 2 ^ 52) by (split; [discriminate | reflexivity]).
  split; [exact H |].
  rewrite (cell15_percentages (Toy.lib []) 8 (Toy.init [] 0) H). reflexivity.
Defined.

(** *** The library calls of a run of the notebook *)

Section Notebook_calls.

Context {L : Lib}.

Lemma cell2_log s su s' :
  cell2 s = (Ok su, s') ->
  log s' = log s ++ [EvBuildCell "gth-szv" [11; 11; 11]; EvMakeKpts; EvSCF].
Proof.
  intros H. unfold cell2, ret in H. ok_inv.
  match goal with H : (_, _) = (_, _) |- _ => inversion H; subst; clear H end.
  simpl. repeat rewrite <- app_assoc. reflexivity.
Qed.

Lemma cell4_log su s k s' :
  cell4 su s = (Ok k, s') ->
  log s' = log s ++ [EvSolve (Np.prod (cell_mesh (su_cell su)))].
Proof.
  intros H. unfold cell4, ret in H. ok_inv.
  match goal with H : (_, _) = (_, _) |- _ => inversion H; subst; clear H end.
  reflexivity.
Qed.

Lemma cell6_log su k s g s' :
  cell6 su k s = (Ok g, s') ->
  log s' = log s ++ [EvMomentumMap; EvDfAo2mo; EvHelper; EvGetEri].
Proof.
  intros H. unfold cell6, bind, call, lift, ret, raise in H.
  run_inv H.
  match type of H with
  | context [if ?b then _ else _] => destruct b
  end; [| discriminate].
  inversion H; subst; clear H. simpl.
  repeat rewrite <- app_assoc. reflexivity.
Qed.

Lemma cell10_log s r s' : cell10 s = (r, s') -> log s' = log s.
Proof.
  unfold cell10. rewrite bind_gets. apply plt_plot_log.
Qed.

Lemma cell12_log s r s' : cell12 s = (r, s') -> log s' = log s.
Proof.
  unfold cell12. rewrite bind_modify, bind_gets. intros H.
  apply plt_plot_log in H. exact H.
Qed.

Lemma cell15_log nso s r s' : cell15 nso s = (r, s') -> log s' = log s.
Proof. unfold cell15. apply plt_plot_log. Qed.

Lemma cell17_log nso s s' :
  cell17 nso s = (Ok tt, s') ->
  log s' = log s ++ flat_map (cell17_mesh_events nso) cell17_meshes.
Proof.
  intros H. unfold cell17 in H. rewrite bind_modify, bind_gets in H.
  apply (for_log_ok (cell17_mesh nso) (cell17_mesh_events nso)) in H;
    [exact H |].
  intros mesh s0 s1 H0.
  destruct (cell17_mesh_references _ _ _ _ H0) as (e & l & Hlog & _).
  exact Hlog.
Qed.

(** The calls of the loop of cell 19: those of its bases, each with the
    number of orbitals of its own mean field. *)
Lemma cell19_loop_log bs :
  forall s s',
    for_ bs cell19_basis s = (Ok tt, s') ->
    exists nsos,
      length nsos = length bs /\
      log s' = log s ++ flat_map cell19_basis_events (combine bs nsos).
Proof.
  induction bs as [| b bs IH]; intros s s' H.
  - inversion H; subst. exists []. split; [reflexivity |].
    simpl. symmetry. apply app_nil_r.
  - destruct (for_cons_ok _ _ _ _ _ H) as [s1 [H1 H2]].
    destruct (cell19_basis_references _ _ _ H1) as (mf & e & l & Hlog & _).
    destruct (IH _ _ H2) as [nsos [Hl Hlogs]].
    exists (mo_coeff_shape_last mf :: nsos). split; [simpl; congruence |].
    rewrite Hlogs, Hlog, <- app_assoc. reflexivity.
Qed.

Lemma cell19_log s s' :
  cell19 s = (Ok tt, s') ->
  exists nso1 nso2 nso3,
    log s' =
    log s ++
    flat_map cell19_basis_events (combine cell19_bases [nso1; nso2; nso3]).
Proof.
  intros H. unfold cell19 in H. rewrite bind_modify, bind_gets in H.
  destruct (cell19_loop_log cell19_bases _ _ H) as [nsos [Hl Hlog]].
  destruct nsos as [| a [| b [| c [| d nsos]]]]; try discriminate.
  exists a, b, c. exact Hlog.
Qed.

Lemma cell20_log s r s' : cell20 s = (r, s') -> log s' = log s.
Proof.
  unfold cell20. rewrite bind_gets. intros H.
  apply (for_respects (fun s s' => log s' = log s) cell20_basis) with (4 := H).
  - reflexivity.
  - intros s1 s2 s3 H12 H23. congruence.
  - intros b s0 r0 s1. unfold cell20_basis. rewrite bind_gets.
    destruct (dict_get _ _ _); [apply plt_plot_log |].
    intros H0. inversion H0. reflexivity.
Qed.

End Notebook_calls.



(** *** The abscissae of cell 19 *)

(** X14. In a completed iteration of cell 19 the curve of the basis has
    the abscissae [thc_ranks * num_spatial_orbs], [np.int64] products
    with the number of orbitals of the mean field that [scf.KRHF]
    returned for the basis in this iteration: in the order of the sweep
    they are the numbers of interpolation points with which its steps
    called [solve_kmeans_kpisdf] for that mean field. The ordinates are
    the absolute values of the list of the basis. *)
Theorem cell19_curves (L : Lib) (basis : string) (s s' : State) :
  cell19_basis basis s = (Ok tt, s') ->
  exists mf e_ref l,
    cell19_basis_calls basis (world s) mf e_ref l (world s') /\
    basis_results_at basis s' =
    basis_results_at basis s ++ map (fun a => (e_ref - a)%Q) l /\
    figure s' =
    figure s ++
    [(map (fun c => Np.int64_mul c (mo_coeff_shape_last mf)) thc_ranks,
      Np.abs Qabs (basis_results_at basis s'))] /\
    solve_requests (log s') =
    solve_requests (log s) ++
    map (fun c => Np.int64_mul c (mo_coeff_shape_last mf)) thc_ranks.
Proof.
  intros H.
  destruct (cell19_basis_run _ _ _ H) as (mf & e_ref & l & Hc & Hr & Hf & Hlog).
  exists mf, e_ref, l. repeat (split; [assumption |]).
  rewrite Hlog, solve_requests_app. reflexivity.
Qed.

(** The first basis of cell 19 in the small library, with eight
    orbitals. *)
Lemma cell19_curves_witness :
  exists s' : @State (Toy.lib []),
    @cell19_basis (Toy.lib []) "gth-szv"
                  (@mkState (Toy.lib []) 0 [] [] [] []
                            [("gth-szv"%string, [])] [] [])
    = (Ok tt, s') /\
    map fst (figure s') = [[16; 32; 48; 64; 80; 96; 112; 128; 144]] /\
    solve_requests (log s') = [16; 32; 48; 64; 80; 96; 112; 128; 144].
Proof.
  exists (snd (@cell19_basis (Toy.lib []) "gth-szv"
                 (@mkState (Toy.lib []) 0 [] [] [] []
                           [("gth-szv"%string, [])] [] []))).
  assert (H : @cell19_basis (Toy.lib []) "gth-szv"
                (@mkState (Toy.lib []) 0 [] [] [] []
                          [("gth-szv"%string, [])] [] [])
              = (Ok tt,
                 snd (@cell19_basis (Toy.lib []) "gth-szv"
                        (@mkState (Toy.lib []) 0 [] [] [] []
                                  [("gth-szv"%string, [])] [] []))))
    by (vm_compute; reflexivity).
  destruct (cell19_curves (Toy.lib []) _ _ _ H) as (mf & e & l & _ & _ & _ & _).
  split; [exact H |]. split; vm_compute; reflexivity.
Defined.
